(** * Neandertool DSP engine: filter stages, cascade and Chebyshev solver

    A shallow embedding of the DSP engine (classes [AnimatedParameter],
    [FilterStage], [FirstOrderLowPass], [SecondOrderLowPass],
    [FilterCascade] and [ChebyshevSolver]) and the properties its
    specification states about it.

    Numbers.  A JavaScript number is modelled by [JS.num]: the IEEE-754
    special values NaN, +Infinity and -Infinity are kept, with their
    propagation rules, and a finite number is a real.  Arithmetic on finite
    numbers is exact: rounding, overflow and the sign of zero (a zero
    divisor is taken as +0) are not modelled. *)

From Stdlib Require Import Reals Lra Lia ZArith List Bool String.
From Stdlib Require Import Permutation.
Import ListNotations.
Local Open Scope R_scope.

(* ================================================================== *)
(** * JavaScript numbers and the [Math] functions the engine calls     *)
(* ================================================================== *)

Module JS.

Inductive num : Type :=
| NaN
| PInf
| NInf
| Fin (r : R).

(** Values a property read can give: a missing property reads [undefined]. *)
Inductive value : Type :=
| VUndefined
| VNumber (x : num).

(** ToNumber: [undefined] converts to NaN. *)
Definition ToNumber (v : value) : num :=
  match v with
  | VUndefined => NaN
  | VNumber x => x
  end.

Definition Rltb (a b : R) : bool := if Rlt_dec a b then true else false.
Definition Reqb (a b : R) : bool := if Req_dec_T a b then true else false.

(** [x < y]; any comparison with NaN is false. *)
Definition lt (x y : num) : bool :=
  match x, y with
  | NaN, _ | _, NaN => false
  | Fin a, Fin b => Rltb a b
  | NInf, NInf => false
  | NInf, _ => true
  | PInf, _ => false
  | Fin _, PInf => true
  | Fin _, NInf => false
  end.

(** [x > y] *)
Definition gt (x y : num) : bool := lt y x.

(** [x <= y] *)
Definition le (x y : num) : bool :=
  match x, y with
  | NaN, _ | _, NaN => false
  | _, _ => negb (lt y x)
  end.

(** [x >= y] *)
Definition ge (x y : num) : bool := le y x.

(** [x === y] on numbers; NaN is not equal to itself. *)
Definition strict_eq (x y : num) : bool :=
  match x, y with
  | Fin a, Fin b => Reqb a b
  | PInf, PInf | NInf, NInf => true
  | _, _ => false
  end.

(** [x !== y] *)
Definition strict_neq (x y : num) : bool := negb (strict_eq x y).

(** Unary minus. *)
Definition neg (x : num) : num :=
  match x with
  | NaN => NaN
  | PInf => NInf
  | NInf => PInf
  | Fin a => Fin (- a)
  end.

Definition add (x y : num) : num :=
  match x, y with
  | NaN, _ | _, NaN => NaN
  | Fin a, Fin b => Fin (a + b)
  | PInf, NInf | NInf, PInf => NaN
  | PInf, _ | _, PInf => PInf
  | NInf, _ | _, NInf => NInf
  end.

Definition sub (x y : num) : num := add x (neg y).

(** An infinity of the given sign ([true] is +Infinity). *)
Definition inf (positive : bool) : num := if positive then PInf else NInf.

(** An infinity of sign [s] times [y]. *)
Definition inf_times (s : bool) (y : num) : num :=
  match y with
  | NaN => NaN
  | PInf => inf s
  | NInf => inf (negb s)
  | Fin b => if Rltb 0 b then inf s
             else if Rltb b 0 then inf (negb s)
             else NaN
  end.

Definition mul (x y : num) : num :=
  match x, y with
  | NaN, _ | _, NaN => NaN
  | Fin a, Fin b => Fin (a * b)
  | PInf, _ => inf_times true y
  | NInf, _ => inf_times false y
  | Fin _, _ => inf_times (match y with NInf => false | _ => true end) x
  end.

Definition div (x y : num) : num :=
  match x, y with
  | NaN, _ | _, NaN => NaN
  | Fin a, Fin b =>
      if Reqb b 0
      then (if Rltb 0 a then PInf else if Rltb a 0 then NInf else NaN)
      else Fin (a / b)
  | Fin _, _ => Fin 0
  | _, PInf | _, NInf => NaN
  | PInf, Fin b => if Rltb b 0 then NInf else PInf
  | NInf, Fin b => if Rltb b 0 then PInf else NInf
  end.

(** Integer part towards zero. *)
Definition Ztrunc (r : R) : Z :=
  if Rltb r 0 then Zceil r else Zfloor r.

(** [x % y]: the remainder has the sign of the dividend. *)
Definition rem (x y : num) : num :=
  match x, y with
  | NaN, _ | _, NaN => NaN
  | PInf, _ | NInf, _ => NaN
  | Fin a, Fin b =>
      if Reqb b 0 then NaN else Fin (a - b * IZR (Ztrunc (a / b)))
  | Fin a, _ => Fin a
  end.

Definition Math_PI : num := Fin PI.

Definition Math_abs (x : num) : num :=
  match x with
  | NaN => NaN
  | PInf | NInf => PInf
  | Fin a => Fin (Rabs a)
  end.

(** [Math.max(x, y)]: NaN when an argument is NaN. *)
Definition Math_max (x y : num) : num :=
  match x, y with
  | NaN, _ | _, NaN => NaN
  | _, _ => if lt x y then y else x
  end.

Definition Math_sqrt (x : num) : num :=
  match x with
  | NaN | NInf => NaN
  | PInf => PInf
  | Fin a => if Rltb a 0 then NaN else Fin (sqrt a)
  end.

(** [Math.pow(10, y)], the only base the engine raises to a power. *)
Definition Math_pow10 (y : num) : num :=
  match y with
  | NaN => NaN
  | PInf => PInf
  | NInf => Fin 0
  | Fin b => Fin (Rpower 10 b)
  end.

(** Decimal logarithm of a positive real. *)
Definition log10 (a : R) : R := ln a / ln 10.

Definition Math_log10 (x : num) : num :=
  match x with
  | NaN | NInf => NaN
  | PInf => PInf
  | Fin a => if Rltb a 0 then NaN
             else if Reqb a 0 then NInf
             else Fin (log10 a)
  end.

Definition Math_ceil (x : num) : num :=
  match x with
  | Fin a => Fin (IZR (Zceil a))
  | _ => x
  end.

Definition Math_floor (x : num) : num :=
  match x with
  | Fin a => Fin (IZR (Zfloor a))
  | _ => x
  end.

Definition Math_sin (x : num) : num :=
  match x with
  | Fin a => Fin (sin a)
  | _ => NaN
  end.

Definition Math_cos (x : num) : num :=
  match x with
  | Fin a => Fin (cos a)
  | _ => NaN
  end.

Definition Math_sinh (x : num) : num :=
  match x with
  | Fin a => Fin (sinh a)
  | _ => x
  end.

Definition Math_cosh (x : num) : num :=
  match x with
  | NaN => NaN
  | PInf | NInf => PInf
  | Fin a => Fin (cosh a)
  end.

Definition Math_acos (x : num) : num :=
  match x with
  | Fin a => if Rltb a (-1) then NaN else if Rltb 1 a then NaN else Fin (acos a)
  | _ => NaN
  end.

(** Inverse hyperbolic cosine on [1, +oo). *)
Definition arccosh (a : R) : R := ln (a + sqrt (a * a - 1)).

Definition Math_acosh (x : num) : num :=
  match x with
  | NaN | NInf => NaN
  | PInf => PInf
  | Fin a => if Rltb a 1 then NaN else Fin (arccosh a)
  end.

Definition Math_asinh (x : num) : num :=
  match x with
  | Fin a => Fin (arcsinh a)
  | _ => x
  end.

(** A number literal that is an integer. *)
Definition int (z : Z) : num := Fin (IZR z).

End JS.

Import JS.

Declare Scope js_scope.
Delimit Scope js_scope with js.
Infix "+" := JS.add : js_scope.
Infix "-" := JS.sub : js_scope.
Infix "*" := JS.mul : js_scope.
Infix "/" := JS.div : js_scope.
Notation "- x" := (JS.neg x) : js_scope.
Infix "<?" := JS.lt : js_scope.
Infix ">?" := JS.gt : js_scope.
Infix "<=?" := JS.le : js_scope.
Infix ">=?" := JS.ge : js_scope.

(** Complex values [{ re, im }]. *)
Record Complex : Type := mkComplex { re : num; im : num }.

(* ================================================================== *)
(** * AnimatedParameter                                                *)
(* ================================================================== *)

Module AnimatedParameter.

Record t : Type := mk {
  value : num;
  min : num;
  max : num;
  isAnimating : bool;
  phase : num
}.

Definition set_value (v : num) (p : t) : t :=
  mk v (min p) (max p) (isAnimating p) (phase p).

Definition set_isAnimating (b : bool) (p : t) : t :=
  mk (value p) (min p) (max p) b (phase p).

(** [autoRange()].  The tolerance is read from the page: [dom] is
    [parseFloat] of the text of the element [slider-tolerance-value] when
    the element exists, [None] when it does not. *)
Definition autoRange (dom : option num) (p : t) : t :=
  let tolerance :=
    match dom with
    | Some percent => (percent / Fin 100)%js
    | None => Fin 0.2
    end in
  mk (value p)
     (Math_max (Fin 0) (value p * (Fin 1 - tolerance)))%js
     (value p * (Fin 1 + tolerance))%js
     (isAnimating p) (phase p).

(** [new AnimatedParameter(value)] *)
Definition new (dom : option num) (v : num) : t :=
  let p := autoRange dom (mk v NaN NaN false (Fin 0)) in
  mk (value p) (min p) (max p) false (Fin 0).

(** [setRange(min, max)] *)
Definition setRange (mn mx : num) (p : t) : t :=
  let p1 := mk (value p) (Math_max (Fin 0) mn) mx (isAnimating p) (phase p) in
  let p2 := if (value p1 <? min p1)%js then set_value (min p1) p1 else p1 in
  if (value p2 >? max p2)%js then set_value (max p2) p2 else p2.

(** [update(deltaTime, speed)] *)
Definition update (deltaTime speed : num) (p : t) : t :=
  if negb (isAnimating p) then p
  else
    let phase1 := (phase p + deltaTime * speed * Fin 2 * Math_PI)%js in
    let phase2 :=
      if (phase1 >? Fin 2 * Math_PI)%js
      then (phase1 - Fin 2 * Math_PI)%js
      else phase1 in
    let normalized := ((Math_sin phase2 + Fin 1) / Fin 2)%js in
    mk (min p + normalized * (max p - min p))%js
       (min p) (max p) (isAnimating p) phase2.

Definition startAnimation (p : t) : t := set_isAnimating true p.
Definition stopAnimation (p : t) : t := set_isAnimating false p.

End AnimatedParameter.

(* ================================================================== *)
(** * FilterStage and its two sections                                 *)
(* ================================================================== *)

Module FilterStage.

(** The two subclasses, with the parameters each owns. *)
Inductive section : Type :=
| FirstOrderLowPass (f0 : AnimatedParameter.t)
| SecondOrderLowPass (f0 Q : AnimatedParameter.t).

Record t : Type := mk {
  id : Z;
  active : bool;
  body : section
}.

(** The tag the subclass passes to the base constructor. *)
Definition type (s : t) : string :=
  match body s with
  | FirstOrderLowPass _ => "pole"
  | SecondOrderLowPass _ _ => "biquad"
  end.

(** [new FirstOrderLowPass(f0)]: takes the next identity from the counter
    [FilterStage.nextId] and returns the counter incremented. *)
Definition newFirstOrderLowPass (dom : option num) (nextId : Z) (f0 : num)
  : t * Z :=
  (mk nextId true (FirstOrderLowPass (AnimatedParameter.new dom f0)),
   (nextId + 1)%Z).

(** [new SecondOrderLowPass(f0, Q)] *)
Definition newSecondOrderLowPass (dom : option num) (nextId : Z) (f0 Q : num)
  : t * Z :=
  (mk nextId true
      (SecondOrderLowPass (AnimatedParameter.new dom f0)
                          (AnimatedParameter.new dom Q)),
   (nextId + 1)%Z).

(** [getResponse(omega)], as each subclass overrides it. *)
Definition getResponse (s : t) (omega : num) : Complex :=
  match body s with
  | FirstOrderLowPass p =>
      let f0 := AnimatedParameter.value p in
      let denom := (f0 * f0 + omega * omega)%js in
      mkComplex (f0 * f0 / denom)%js (- f0 * omega / denom)%js
  | SecondOrderLowPass p q =>
      let f0 := AnimatedParameter.value p in
      let Q := AnimatedParameter.value q in
      let realPart := (f0 * f0 - omega * omega)%js in
      let imagPart := ((f0 / Q) * omega)%js in
      let denomMagSq := (realPart * realPart + imagPart * imagPart)%js in
      let num := (f0 * f0)%js in
      mkComplex ((num * realPart) / denomMagSq)%js
                (- (num * imagPart) / denomMagSq)%js
  end.

Definition getMagnitude (s : t) (omega : num) : num :=
  let h := getResponse s omega in
  Math_sqrt (re h * re h + im h * im h)%js.

Definition getMagnitudeDb (s : t) (omega : num) : num :=
  let mag := getMagnitude s omega in
  if (mag >? Fin 1e-10)%js then (Fin 20 * Math_log10 mag)%js else Fin (-200).

Definition getParameters (s : t) : list AnimatedParameter.t :=
  match body s with
  | FirstOrderLowPass p => [p]
  | SecondOrderLowPass p q => [p; q]
  end.

(** [getPoles()]: the poles in the s-plane. *)
Definition getPoles (s : t) : list Complex :=
  match body s with
  | FirstOrderLowPass p =>
      [mkComplex (- AnimatedParameter.value p)%js (Fin 0)]
  | SecondOrderLowPass p q =>
      let f0 := AnimatedParameter.value p in
      let Q := AnimatedParameter.value q in
      let alpha := (f0 / (Fin 2 * Q))%js in
      let discriminant := ((f0 * f0) / (Fin 4 * Q * Q) - f0 * f0)%js in
      if (discriminant >=? Fin 0)%js then
        let sqrtDisc := Math_sqrt discriminant in
        [mkComplex (- alpha + sqrtDisc)%js (Fin 0);
         mkComplex (- alpha - sqrtDisc)%js (Fin 0)]
      else
        let sqrtDisc := Math_sqrt (- discriminant)%js in
        [mkComplex (- alpha)%js sqrtDisc;
         mkComplex (- alpha)%js (- sqrtDisc)%js]
  end.

(** Applies [f] to every parameter the stage owns. *)
Definition map_parameters (f : AnimatedParameter.t -> AnimatedParameter.t)
  (s : t) : t :=
  mk (id s) (active s)
     (match body s with
      | FirstOrderLowPass p => FirstOrderLowPass (f p)
      | SecondOrderLowPass p q => SecondOrderLowPass (f p) (f q)
      end).

End FilterStage.

(* ================================================================== *)
(** * FilterCascade                                                    *)
(* ================================================================== *)

Module FilterCascade.

Record t : Type := mk {
  stages : list FilterStage.t;
  animationSpeed : num;
  globalGainDb : num
}.

(** [new FilterCascade()] *)
Definition new : t := mk [] (Fin 1) (Fin 0).

(** [addStage(stage)]: pushes the stage and returns it. *)
Definition addStage (stage : FilterStage.t) (c : t) : t * FilterStage.t :=
  (mk (stages c ++ [stage]) (animationSpeed c) (globalGainDb c), stage).

(** [removeStage(id)]: keeps the stages [s] with [s.id !== id]. *)
Definition removeStage (i : Z) (c : t) : t :=
  mk (filter (fun s => negb (FilterStage.id s =? i)%Z) (stages c))
     (animationSpeed c) (globalGainDb c).

(** [clearStages()] *)
Definition clearStages (c : t) : t := mk [] (animationSpeed c) (Fin 0).

(** One turn of the loop of [getResponse]: the accumulator [(re, im)] is
    multiplied by the response of an active stage. *)
Definition multiply_stage (omega : num) (acc : Complex) (stage : FilterStage.t)
  : Complex :=
  if negb (FilterStage.active stage) then acc
  else
    let h := FilterStage.getResponse stage omega in
    mkComplex (re acc * re h - im acc * im h)%js
              (re acc * im h + im acc * re h)%js.

(** [getResponse(omega)] *)
Definition getResponse (c : t) (omega : num) : Complex :=
  let acc := fold_left (multiply_stage omega) (stages c)
                       (mkComplex (Fin 1) (Fin 0)) in
  let linearGain := Math_pow10 (globalGainDb c / Fin 20)%js in
  mkComplex (re acc * linearGain)%js (im acc * linearGain)%js.

Definition getMagnitude (c : t) (omega : num) : num :=
  let h := getResponse c omega in
  Math_sqrt (re h * re h + im h * im h)%js.

Definition getMagnitudeDb (c : t) (omega : num) : num :=
  let mag := getMagnitude c omega in
  if (mag >? Fin 1e-10)%js then (Fin 20 * Math_log10 mag)%js else Fin (-200).

Definition map_stages (f : AnimatedParameter.t -> AnimatedParameter.t)
  (c : t) : t :=
  mk (map (FilterStage.map_parameters f) (stages c))
     (animationSpeed c) (globalGainDb c).

Definition updateAnimations (deltaTime : num) (c : t) : t :=
  map_stages (AnimatedParameter.update deltaTime (animationSpeed c)) c.

Definition playAll (c : t) : t := map_stages AnimatedParameter.startAnimation c.
Definition pauseAll (c : t) : t := map_stages AnimatedParameter.stopAnimation c.

End FilterCascade.

(* ================================================================== *)
(** * ChebyshevSolver                                                  *)
(* ================================================================== *)

Module ChebyshevSolver.

(** An object literal: its properties in the order they are written. *)
Definition object : Type := list (string * num).

(** A property read [o.key]; a property the object lacks reads
    [undefined]. *)
Fixpoint get (o : object) (key : string) : value :=
  match o with
  | [] => VUndefined
  | (k, v) :: rest => if String.eqb k key then VNumber v else get rest key
  end.

(** [getMinOrder(wp, ws, Ap, As)] *)
Definition getMinOrder (wp ws Ap As : num) : num :=
  let epsilon := Math_sqrt (Math_pow10 (Ap / Fin 10) - Fin 1)%js in
  let A := Math_pow10 (As / Fin 20)%js in
  let ratio := (ws / wp)%js in
  let n := (Math_acosh (Math_sqrt (A * A - Fin 1) / epsilon)
            / Math_acosh ratio)%js in
  Math_ceil n.

(** The pole [{ sigma, omega }] the loop of [getPoles] pushes at index [k]. *)
Definition pole_at (k : Z) (n gamma wp : num) : object :=
  let theta := (Math_PI * (Fin 2 * int k - Fin 1) / (Fin 2 * n))%js in
  let sigma := (- wp * Math_sinh gamma * Math_sin theta)%js in
  let omega := (wp * Math_cosh gamma * Math_cos theta)%js in
  [("sigma"%string, sigma); ("omega"%string, omega)].

(** The loop [for (let k = 1; k <= n; k++)] of [getPoles], entered at [k]
    with the poles pushed so far.  [None]: the loop has not ended within
    [fuel] turns. *)
Fixpoint getPoles_loop (fuel : nat) (k : Z) (n gamma wp : num)
  (poles : list object) : option (list object) :=
  match fuel with
  | O => None
  | S fuel' =>
      if (int k <=? n)%js
      then getPoles_loop fuel' (k + 1)%Z n gamma wp
                         (poles ++ [pole_at k n gamma wp])
      else Some poles
  end.

(** [getPoles(n, epsilon, wp)] *)
Definition getPoles (fuel : nat) (n epsilon wp : num) : option (list object) :=
  let gamma := (Math_asinh (Fin 1 / epsilon) / n)%js in
  getPoles_loop fuel 1%Z n gamma wp [].

(** [getResponse(omega, n, epsilon, wp)]: the ideal magnitude. *)
Definition getResponse (omega n epsilon wp : num) : num :=
  let x := (omega / wp)%js in
  let Tn :=
    if (x <=? Fin 1)%js
    then Math_cos (n * Math_acos x)%js
    else Math_cosh (n * Math_acosh x)%js in
  let magSq := (Fin 1 / (Fin 1 + epsilon * epsilon * Tn * Tn))%js in
  Math_sqrt magSq.

(** The value [{ stages, globalGainDb }] that [getBestSolutionStages]
    returns. *)
Record solution : Type := mkSolution {
  stages : list FilterStage.t;
  globalGainDb : num
}.

(** The stages pushed so far, with the identity counter
    [FilterStage.nextId]. *)
Definition building : Type := (list FilterStage.t * Z)%type.

(** Body of the first loop: a pole [p] with [p.im > 0] gives a second-order
    stage. *)
Definition push_biquad (dom : option num) (b : building) (p : object)
  : building :=
  if (ToNumber (get p "im") >? Fin 0)%js then
    let sigma := ToNumber (get p "sigma") in
    let omega := ToNumber (get p "omega") in
    let f0 := Math_sqrt (sigma * sigma + omega * omega)%js in
    let Q := (f0 / (- Fin 2 * sigma))%js in
    let (stage, nextId) :=
      FilterStage.newSecondOrderLowPass dom (snd b) f0 Q in
    (fst b ++ [stage], nextId)
  else b.

(** Body of the second loop: a pole [p] with [Math.abs(p.im) < 1e-10] gives
    a first-order stage. *)
Definition push_pole (dom : option num) (b : building) (p : object)
  : building :=
  if (Math_abs (ToNumber (get p "im")) <? Fin 1e-10)%js then
    let f0 := (- ToNumber (get p "sigma"))%js in
    let (stage, nextId) := FilterStage.newFirstOrderLowPass dom (snd b) f0 in
    (fst b ++ [stage], nextId)
  else b.

(** [getBestSolutionStages(wp, ws, Ap, As)], with the counter
    [FilterStage.nextId] passed in and returned. *)
Definition getBestSolutionStages (fuel : nat) (dom : option num) (nextId : Z)
  (wp ws Ap As : num) : option (solution * Z) :=
  let n := getMinOrder wp ws Ap As in
  let epsilon := Math_sqrt (Math_pow10 (Ap / Fin 10) - Fin 1)%js in
  match getPoles fuel n epsilon wp with
  | None => None
  | Some poles =>
      let b1 := fold_left (push_biquad dom) poles ([], nextId) in
      let b2 := fold_left (push_pole dom) poles b1 in
      let gain :=
        if strict_eq (rem n (Fin 2)) (Fin 0) then (- Ap)%js else Fin 0 in
      Some (mkSolution (fst b2) gain, snd b2)
  end.

End ChebyshevSolver.

(* ================================================================== *)
(** * The earlier version of the engine                                *)
(* ================================================================== *)

(** The earlier version of the engine differs in the constructor of
    [AnimatedParameter], which takes the bounds, and in the two loops of
    [getBestSolutionStages], which pick the poles by index. *)
Module Legacy.

Import ChebyshevSolver.

(** How a call ends: it returns, it throws a [TypeError] (a property read
    on [undefined]), or the fuel is spent. *)
Inductive outcome (A : Type) : Type :=
| Returned (a : A)
| TypeError
| OutOfFuel.

Arguments Returned {A} a.
Arguments TypeError {A}.
Arguments OutOfFuel {A}.

(** [new AnimatedParameter(value, min, max)] *)
Definition newAnimatedParameter (v mn mx : num) : AnimatedParameter.t :=
  AnimatedParameter.mk v (Math_max (Fin 0) mn) mx false (Fin 0).

(** [new FirstOrderLowPass(w0)] *)
Definition newFirstOrderLowPass (nextId : Z) (w0 : num) : FilterStage.t * Z :=
  (FilterStage.mk nextId true
     (FilterStage.FirstOrderLowPass
        (newAnimatedParameter w0 (Fin 0.01) (Fin 100))),
   (nextId + 1)%Z).

(** [new SecondOrderLowPass(w0, Q)] *)
Definition newSecondOrderLowPass (nextId : Z) (w0 Q : num)
  : FilterStage.t * Z :=
  (FilterStage.mk nextId true
     (FilterStage.SecondOrderLowPass
        (newAnimatedParameter w0 (Fin 0.01) (Fin 100))
        (newAnimatedParameter Q (Fin 0.1) (Fin 20))),
   (nextId + 1)%Z).

(** [poles[x]] for a number [x]: the element when [x] is an index of the
    array, [undefined] (here [None]) otherwise. *)
Definition element (poles : list object) (x : num) : option object :=
  match x with
  | Fin r =>
      if Reqb r (IZR (Zfloor r)) && negb (Rltb r 0)
      then nth_error poles (Z.to_nat (Zfloor r))
      else None
  | _ => None
  end.

(** The loop [for (let i = 0; i < Math.floor(n / 2); i++)], entered at
    [i]. *)
Fixpoint biquads_loop (fuel : nat) (i : Z) (bound : num)
  (poles : list object) (b : building) : outcome building :=
  match fuel with
  | O => OutOfFuel
  | S fuel' =>
      if (int i <? bound)%js then
        match element poles (int i) with
        | None => TypeError
        | Some p =>
            let sigma := ToNumber (get p "sigma") in
            let omega := ToNumber (get p "omega") in
            let w0 := Math_sqrt (sigma * sigma + omega * omega)%js in
            let Q := (w0 / (- Fin 2 * sigma))%js in
            let (stage, nextId) := newSecondOrderLowPass (snd b) w0 Q in
            biquads_loop fuel' (i + 1)%Z bound poles (fst b ++ [stage], nextId)
        end
      else Returned b
  end.

(** [getBestSolutionStages(wp, ws, Ap, As)] *)
Definition getBestSolutionStages (fuel : nat) (nextId : Z)
  (wp ws Ap As : num) : outcome (solution * Z) :=
  let n := getMinOrder wp ws Ap As in
  let epsilon := Math_sqrt (Math_pow10 (Ap / Fin 10) - Fin 1)%js in
  match getPoles fuel n epsilon wp with
  | None => OutOfFuel
  | Some poles =>
      match biquads_loop fuel 0 (Math_floor (n / Fin 2)%js) poles
                         ([], nextId) with
      | Returned b1 =>
          let gain :=
            if strict_eq (rem n (Fin 2)) (Fin 0) then (- Ap)%js else Fin 0 in
          if strict_neq (rem n (Fin 2)) (Fin 0) then
            match element poles (Math_floor (n / Fin 2)%js) with
            | None => TypeError
            | Some p =>
                let w0 := (- ToNumber (get p "sigma"))%js in
                let (stage, nextId') := newFirstOrderLowPass (snd b1) w0 in
                Returned (mkSolution (fst b1 ++ [stage]) gain, nextId')
            end
          else Returned (mkSolution (fst b1) gain, snd b1)
      | TypeError => TypeError
      | OutOfFuel => OutOfFuel
      end
  end.

End Legacy.

(* ================================================================== *)
(** * Sampled frequency responses                                      *)
(* ================================================================== *)

(** [getFrequencyResponse] is written three times in the engine, in
    [FilterStage], [FilterCascade] and [ChebyshevSolver], with the same
    loop over the same logarithmic grid; the three differ in how the
    magnitude of a point is computed. *)
Module FrequencyResponse.

(** A sample [{ freq, omega, magnitude, magnitudeDb }]. *)
Record point : Type := mkPoint {
  freq : num;
  omega : num;
  magnitude : num;
  magnitudeDb : num
}.

(** The loop [for (let i = 0; i <= numPoints; i++)], entered at [i] with
    the samples pushed so far.  [None]: the loop has not ended within
    [fuel] turns. *)
Fixpoint loop (fuel : nat) (i : Z) (numPoints logMin logMax : num)
  (getMagnitude getMagnitudeDb : num -> num) (response : list point)
  : option (list point) :=
  match fuel with
  | O => None
  | S fuel' =>
      if (int i <=? numPoints)%js then
        let logFreq := (logMin + (int i / numPoints) * (logMax - logMin))%js in
        let freq := Math_pow10 logFreq in
        let omega := freq in
        loop fuel' (i + 1)%Z numPoints logMin logMax
             getMagnitude getMagnitudeDb
             (response ++ [mkPoint freq omega (getMagnitude omega)
                                   (getMagnitudeDb omega)])
      else Some response
  end.

(** The body shared by the three methods. *)
Definition sample (fuel : nat) (getMagnitude getMagnitudeDb : num -> num)
  (freqMin freqMax numPoints : num) : option (list point) :=
  let logMin := Math_log10 (Math_max (Fin 0.001) freqMin) in
  let logMax := Math_log10 freqMax in
  loop fuel 0 numPoints logMin logMax getMagnitude getMagnitudeDb [].

(** [FilterStage.getFrequencyResponse(freqMin, freqMax, numPoints)] *)
Definition ofStage (fuel : nat) (s : FilterStage.t)
  (freqMin freqMax numPoints : num) : option (list point) :=
  sample fuel (FilterStage.getMagnitude s) (FilterStage.getMagnitudeDb s)
         freqMin freqMax numPoints.

(** [FilterCascade.getFrequencyResponse(freqMin, freqMax, numPoints)] *)
Definition ofCascade (fuel : nat) (c : FilterCascade.t)
  (freqMin freqMax numPoints : num) : option (list point) :=
  sample fuel (FilterCascade.getMagnitude c) (FilterCascade.getMagnitudeDb c)
         freqMin freqMax numPoints.

(** The value [{ response, order, epsilon }] of
    [ChebyshevSolver.getFrequencyResponse]. *)
Record ideal : Type := mkIdeal {
  response : list point;
  order : num;
  epsilon : num
}.

(** [ChebyshevSolver.getFrequencyResponse(wp, ws, Ap, As, freqMin, freqMax,
    numPoints)] *)
Definition ofChebyshev (fuel : nat) (wp ws Ap As freqMin freqMax numPoints : num)
  : option ideal :=
  let n := ChebyshevSolver.getMinOrder wp ws Ap As in
  let epsilon := Math_sqrt (Math_pow10 (Ap / Fin 10) - Fin 1)%js in
  let mag := fun omega => ChebyshevSolver.getResponse omega n epsilon wp in
  match sample fuel mag
               (fun omega =>
                  if (mag omega >? Fin 1e-10)%js
                  then (Fin 20 * Math_log10 (mag omega))%js
                  else Fin (-200))
               freqMin freqMax numPoints with
  | None => None
  | Some response => Some (mkIdeal response n epsilon)
  end.

End FrequencyResponse.

(* ================================================================== *)
(** * GameManager: the challenge and its check                         *)
(* ================================================================== *)

Module GameManager.

(** [{ freqMin, freqMax, dbMin }] *)
Record passband : Type := mkPassband {
  pb_freqMin : num;
  pb_freqMax : num;
  dbMin : num
}.

(** [{ freqMin, freqMax, dbMax }] *)
Record stopband : Type := mkStopband {
  sb_freqMin : num;
  sb_freqMax : num;
  dbMax : num
}.

(** The object [this.constraints]. *)
Record constraints : Type := mkConstraints {
  pass : passband;
  stop : stopband;
  wp : num;
  ws : num;
  Ap : num;
  As : num;
  minOrder : num
}.

(** [generateConstraints()], for a manager in round [round] with the
    difficulty settings [baseMinOrder] and [orderIncreasePerRound]; [r1],
    [r2], [r3] are the three values [Math.random()] returns, in the order
    of the calls. *)
Definition generateConstraints (baseMinOrder orderIncreasePerRound round
                                r1 r2 r3 : num) : constraints :=
  let minOrder :=
    Math_floor (baseMinOrder + (round - Fin 1) * orderIncreasePerRound)%js in
  let passbandFreq := (Math_floor (r1 * Fin 10) + Fin 1)%js in
  let gap := (Fin 1.5 + r2 * Fin 1.5)%js in
  let stopbandFreq := (passbandFreq * gap)%js in
  let passbandRipple := Fin 3.0 in
  let stopbandAtten := (Fin 25 + r3 * Fin 10)%js in
  mkConstraints
    (mkPassband (Fin 0.1) passbandFreq (- passbandRipple)%js)
    (mkStopband stopbandFreq (Fin 100) (- stopbandAtten)%js)
    passbandFreq stopbandFreq passbandRipple stopbandAtten minOrder.

(** [checkConstraints(cascade)]; the field [this.constraints] is [None]
    before the first challenge.  The outer [None]: the sampling loops have
    not ended within [fuel] turns. *)
Definition checkConstraints (fuel : nat) (current : option constraints)
  (cascade : FilterCascade.t) : option bool :=
  match current with
  | None => Some false
  | Some cs =>
      match FrequencyResponse.ofCascade fuel cascade
              (pb_freqMin (pass cs)) (pb_freqMax (pass cs)) (Fin 50) with
      | None => None
      | Some pbResponse =>
          let pbTooLow :=
            existsb (fun p => (FrequencyResponse.magnitudeDb p
                               <? dbMin (pass cs))%js) pbResponse in
          let pbTooHigh :=
            existsb (fun p => (FrequencyResponse.magnitudeDb p >? Fin 0)%js)
                    pbResponse in
          match FrequencyResponse.ofCascade fuel cascade
                  (sb_freqMin (stop cs)) (sb_freqMax (stop cs)) (Fin 50) with
          | None => None
          | Some sbResponse =>
              let sbFails :=
                existsb (fun p => (FrequencyResponse.magnitudeDb p
                                   >? dbMax (stop cs))%js) sbResponse in
              Some (negb pbTooLow && negb pbTooHigh && negb sbFails)
          end
      end
  end.

(** [getBestSolutionStages()]: [null] (the outer [None]) without
    constraints, else the solver's answer. *)
Definition getBestSolutionStages (fuel : nat) (dom : option num) (nextId : Z)
  (current : option constraints)
  : option (option (ChebyshevSolver.solution * Z)) :=
  match current with
  | None => None
  | Some cs =>
      Some (ChebyshevSolver.getBestSolutionStages fuel dom nextId
              (wp cs) (ws cs) (Ap cs) (As cs))
  end.

End GameManager.

(* ================================================================== *)
(** * Notions used to state the properties                             *)
(* ================================================================== *)

(** A parameter at value 5 with the bounds [1, 10]. *)
Definition sample_parameter (animating : bool) : AnimatedParameter.t :=
  AnimatedParameter.mk (Fin 5) (Fin 1) (Fin 10) animating (Fin 0).

(** [Subsequence l' l]: [l'] is [l] with some elements deleted, the others
    in their order. *)
Inductive Subsequence {A : Type} : list A -> list A -> Prop :=
| Subsequence_nil : Subsequence [] []
| Subsequence_skip (a : A) (l' l : list A) :
    Subsequence l' l -> Subsequence l' (a :: l)
| Subsequence_keep (a : A) (l' l : list A) :
    Subsequence l' l -> Subsequence (a :: l') (a :: l).

(** How many of the stages carry the identity [i]. *)
Fixpoint count_id (i : Z) (l : list FilterStage.t) : nat :=
  match l with
  | [] => O
  | s :: rest =>
      if (FilterStage.id s =? i)%Z then S (count_id i rest)
      else count_id i rest
  end.

(** The invariant of a stage: [f0 > 0], and [Q > 0] for a second-order
    section, both finite. *)
Definition valid_stage (s : FilterStage.t) : Prop :=
  match FilterStage.body s with
  | FilterStage.FirstOrderLowPass p =>
      exists f, AnimatedParameter.value p = Fin f /\ 0 < f
  | FilterStage.SecondOrderLowPass p q =>
      exists f q', AnimatedParameter.value p = Fin f /\ 0 < f /\
                   AnimatedParameter.value q = Fin q' /\ 0 < q'
  end.

(** A magnitude and the decibel value computed from it: both finite, the
    magnitude not negative, the decibel value floored at -200. *)
Definition floored_decibels (mag db : num) : Prop :=
  exists m d, mag = Fin m /\ db = Fin d /\
    0 <= m /\ -200 <= d /\
    (m <= 1e-10 -> d = -200) /\
    (1e-10 < m -> d = 20 * log10 m).

(** A magnitude and the decibel value computed from it, whatever the
    numbers are: the magnitude is NaN or not negative, the decibel value is
    at least -200; it is [20 * log10] of the magnitude when the magnitude
    exceeds 1e-10, and -200 when the magnitude is at most 1e-10 and when it
    is NaN. *)
Definition decibel_rule (mag db : num) : Prop :=
  (mag = NaN \/ (mag >=? Fin 0)%js = true) /\
  (db >=? Fin (-200))%js = true /\
  ((mag >? Fin 1e-10)%js = true -> db = (Fin 20 * Math_log10 mag)%js) /\
  ((mag <=? Fin 1e-10)%js = true -> db = Fin (-200)) /\
  (mag = NaN -> db = Fin (-200)).

(** [new SecondOrderLowPass(f0, Q)] as the first stage created, the page
    giving no tolerance. *)
Definition biquad (f0 Q : R) : FilterStage.t :=
  fst (FilterStage.newSecondOrderLowPass None 1 (Fin f0) (Fin Q)).

(** [new FirstOrderLowPass(f0)], likewise. *)
Definition single_pole (f0 : R) : FilterStage.t :=
  fst (FilterStage.newFirstOrderLowPass None 1 (Fin f0)).

(** The quantities of a filter specification, on reals: the ripple factor
    [epsilon = sqrt(10^(Ap/10) - 1)], the attenuation [A = 10^(As/20)] and
    the argument [sqrt(A^2 - 1) / epsilon] of the inverse hyperbolic
    cosine. *)
Definition ripple_factor (Ap : R) : R := sqrt (Rpower 10 (Ap / 10) - 1).

Definition attenuation (As : R) : R := Rpower 10 (As / 20).

Definition acosh_argument (Ap As : R) : R :=
  sqrt (attenuation As * attenuation As - 1) / ripple_factor Ap.

(** A feasible specification: [ws > wp > 0], [Ap > 0], [As > Ap] and the
    argument of the inverse hyperbolic cosine at least 1. *)
Definition feasible (wp ws Ap As : R) : Prop :=
  0 < wp < ws /\ 0 < Ap /\ Ap < As /\ 1 <= acosh_argument Ap As.

(** The order of a feasible specification, on reals. *)
Definition real_order (wp ws Ap As : R) : Z :=
  Zceil (arccosh (acosh_argument Ap As) / arccosh (ws / wp)).

(** The pole object has no property [im]. *)
Definition lacks_im (p : ChebyshevSolver.object) : Prop :=
  ChebyshevSolver.get p "im" = VUndefined.

(** The pole object [{ sigma, omega }] with finite coordinates. *)
Definition pole (sigma omega : R) : ChebyshevSolver.object :=
  [("sigma"%string, Fin sigma); ("omega"%string, Fin omega)].

(** A parameter in a consistent state: finite value, bounds and phase,
    with [min <= value <= max]. *)
Definition bounded_parameter (p : AnimatedParameter.t) : Prop :=
  exists v lo hi ph,
    AnimatedParameter.value p = Fin v /\
    AnimatedParameter.min p = Fin lo /\
    AnimatedParameter.max p = Fin hi /\
    AnimatedParameter.phase p = Fin ph /\
    lo <= v <= hi.

(** [k; k + 1; ...], [count] integers. *)
Fixpoint Zrange (k : Z) (count : nat) : list Z :=
  match count with
  | O => []
  | S c => k :: Zrange (k + 1)%Z c
  end.

(** The Chebyshev poles on reals: for the order [m] and [k] in [1..m], the
    angle [theta_k], the parameter [gamma], and the coordinates
    [sigma_k], [omega_k]. *)
Definition pole_angle (m k : Z) : R := PI * (2 * IZR k - 1) / (2 * IZR m).

Definition pole_gamma (e : R) (m : Z) : R := arcsinh (1 / e) / IZR m.

Definition pole_sigma (wp g : R) (m k : Z) : R :=
  - wp * sinh g * sin (pole_angle m k).

Definition pole_omega (wp g : R) (m k : Z) : R :=
  wp * cosh g * cos (pole_angle m k).

(** The stages the earlier version builds from a pole. *)
Definition legacy_biquad (id : Z) (sigma omega : R) : FilterStage.t :=
  fst (Legacy.newSecondOrderLowPass id
         (Fin (sqrt (sigma * sigma + omega * omega)))
         (Fin (sqrt (sigma * sigma + omega * omega) / (-2 * sigma)))).

Definition legacy_single_pole (id : Z) (sigma : R) : FilterStage.t :=
  fst (Legacy.newFirstOrderLowPass id (Fin (- sigma))).

(** The stage list the earlier version returns for the order [m]: one
    second-order stage per pole [1..m/2], then a first-order stage for the
    middle pole when [m] is odd, with consecutive identities. *)
Definition legacy_stages (nextId : Z) (wp g : R) (m : Z)
  : list FilterStage.t :=
  map (fun i => legacy_biquad (nextId + i)
                  (pole_sigma wp g m (i + 1)) (pole_omega wp g m (i + 1)))
      (Zrange 0 (Z.to_nat (m / 2)))
  ++ (if Z.odd m
      then [legacy_single_pole (nextId + m / 2)
              (pole_sigma wp g m (m / 2 + 1))]
      else []).

(** The frequency of the sample [j] of [numPoints + 1] samples on the
    logarithmic grid from [fmin] to [fmax]. *)
Definition grid_frequency (fmin fmax : R) (numPoints j : Z) : R :=
  Rpower 10 (log10 fmin + IZR j / IZR numPoints * (log10 fmax - log10 fmin)).

(* ================================================================== *)
(** * Facts about numbers                                              *)
(* ================================================================== *)

Lemma Rltb_true (a b : R) : a < b -> Rltb a b = true.
Proof. intros H; unfold Rltb; destruct (Rlt_dec a b); [reflexivity | lra]. Qed.

Lemma Rltb_false (a b : R) : b <= a -> Rltb a b = false.
Proof. intros H; unfold Rltb; destruct (Rlt_dec a b); [lra | reflexivity]. Qed.

Lemma Reqb_true (a b : R) : a = b -> Reqb a b = true.
Proof.
  intros H; unfold Reqb; destruct (Req_dec_T a b); [reflexivity | contradiction].
Qed.

Lemma Reqb_false (a b : R) : a <> b -> Reqb a b = false.
Proof.
  intros H; unfold Reqb; destruct (Req_dec_T a b); [contradiction | reflexivity].
Qed.

(** Decides the comparisons of reals left in the goal, closing the branches
    that contradict the context. *)
Ltac decide_reals :=
  unfold Rltb, Reqb;
  repeat match goal with
    | |- context [Rlt_dec ?a ?b] => destruct (Rlt_dec a b); try lra
    | |- context [Req_dec_T ?a ?b] => destruct (Req_dec_T a b); try lra
    end.

Lemma div_finite (a b : R) : b <> 0 -> (Fin a / Fin b)%js = Fin (a / b).
Proof. intros H; simpl; rewrite Reqb_false by assumption; reflexivity. Qed.

Lemma sqrt_finite (a : R) : 0 <= a -> Math_sqrt (Fin a) = Fin (sqrt a).
Proof. intros H; simpl; rewrite Rltb_false by assumption; reflexivity. Qed.

Lemma acosh_finite (a : R) : 1 <= a -> Math_acosh (Fin a) = Fin (arccosh a).
Proof. intros H; simpl; rewrite Rltb_false by assumption; reflexivity. Qed.

Lemma max_zero_finite (a : R) : Math_max (Fin 0) (Fin a) = Fin (Rmax 0 a).
Proof.
  simpl. unfold Rmax. destruct (Rle_dec 0 a); decide_reals;
    try reflexivity; f_equal; lra.
Qed.

Lemma Fin_inj (a b : R) : Fin a = Fin b -> a = b.
Proof. intros H; injection H; trivial. Qed.

(* ================================================================== *)
(** * AnimatedParameter: bounds and oscillation                        *)
(* ================================================================== *)

Section ParameterFacts.

Import AnimatedParameter.

(** Whatever the arguments, [setRange] stores [Math.max(0, min)] and [max]
    as the new bounds and keeps the animation state. *)
Lemma setRange_bounds (mn mx : num) (p : t) :
  min (setRange mn mx p) = Math_max (Fin 0) mn /\
  max (setRange mn mx p) = mx /\
  isAnimating (setRange mn mx p) = isAnimating p /\
  phase (setRange mn mx p) = phase p.
Proof.
  unfold setRange. cbn [value min max].
  destruct ((value p <? Math_max (Fin 0) mn)%js);
    cbn [value min max set_value];
    match goal with |- context [if ?c then _ else _] => destruct c end;
    cbn [min max set_value isAnimating phase]; repeat split; reflexivity.
Qed.

(** C6, as the specification words it, fails on the code: [setRange]
    called with a negative lower bound (here -1, 20) raises no error and
    replaces the bounds [1, 10] by [0, 20]; called with max < min (here
    8, 2) it stores the bounds 8 and 2. *)
Lemma setRange_updates_on_invalid_range :
  let p := sample_parameter false in
  (-1 < 0 /\
   min (setRange (Fin (-1)) (Fin 20) p) = Fin 0 /\
   max (setRange (Fin (-1)) (Fin 20) p) = Fin 20 /\
   min (setRange (Fin (-1)) (Fin 20) p) <> min p /\
   max (setRange (Fin (-1)) (Fin 20) p) <> max p) /\
  (2 < 8 /\
   min (setRange (Fin 8) (Fin 2) p) = Fin 8 /\
   max (setRange (Fin 8) (Fin 2) p) = Fin 2 /\
   min (setRange (Fin 8) (Fin 2) p) <> min p /\
   max (setRange (Fin 8) (Fin 2) p) <> max p).
Proof.
  intros p.
  destruct (setRange_bounds (Fin (-1)) (Fin 20) p) as (a1 & b1 & _).
  destruct (setRange_bounds (Fin 8) (Fin 2) p) as (a2 & b2 & _).
  rewrite a1, b1, a2, b2, !max_zero_finite.
  replace (Rmax 0 (-1)) with 0 by (unfold Rmax; destruct (Rle_dec 0 (-1)); lra).
  replace (Rmax 0 8) with 8 by (unfold Rmax; destruct (Rle_dec 0 8); lra).
  cbn [p sample_parameter min max].
  repeat split; try lra; intros H; apply Fin_inj in H; lra.
Qed.

(** C6, amended.  [setRange] never fails: for finite arguments it stores
    [max(0, min)] and [max] as the bounds, whatever their order or sign.
    When [0 <= min <= max] the bounds become exactly [min] and [max] and
    the value is clamped into them: a value below [min] becomes [min], a
    value above [max] becomes [max], a value between them is kept. *)
Theorem setRange_sets_bounds_and_clamps (p : t) (v mn mx : R) :
  value p = Fin v ->
  min (setRange (Fin mn) (Fin mx) p) = Fin (Rmax 0 mn) /\
  max (setRange (Fin mn) (Fin mx) p) = Fin mx /\
  (0 <= mn <= mx ->
   min (setRange (Fin mn) (Fin mx) p) = Fin mn /\
   (v < mn -> value (setRange (Fin mn) (Fin mx) p) = Fin mn) /\
   (mx < v -> value (setRange (Fin mn) (Fin mx) p) = Fin mx) /\
   (mn <= v <= mx -> value (setRange (Fin mn) (Fin mx) p) = Fin v) /\
   exists v', value (setRange (Fin mn) (Fin mx) p) = Fin v' /\
              mn <= v' <= mx /\
              (mn <= v <= mx -> v' = v)).
Proof.
  intros Hv.
  destruct (setRange_bounds (Fin mn) (Fin mx) p) as (Hmin & Hmax & _).
  rewrite Hmin, Hmax, max_zero_finite.
  split; [reflexivity | split; [reflexivity |]].
  intros [H0 Hle].
  assert (Em : Rmax 0 mn = mn) by (apply Rmax_right; assumption).
  rewrite Em. split; [reflexivity |].
  unfold setRange. cbn [value min max]. rewrite max_zero_finite, Em, Hv.
  cbn [lt gt].
  destruct (Rlt_dec v mn) as [Hlo | Hlo].
  - rewrite (Rltb_true v mn Hlo). cbn [set_value value max min gt lt].
    rewrite Rltb_false by lra. cbn [value].
    split; [intros _; reflexivity |].
    split; [intros H; exfalso; lra |].
    split; [intros H; exfalso; lra |].
    exists mn. repeat split; try lra.
  - rewrite (Rltb_false v mn) by lra. cbn [value max gt lt].
    destruct (Rlt_dec mx v) as [Hhi | Hhi].
    + rewrite (Rltb_true mx v Hhi). cbn [set_value value max].
      split; [intros H; exfalso; lra |].
      split; [intros _; reflexivity |].
      split; [intros H; exfalso; lra |].
      exists mx. repeat split; try lra.
    + rewrite (Rltb_false mx v) by lra.
      split; [intros H; exfalso; lra |].
      split; [intros H; exfalso; lra |].
      split; [intros _; cbn [value]; first [reflexivity | assumption] |].
      exists v. repeat split; try lra; auto.
Qed.

Lemma setRange_sets_bounds_and_clamps_witness :
  min (setRange (Fin 2) (Fin 4) (sample_parameter false)) = Fin 2 /\
  value (setRange (Fin 2) (Fin 4) (sample_parameter false)) = Fin 4 /\
  exists v', value (setRange (Fin 2) (Fin 4) (sample_parameter false)) = Fin v'
             /\ 2 <= v' <= 4 /\ (2 <= 5 <= 4 -> v' = 5).
Proof.
  destruct (setRange_sets_bounds_and_clamps (sample_parameter false) 5 2 4)
    as (_ & _ & H).
  - reflexivity.
  - destruct H as (Hmin & _ & Hhi & _ & Hex).
    + lra.
    + split; [exact Hmin |]. split; [apply Hhi; lra | exact Hex].
Defined.

(** The phase after [update] on an animating parameter: the increment is
    added and 2*PI is subtracted once when the sum exceeds 2*PI. *)
Lemma update_phase_finite (p : t) (ph dt sp : R) :
  isAnimating p = true -> phase p = Fin ph ->
  phase (update (Fin dt) (Fin sp) p) =
    Fin (if Rlt_dec (2 * PI) (ph + dt * sp * 2 * PI)
         then ph + dt * sp * 2 * PI - 2 * PI
         else ph + dt * sp * 2 * PI).
Proof.
  intros Ha Hp. unfold update. rewrite Ha, Hp. cbn [negb phase].
  unfold Math_PI. cbn [mul add gt lt]. unfold Rltb.
  destruct (Rlt_dec (2 * PI) (ph + dt * sp * 2 * PI)); reflexivity.
Qed.

(** The value after [update] on an animating parameter with finite bounds is
    [min + ((sin(phase) + 1) / 2) * (max - min)] at the phase stored. *)
Lemma update_value_finite (p : t) (ph dt sp lo hi : R) :
  isAnimating p = true -> phase p = Fin ph -> min p = Fin lo ->
  max p = Fin hi ->
  exists ph', phase (update (Fin dt) (Fin sp) p) = Fin ph' /\
    value (update (Fin dt) (Fin sp) p)
      = Fin (lo + (sin ph' + 1) / 2 * (hi - lo)) /\
    min (update (Fin dt) (Fin sp) p) = Fin lo /\
    max (update (Fin dt) (Fin sp) p) = Fin hi.
Proof.
  intros Ha Hp Hlo Hhi.
  pose proof (update_phase_finite p ph dt sp Ha Hp) as E.
  revert E. unfold update. rewrite Ha, Hp, Hlo, Hhi. cbn [negb phase].
  unfold Math_PI. cbn [mul add gt lt]. unfold Rltb.
  destruct (Rlt_dec (2 * PI) (ph + dt * sp * 2 * PI)); intros E;
    eexists; (split; [reflexivity |]);
    cbn [value min max Math_sin add sub neg mul];
    rewrite div_finite by lra; cbn [add mul];
    repeat split; f_equal; lra.
Qed.

(** When the step is shorter than one period ([deltaTime * speed < 1]) the
    phase stays within [0, 2*PI]. *)
Lemma update_phase_short_step (p : t) (ph dt sp : R) :
  isAnimating p = true -> phase p = Fin ph ->
  0 <= ph < 2 * PI -> 0 <= dt * sp < 1 ->
  exists ph', phase (update (Fin dt) (Fin sp) p) = Fin ph' /\
              0 <= ph' <= 2 * PI.
Proof.
  intros Ha Hp Hph Hstep.
  rewrite (update_phase_finite p ph dt sp Ha Hp).
  pose proof PI_RGT_0 as Hpi.
  assert (0 <= dt * sp * 2 * PI < 2 * PI) by nra.
  destruct (Rlt_dec (2 * PI) (ph + dt * sp * 2 * PI));
    eexists; (split; [reflexivity | lra]).
Qed.

(** C8 on the code.  An animating parameter at phase 0 is advanced by
    [deltaTime = 3] at speed 1: the phase becomes 6*PI, one subtraction of
    2*PI leaves 4*PI, which is outside [0, 2*PI). *)
Theorem update_long_step_leaves_phase_range :
  exists ph',
    phase (update (Fin 3) (Fin 1) (sample_parameter true)) = Fin ph' /\
    ph' = 4 * PI /\ ~ (0 <= ph' < 2 * PI).
Proof.
  pose proof PI_RGT_0 as Hpi.
  rewrite (update_phase_finite (sample_parameter true) 0 3 1)
    by reflexivity.
  destruct (Rlt_dec (2 * PI) (0 + 3 * 1 * 2 * PI)) as [H | H]; [| lra].
  eexists. split; [reflexivity |]. split; lra.
Qed.

End ParameterFacts.

(* ================================================================== *)
(** * FilterCascade: stage list                                        *)
(* ================================================================== *)

Section CascadeStages.

Import FilterCascade.

Lemma filter_Subsequence {A : Type} (f : A -> bool) (l : list A) :
  Subsequence (filter f l) l.
Proof.
  induction l as [| a l IH]; simpl.
  - constructor.
  - destruct (f a); constructor; assumption.
Qed.

Lemma removeStage_length (i : Z) (l : list FilterStage.t) :
  (List.length (filter (fun s => negb (FilterStage.id s =? i)%Z) l)
   + count_id i l)%nat = List.length l.
Proof.
  induction l as [| s l IH]; simpl; [reflexivity |].
  destruct (FilterStage.id s =? i)%Z; simpl; lia.
Qed.

(** C10.  [removeStage(id)] leaves no stage with the identity [id], however
    many carried it; the stages left are the other stages, each kept, in
    their former order (the new list is a subsequence of the old one that
    lost exactly the stages with that identity); [globalGainDb] and
    [animationSpeed] are unchanged. *)
Theorem removeStage_removes_all_keeps_order (i : Z) (c : t) :
  (forall s, In s (stages (removeStage i c)) -> FilterStage.id s <> i) /\
  (forall s, In s (stages c) -> FilterStage.id s <> i ->
             In s (stages (removeStage i c))) /\
  Subsequence (stages (removeStage i c)) (stages c) /\
  (List.length (stages (removeStage i c)) + count_id i (stages c))%nat
    = List.length (stages c) /\
  (forall l1 l2, stages c = l1 ++ l2 ->
     stages (removeStage i c)
       = stages (removeStage i (mk l1 (animationSpeed c) (globalGainDb c)))
         ++ stages (removeStage i (mk l2 (animationSpeed c) (globalGainDb c))))
  /\
  globalGainDb (removeStage i c) = globalGainDb c /\
  animationSpeed (removeStage i c) = animationSpeed c.
Proof.
  unfold removeStage; cbn [stages globalGainDb animationSpeed].
  repeat split.
  - intros s Hs. apply filter_In in Hs. destruct Hs as [_ Hs].
    apply negb_true_iff, Z.eqb_neq in Hs. assumption.
  - intros s Hs Hne. apply filter_In. split; [assumption |].
    apply negb_true_iff, Z.eqb_neq. assumption.
  - apply filter_Subsequence.
  - apply removeStage_length.
  - intros l1 l2 E. rewrite E. apply filter_app.
Qed.

End CascadeStages.

(* ================================================================== *)
(** * FilterCascade: response without an active stage                  *)
(* ================================================================== *)

Section CascadeResponse.

Import FilterCascade.

Lemma fold_inactive_stages (omega : num) (l : list FilterStage.t)
  (acc : Complex) :
  (forall s, In s l -> FilterStage.active s = false) ->
  fold_left (multiply_stage omega) l acc = acc.
Proof.
  revert acc. induction l as [| s l IH]; intros acc H; simpl.
  - reflexivity.
  - unfold multiply_stage at 2. rewrite (H s) by (left; reflexivity).
    simpl. apply IH. intros s' Hs'. apply H. right. assumption.
Qed.

Lemma pow10_zero_gain : Math_pow10 (Fin 0 / Fin 20)%js = Fin 1.
Proof.
  rewrite div_finite by lra. simpl. f_equal.
  replace (0 / 20) with 0 by lra. apply Rpower_O. lra.
Qed.

(** C9.  A cascade none of whose stages is active (in particular one with
    no stage) and whose gain is the finite [g] answers
    [(10^(g/20), 0)] at every [omega]; a new cascade and a cleared cascade
    answer exactly [(1, 0)]. *)
Theorem getResponse_without_active_stage (c : t) (g : R) (omega : num) :
  (forall s, In s (stages c) -> FilterStage.active s = false) ->
  globalGainDb c = Fin g ->
  getResponse c omega = mkComplex (Fin (Rpower 10 (g / 20))) (Fin 0) /\
  getResponse new omega = mkComplex (Fin 1) (Fin 0) /\
  (forall c', getResponse (clearStages c') omega = mkComplex (Fin 1) (Fin 0)).
Proof.
  intros Hin Hg. split; [| split].
  - unfold getResponse. rewrite fold_inactive_stages by assumption.
    rewrite Hg, div_finite by lra. cbn [Math_pow10 re im mul].
    f_equal; f_equal; lra.
  - unfold getResponse, new. cbn [stages globalGainDb fold_left].
    rewrite pow10_zero_gain. cbn [re im mul]. f_equal; f_equal; lra.
  - intros c'. unfold getResponse, clearStages.
    cbn [stages globalGainDb fold_left].
    rewrite pow10_zero_gain. cbn [re im mul]. f_equal; f_equal; lra.
Qed.

Lemma getResponse_without_active_stage_witness :
  getResponse (mk [FilterStage.mk 1 false (FilterStage.body (single_pole 1))]
                  (Fin 1) (Fin (-6)))
              (Fin 2)
    = mkComplex (Fin (Rpower 10 (-6 / 20))) (Fin 0).
Proof.
  apply (getResponse_without_active_stage
           (mk [FilterStage.mk 1 false (FilterStage.body (single_pole 1))]
               (Fin 1) (Fin (-6)))
           (-6) (Fin 2)).
  - intros s [Hs | []]. subst s. reflexivity.
  - reflexivity.
Defined.

End CascadeResponse.

(* ================================================================== *)
(** * SecondOrderLowPass: poles                                        *)
(* ================================================================== *)

Section BiquadPoles.

Import FilterStage.

(** For [f > 0] and [q > 0] the discriminant is below [alpha^2], so its
    root is below [alpha]. *)
Lemma sqrt_discriminant_below_alpha (f q : R) :
  0 < f -> 0 < q -> 0 <= f * f / (4 * q * q) - f * f ->
  sqrt (f * f / (4 * q * q) - f * f) < f / (2 * q).
Proof.
  intros Hf Hq Hd.
  assert (Ha : 0 < f / (2 * q)) by (apply Rdiv_lt_0_compat; lra).
  assert (E : f * f / (4 * q * q) = f / (2 * q) * (f / (2 * q)))
    by (field; lra).
  rewrite <- (sqrt_square (f / (2 * q))) by lra.
  apply sqrt_lt_1_alt. rewrite E in *. nra.
Qed.

(** The sign of the discriminant is decided by [Q] against 1/2. *)
Lemma discriminant_sign (f q : R) :
  0 < f -> 0 < q ->
  (1 / 2 < q -> f * f / (4 * q * q) - f * f < 0) /\
  (q = 1 / 2 -> f * f / (4 * q * q) - f * f = 0) /\
  (q < 1 / 2 -> 0 < f * f / (4 * q * q) - f * f).
Proof.
  intros Hf Hq.
  assert (E : f * f / (4 * q * q) - f * f
              = f * f * (1 - 4 * q * q) / (4 * q * q)) by (field; lra).
  assert (Hden : 0 < / (4 * q * q)) by (apply Rinv_0_lt_compat; nra).
  assert (Hff : 0 < f * f) by nra.
  rewrite E. unfold Rdiv. repeat split; intros H.
  - assert (1 - 4 * q * q < 0) by nra.
    assert (0 < f * f * (4 * q * q - 1) * / (4 * q * q)).
    { apply Rmult_lt_0_compat; [apply Rmult_lt_0_compat |]; lra. }
    nra.
  - subst q. replace (1 - 4 * (1 / 2) * (1 / 2)) with 0 by lra. lra.
  - assert (0 < 1 - 4 * q * q) by nra.
    apply Rmult_lt_0_compat; [apply Rmult_lt_0_compat |]; lra.
Qed.

(** C4 fails at [Q = 0.5]: with [f0 = 1] the discriminant is 0, not
    negative, and [getPoles] takes the branch of real poles; it returns the
    real pole -1 twice, not a pair of conjugate complex poles. *)
Lemma getPoles_critically_damped_is_real :
  0.5 >= 0.5 /\
  ~ (1 * 1 / (4 * 0.5 * 0.5) - 1 * 1 < 0) /\
  exists r1 r2,
    getPoles (biquad 1 0.5)
      = [mkComplex (Fin r1) (Fin 0); mkComplex (Fin r2) (Fin 0)] /\
    r1 = -1 /\ r2 = -1.
Proof.
  assert (E : 1 * 1 / (4 * 0.5 * 0.5) - 1 * 1 = 0) by lra.
  split; [lra | split; [lra |]].
  unfold getPoles, biquad. cbn [fst newSecondOrderLowPass body].
  cbn [AnimatedParameter.new AnimatedParameter.autoRange
       AnimatedParameter.value].
  cbn [mul]. rewrite !div_finite by lra. cbn [sub neg add mul].
  replace (1 * 1 / (4 * 0.5 * 0.5) + - (1 * 1)) with 0 by lra.
  cbn [ge le lt negb]. rewrite (Rltb_false 0 0) by lra. cbn [negb].
  rewrite sqrt_finite by lra. rewrite sqrt_0. cbn [neg add sub].
  do 2 eexists. split; [reflexivity |]. split; lra.
Qed.

(** C4, amended.  For [f0 > 0] and [Q > 0] the two poles have a negative
    real part.  For [Q > 0.5] the discriminant is negative and the poles
    are conjugate, with imaginary parts [b] and [-b], [b > 0]; at
    [Q = 0.5] the discriminant is 0 and both poles are the real [-f0]; for
    [Q < 0.5] the poles are real and distinct. *)
Theorem getPoles_second_order (s : FilterStage.t)
  (p pq : AnimatedParameter.t) (f q : R) :
  body s = SecondOrderLowPass p pq ->
  AnimatedParameter.value p = Fin f -> AnimatedParameter.value pq = Fin q ->
  0 < f -> 0 < q ->
  exists r1 i1 r2 i2,
    getPoles s = [mkComplex (Fin r1) (Fin i1); mkComplex (Fin r2) (Fin i2)] /\
    r1 < 0 /\ r2 < 0 /\
    (1 / 2 < q ->
       f * f / (4 * q * q) - f * f < 0 /\
       r1 = r2 /\ 0 < i1 /\ i2 = - i1) /\
    (q = 1 / 2 -> i1 = 0 /\ i2 = 0 /\ r1 = - f /\ r2 = - f) /\
    (q < 1 / 2 -> i1 = 0 /\ i2 = 0 /\ r2 < r1).
Proof.
  intros Hb Hp Hpq Hf Hq.
  destruct (discriminant_sign f q Hf Hq) as (Hneg & Hzero & Hpos).
  assert (Ha : 0 < f / (2 * q)) by (apply Rdiv_lt_0_compat; lra).
  assert (Hqq : 4 * q * q <> 0) by nra.
  unfold getPoles. rewrite Hb, Hp, Hpq. cbn [mul].
  rewrite !div_finite by lra. cbn [sub neg add mul].
  change (f * f / (4 * q * q) + - (f * f))
    with (f * f / (4 * q * q) - f * f).
  set (d := f * f / (4 * q * q) - f * f) in *.
  cbn [ge le lt negb].
  destruct (Rlt_dec d 0) as [Hd | Hd].
  - (* complex pair *)
    rewrite (Rltb_true d 0 Hd). cbn [negb neg].
    rewrite sqrt_finite by lra. cbn [neg].
    assert (Hs : 0 < sqrt (- d)) by (apply sqrt_lt_R0; lra).
    do 4 eexists. split; [reflexivity |].
    repeat split; try lra.
  - (* real poles *)
    rewrite (Rltb_false d 0) by lra. cbn [negb].
    rewrite sqrt_finite by lra. cbn [neg add sub].
    assert (Hs : sqrt d < f / (2 * q))
      by (apply sqrt_discriminant_below_alpha; unfold d in *; lra).
    pose proof (sqrt_pos d) as Hs0.
    do 4 eexists. split; [reflexivity |].
    split; [lra | split; [lra |]]. split; [| split].
    + intros H. pose proof (Hneg H). lra.
    + intros H. rewrite (Hzero H), sqrt_0. subst q. repeat split; lra.
    + intros H.
      assert (0 < sqrt d) by (apply sqrt_lt_R0; apply Hpos; assumption).
      repeat split; lra.
Qed.

Lemma getPoles_second_order_witness :
  exists r1 i1 r2 i2,
    getPoles (biquad 1 2)
      = [mkComplex (Fin r1) (Fin i1); mkComplex (Fin r2) (Fin i2)] /\
    r1 < 0 /\ r2 < 0 /\
    (1 / 2 < 2 ->
       1 * 1 / (4 * 2 * 2) - 1 * 1 < 0 /\
       r1 = r2 /\ 0 < i1 /\ i2 = - i1) /\
    (2 = 1 / 2 -> i1 = 0 /\ i2 = 0 /\ r1 = - 1 /\ r2 = - 1) /\
    (2 < 1 / 2 -> i1 = 0 /\ i2 = 0 /\ r2 < r1).
Proof.
  apply (getPoles_second_order (biquad 1 2)
           (AnimatedParameter.new None (Fin 1))
           (AnimatedParameter.new None (Fin 2)) 1 2);
    try reflexivity; lra.
Defined.

End BiquadPoles.

(* ================================================================== *)
(** * Magnitude and decibels                                           *)
(* ================================================================== *)

Section Magnitude.

Lemma ln_floor_threshold : ln 1e-10 = - (10 * ln 10).
Proof.
  replace 1e-10 with (/ (10 ^ 10)) by lra.
  rewrite ln_Rinv by lra.
  rewrite ln_pow by lra. simpl INR. f_equal. f_equal. lra.
Qed.

Lemma ln_10_pos : 0 < ln 10.
Proof. rewrite <- ln_1. apply ln_increasing; lra. Qed.

(** The decibel value the code derives from a finite magnitude [m >= 0]. *)
Lemma decibels_of_magnitude (m : R) :
  0 <= m ->
  floored_decibels (Fin m)
    (if (Fin m >? Fin 1e-10)%js then (Fin 20 * Math_log10 (Fin m))%js
     else Fin (-200)).
Proof.
  intros Hm. unfold floored_decibels. cbn [gt lt].
  destruct (Rlt_dec 1e-10 m) as [Hgt | Hle].
  - rewrite (Rltb_true _ _ Hgt).
    assert (Hpos : 0 < m) by lra.
    cbn [Math_log10]. rewrite Rltb_false, Reqb_false by lra. cbn [mul].
    exists m, (20 * log10 m). repeat split; try lra.
    pose proof (ln_increasing 1e-10 m ltac:(lra) Hgt) as Hln.
    rewrite ln_floor_threshold in Hln.
    pose proof ln_10_pos as H10.
    assert (-10 < log10 m).
    { unfold log10. apply (Rmult_lt_reg_r (ln 10)); [assumption |].
      unfold Rdiv. rewrite Rmult_assoc, Rinv_l by lra. lra. }
    lra.
  - rewrite (Rltb_false 1e-10 m) by lra.
    exists m, (-200). repeat split; lra.
Qed.

Lemma magnitude_finite (a b : R) :
  Math_sqrt (Fin a * Fin a + Fin b * Fin b)%js = Fin (sqrt (a * a + b * b))
  /\ 0 <= sqrt (a * a + b * b).
Proof.
  cbn [mul add]. rewrite sqrt_finite by nra. split; [reflexivity |].
  apply sqrt_pos.
Qed.

(** A stage that satisfies its invariant has a finite response at every
    finite frequency. *)
Lemma stage_response_finite (s : FilterStage.t) (w : R) :
  valid_stage s ->
  exists a b, FilterStage.getResponse s (Fin w) = mkComplex (Fin a) (Fin b).
Proof.
  unfold valid_stage, FilterStage.getResponse.
  destruct (FilterStage.body s) as [p | p q].
  - intros (f & Hv & Hf). rewrite Hv. cbn [mul add neg].
    rewrite !div_finite by nra. do 2 eexists. reflexivity.
  - intros (f & q' & Hv & Hf & Hq & Hq'). rewrite Hv, Hq.
    rewrite div_finite by lra. cbn [mul add sub neg].
    assert (Hden : (f * f + - (w * w)) * (f * f + - (w * w))
                   + f / q' * w * (f / q' * w) <> 0).
    { assert (Hfq : 0 < f / q') by (apply Rdiv_lt_0_compat; assumption).
      intros E.
      assert (E1 : f * f + - (w * w) = 0) by nra.
      assert (E2 : f / q' * w = 0) by nra.
      assert (w = 0) by nra. subst w. nra. }
    rewrite !div_finite by assumption. do 2 eexists. reflexivity.
Qed.

Lemma cascade_product_finite (w : R) (l : list FilterStage.t) (a b : R) :
  (forall s, In s l -> FilterStage.active s = true -> valid_stage s) ->
  exists a' b',
    fold_left (FilterCascade.multiply_stage (Fin w)) l
              (mkComplex (Fin a) (Fin b))
      = mkComplex (Fin a') (Fin b').
Proof.
  revert a b. induction l as [| s l IH]; intros a b H; simpl.
  - do 2 eexists. reflexivity.
  - unfold FilterCascade.multiply_stage at 2.
    destruct (FilterStage.active s) eqn:Hact; cbn [negb].
    + destruct (stage_response_finite s w) as (x & y & E).
      { apply H; [left; reflexivity | assumption]. }
      rewrite E. cbn [re im mul add sub neg].
      apply IH. intros s' Hs'. apply H. right. assumption.
    + apply IH. intros s' Hs'. apply H. right. assumption.
Qed.

(** The decibel value the code derives from a magnitude that is a square
    root, whatever the number under the root. *)
Lemma decibel_rule_of_sqrt (x : num) :
  decibel_rule (Math_sqrt x)
    (if (Math_sqrt x >? Fin 1e-10)%js
     then (Fin 20 * Math_log10 (Math_sqrt x))%js
     else Fin (-200)).
Proof.
  assert (Hfloor : (Fin (-200) >=? Fin (-200))%js = true).
  { cbn [ge le lt]. rewrite Rltb_false by lra. reflexivity. }
  assert (Hnan : decibel_rule NaN (Fin (-200))).
  { unfold decibel_rule. cbn [gt lt].
    repeat split; try assumption; try reflexivity; [left; reflexivity |].
    cbn [le]. discriminate. }
  destruct x as [| | | a]; cbn [Math_sqrt]; cbn [gt lt]; try exact Hnan.
  - (* +Infinity *)
    unfold decibel_rule. cbn [Math_log10 mul inf_times].
    rewrite (Rltb_true 0 20) by lra. cbn [inf ge le gt lt negb].
    repeat split; try reflexivity; try discriminate.
    right. reflexivity.
  - destruct (Rlt_dec a 0) as [Hneg | Hpos].
    + rewrite (Rltb_true a 0 Hneg). cbn [gt lt]. exact Hnan.
    + rewrite (Rltb_false a 0) by lra. cbn [gt lt].
      pose proof (sqrt_pos a) as Hm.
      destruct (decibels_of_magnitude (sqrt a) Hm)
        as (m & d & Em & Ed & _ & Hd & _ & _).
      revert Ed. cbn [gt lt].
      unfold decibel_rule. cbn [ge le gt lt].
      destruct (Rlt_dec 1e-10 (sqrt a)) as [Hgt | Hle].
      * rewrite (Rltb_true _ _ Hgt). intros Ed. rewrite Ed.
        cbn [ge le lt negb].
        rewrite (Rltb_false (sqrt a) 0), (Rltb_false d (-200)) by lra.
        repeat split; try reflexivity; try discriminate.
        right. reflexivity.
      * rewrite (Rltb_false 1e-10 (sqrt a)) by lra. intros _.
        cbn [lt negb].
        rewrite (Rltb_false (sqrt a) 0), (Rltb_false (-200) (-200)) by lra.
        repeat split; try reflexivity; try discriminate.
        right. reflexivity.
Qed.

(** C5, as the specification words it, fails on the code.  The stage
    [new SecondOrderLowPass(1, 0)] at [omega = 1] has the magnitude NaN:
    [magnitude >= 0] is false, the magnitude is not [<= 1e-10], and the
    decibel value is -200 while [20 * log10(magnitude)] is NaN.  A cascade
    that holds this stage has the magnitude NaN as well. *)
Lemma getMagnitude_of_zero_Q_is_NaN :
  let s := biquad 1 0 in
  let c := FilterCascade.mk [s] (Fin 1) (Fin 0) in
  (Fin 1 >=? Fin 0)%js = true /\
  FilterStage.getMagnitude s (Fin 1) = NaN /\
  (FilterStage.getMagnitude s (Fin 1) >=? Fin 0)%js = false /\
  (FilterStage.getMagnitude s (Fin 1) <=? Fin 1e-10)%js = false /\
  FilterStage.getMagnitudeDb s (Fin 1) = Fin (-200) /\
  (Fin 20 * Math_log10 (FilterStage.getMagnitude s (Fin 1)))%js = NaN /\
  ~ floored_decibels (FilterStage.getMagnitude s (Fin 1))
                     (FilterStage.getMagnitudeDb s (Fin 1)) /\
  FilterCascade.getMagnitude c (Fin 1) = NaN /\
  (FilterCascade.getMagnitude c (Fin 1) >=? Fin 0)%js = false /\
  FilterCascade.getMagnitudeDb c (Fin 1) = Fin (-200).
Proof.
  intros s c.
  assert (Er : FilterStage.getResponse s (Fin 1) = mkComplex (Fin 0) NaN).
  { unfold s, FilterStage.getResponse, biquad.
    cbn [fst FilterStage.newSecondOrderLowPass FilterStage.body
         AnimatedParameter.new AnimatedParameter.autoRange
         AnimatedParameter.value].
    assert (Ed : (Fin 1 / Fin 0)%js = PInf).
    { cbn [div]. rewrite Reqb_true, Rltb_true by lra. reflexivity. }
    rewrite Ed. cbn [mul inf_times]. rewrite (Rltb_true 0 1) by lra.
    cbn [inf mul inf_times sub neg add div].
    rewrite (Rltb_true 0 (1 * 1)) by lra.
    cbn [re im inf mul inf_times sub neg add div]. reflexivity. }
  assert (E : FilterStage.getMagnitude s (Fin 1) = NaN).
  { unfold FilterStage.getMagnitude. rewrite Er. reflexivity. }
  assert (Ec : FilterCascade.getMagnitude c (Fin 1) = NaN).
  { unfold FilterCascade.getMagnitude, FilterCascade.getResponse, c.
    cbn [FilterCascade.stages fold_left FilterCascade.globalGainDb].
    unfold FilterCascade.multiply_stage.
    replace (FilterStage.active s) with true by reflexivity.
    cbn [negb]. rewrite Er. cbn [re im mul add sub neg].
    reflexivity. }
  unfold FilterStage.getMagnitudeDb, FilterCascade.getMagnitudeDb.
  rewrite E, Ec.
  split. { cbn [ge le lt]. rewrite Rltb_false by lra. reflexivity. }
  repeat split; try reflexivity.
  intros (m & d & Hm & _). discriminate Hm.
Qed.

(** C5, amended.  For every stage, every cascade and every [omega], the
    magnitude is NaN or not negative and the decibel value is at least
    -200: it is [20 * log10(magnitude)] when the magnitude exceeds 1e-10,
    and exactly -200 when the magnitude is at most 1e-10 and when it is NaN.
    At every finite frequency, a stage with [f0 > 0] (and [Q > 0]), and a
    cascade whose active stages are such and whose gain is finite, have a
    finite magnitude [m >= 0] and a decibel value [d >= -200], with
    [d = -200] when [m <= 1e-10] and [d = 20 * log10 m] otherwise. *)
Theorem magnitudeDb_floored (s : FilterStage.t) (c : FilterCascade.t) :
  (forall omega : num,
     decibel_rule (FilterStage.getMagnitude s omega)
                  (FilterStage.getMagnitudeDb s omega) /\
     decibel_rule (FilterCascade.getMagnitude c omega)
                  (FilterCascade.getMagnitudeDb c omega)) /\
  (forall w : R,
     valid_stage s ->
     floored_decibels (FilterStage.getMagnitude s (Fin w))
                      (FilterStage.getMagnitudeDb s (Fin w))) /\
  (forall g w : R,
     (forall s', In s' (FilterCascade.stages c) ->
                 FilterStage.active s' = true -> valid_stage s') ->
     FilterCascade.globalGainDb c = Fin g ->
     floored_decibels (FilterCascade.getMagnitude c (Fin w))
                      (FilterCascade.getMagnitudeDb c (Fin w))).
Proof.
  split; [| split].
  - intros omega. split.
    + unfold FilterStage.getMagnitudeDb, FilterStage.getMagnitude.
      apply decibel_rule_of_sqrt.
    + unfold FilterCascade.getMagnitudeDb, FilterCascade.getMagnitude.
      apply decibel_rule_of_sqrt.
  - intros w Hs.
    unfold FilterStage.getMagnitudeDb, FilterStage.getMagnitude.
    destruct (stage_response_finite s w Hs) as (a & b & E).
    rewrite E. cbn [re im].
    destruct (magnitude_finite a b) as [Em Hm]. rewrite Em.
    apply decibels_of_magnitude. assumption.
  - intros g w Hc Hg.
    unfold FilterCascade.getMagnitudeDb, FilterCascade.getMagnitude,
      FilterCascade.getResponse.
    destruct (cascade_product_finite w (FilterCascade.stages c) 1 0 Hc)
      as (a & b & E).
    rewrite E, Hg, div_finite by lra. cbn [Math_pow10 re im].
    change (Fin a * Fin (Rpower 10 (g / 20)))%js
      with (Fin (a * Rpower 10 (g / 20))).
    change (Fin b * Fin (Rpower 10 (g / 20)))%js
      with (Fin (b * Rpower 10 (g / 20))).
    destruct (magnitude_finite (a * Rpower 10 (g / 20))
                               (b * Rpower 10 (g / 20))) as [Em Hm].
    rewrite Em. apply decibels_of_magnitude. assumption.
Qed.

Lemma magnitudeDb_floored_witness :
  floored_decibels (FilterStage.getMagnitude (single_pole 1) (Fin 1))
                   (FilterStage.getMagnitudeDb (single_pole 1) (Fin 1)) /\
  floored_decibels
    (FilterCascade.getMagnitude
       (FilterCascade.mk [biquad 1 2] (Fin 1) (Fin (-3))) (Fin 1))
    (FilterCascade.getMagnitudeDb
       (FilterCascade.mk [biquad 1 2] (Fin 1) (Fin (-3))) (Fin 1)).
Proof.
  destruct (magnitudeDb_floored (single_pole 1)
              (FilterCascade.mk [biquad 1 2] (Fin 1) (Fin (-3))))
    as (_ & Hstage & Hcascade).
  split.
  - apply (Hstage 1). exists 1. split; [reflexivity | lra].
  - apply (Hcascade (-3) 1).
    + intros s' [Hs' | []] _. subst s'.
      exists 1, 2. repeat split; try reflexivity; lra.
    + reflexivity.
Defined.

(** Outside the invariant the magnitude need not be a number: a
    second-order stage with [Q = 0] has the magnitude NaN, which compares
    false with everything, and the decibel value -200. *)
Lemma getMagnitude_without_invariant :
  FilterStage.getMagnitude (biquad 1 0) (Fin 1) = NaN /\
  FilterStage.getMagnitudeDb (biquad 1 0) (Fin 1) = Fin (-200).
Proof.
  assert (E : FilterStage.getMagnitude (biquad 1 0) (Fin 1) = NaN).
  { unfold FilterStage.getMagnitude, FilterStage.getResponse, biquad.
    cbn [fst FilterStage.newSecondOrderLowPass FilterStage.body
         AnimatedParameter.new AnimatedParameter.autoRange
         AnimatedParameter.value].
    assert (Ed : (Fin 1 / Fin 0)%js = PInf).
    { cbn [div]. rewrite Reqb_true, Rltb_true by lra. reflexivity. }
    rewrite Ed. cbn [mul inf_times]. rewrite (Rltb_true 0 1) by lra.
    cbn [inf mul inf_times sub neg add div].
    rewrite (Rltb_true 0 (1 * 1)) by lra.
    cbn [re im inf mul inf_times sub neg add div]. reflexivity. }
  split; [assumption |].
  unfold FilterStage.getMagnitudeDb. rewrite E. reflexivity.
Qed.

End Magnitude.

(* ================================================================== *)
(** * ChebyshevSolver: the minimum order                               *)
(* ================================================================== *)

Section MinimumOrder.

Import ChebyshevSolver.

Lemma Rpower_10_gt_1 (x : R) : 0 < x -> 1 < Rpower 10 x.
Proof.
  intros Hx. rewrite <- (Rpower_O 10) by lra. apply Rpower_lt; lra.
Qed.

Lemma Rpower_10_pos (x : R) : 0 < Rpower 10 x.
Proof. unfold Rpower. apply exp_pos. Qed.

Lemma ripple_factor_pos (Ap : R) : 0 < Ap -> 0 < ripple_factor Ap.
Proof.
  intros H. unfold ripple_factor. apply sqrt_lt_R0.
  pose proof (Rpower_10_gt_1 (Ap / 10)). lra.
Qed.

(** The code's [epsilon] for a positive ripple. *)
Lemma epsilon_finite (Ap : R) :
  0 < Ap ->
  Math_sqrt (Math_pow10 (Fin Ap / Fin 10) - Fin 1)%js = Fin (ripple_factor Ap).
Proof.
  intros H. rewrite div_finite by lra. cbn [Math_pow10 sub neg add].
  pose proof (Rpower_10_gt_1 (Ap / 10)).
  rewrite sqrt_finite by lra. reflexivity.
Qed.

Lemma sqrt_nonpos (x : R) : x <= 0 -> sqrt x = 0.
Proof.
  intros H. destruct (Req_dec x 0) as [-> | Hne].
  - apply sqrt_0.
  - apply sqrt_neg_0. lra.
Qed.

(** When the argument is at least 1, [A^2 - 1] is positive. *)
Lemma feasible_attenuation (Ap As : R) :
  0 < Ap -> 1 <= acosh_argument Ap As ->
  0 < attenuation As * attenuation As - 1.
Proof.
  intros HAp Harg. pose proof (ripple_factor_pos Ap HAp) as He.
  destruct (Rle_lt_dec (attenuation As * attenuation As - 1) 0) as [Hle | Hlt];
    [| assumption].
  unfold acosh_argument in Harg. rewrite (sqrt_nonpos _ Hle) in Harg.
  unfold Rdiv in Harg. rewrite Rmult_0_l in Harg. lra.
Qed.

(** The code's argument of [Math.acosh] in the numerator. *)
Lemma argument_finite (Ap As : R) :
  0 < Ap -> 0 <= attenuation As * attenuation As - 1 ->
  (Math_sqrt (Math_pow10 (Fin As / Fin 20) * Math_pow10 (Fin As / Fin 20)
              - Fin 1)
   / Math_sqrt (Math_pow10 (Fin Ap / Fin 10) - Fin 1))%js
  = Fin (acosh_argument Ap As).
Proof.
  intros HAp HA. rewrite (epsilon_finite Ap HAp).
  rewrite div_finite by lra. cbn [Math_pow10 mul sub neg add].
  fold (attenuation As).
  change (attenuation As * attenuation As + - (1))
    with (attenuation As * attenuation As - 1).
  rewrite sqrt_finite by assumption.
  pose proof (ripple_factor_pos Ap HAp).
  rewrite div_finite by lra. reflexivity.
Qed.

Lemma arccosh_nonneg (x : R) : 1 <= x -> 0 <= arccosh x.
Proof.
  intros H. unfold arccosh. pose proof (sqrt_pos (x * x - 1)).
  rewrite <- ln_1.
  destruct (Req_dec (x + sqrt (x * x - 1)) 1) as [-> | Hne]; [lra |].
  left. apply ln_increasing; lra.
Qed.

Lemma arccosh_pos (x : R) : 1 < x -> 0 < arccosh x.
Proof.
  intros H. unfold arccosh. pose proof (sqrt_pos (x * x - 1)).
  rewrite <- ln_1. apply ln_increasing; lra.
Qed.

Lemma arccosh_1 : arccosh 1 = 0.
Proof.
  unfold arccosh. replace (1 * 1 - 1) with 0 by lra.
  rewrite sqrt_0, Rplus_0_r. apply ln_1.
Qed.

Lemma arccosh_le (x y : R) : 1 <= x -> x <= y -> arccosh x <= arccosh y.
Proof.
  intros Hx Hxy. unfold arccosh.
  assert (Hs : sqrt (x * x - 1) <= sqrt (y * y - 1))
    by (apply sqrt_le_1_alt; nra).
  pose proof (sqrt_pos (x * x - 1)).
  destruct (Req_dec (x + sqrt (x * x - 1)) (y + sqrt (y * y - 1)))
    as [-> | Hne]; [lra |].
  left. apply ln_increasing; lra.
Qed.

Lemma arccosh_lt (x y : R) : 1 <= x -> x < y -> arccosh x < arccosh y.
Proof.
  intros Hx Hxy. unfold arccosh.
  assert (Hs : sqrt (x * x - 1) <= sqrt (y * y - 1))
    by (apply sqrt_le_1_alt; nra).
  pose proof (sqrt_pos (x * x - 1)).
  apply ln_increasing; lra.
Qed.

(** On a feasible specification [getMinOrder] returns the integer
    [ceil(acosh(sqrt(A^2-1)/epsilon) / acosh(ws/wp))]. *)
Lemma getMinOrder_feasible (wp ws Ap As : R) :
  0 < wp < ws -> 0 < Ap -> 1 <= acosh_argument Ap As ->
  getMinOrder (Fin wp) (Fin ws) (Fin Ap) (Fin As)
    = Fin (IZR (real_order wp ws Ap As))
  /\ (0 <= real_order wp ws Ap As)%Z.
Proof.
  intros Hw HAp Harg.
  pose proof (feasible_attenuation Ap As HAp Harg) as HA.
  assert (Hr : 1 < ws / wp).
  { apply (Rmult_lt_reg_r wp); [lra |].
    unfold Rdiv. rewrite Rmult_assoc, Rinv_l by lra. lra. }
  pose proof (arccosh_pos _ Hr) as Hd.
  pose proof (arccosh_nonneg _ Harg) as Hn.
  split.
  - unfold getMinOrder. rewrite argument_finite by lra.
    rewrite acosh_finite by assumption.
    rewrite (div_finite ws wp) by lra.
    rewrite acosh_finite by lra.
    rewrite div_finite by lra. reflexivity.
  - unfold real_order.
    assert (0 <= arccosh (acosh_argument Ap As) / arccosh (ws / wp)).
    { apply Rmult_le_pos; [assumption |].
      left. apply Rinv_0_lt_compat. assumption. }
    apply le_IZR.
    pose proof (Zceil_bound
                  (arccosh (acosh_argument Ap As) / arccosh (ws / wp))).
    lra.
Qed.

Lemma acosh_argument_le (Ap As1 As2 : R) :
  0 < Ap -> As1 <= As2 -> 1 <= acosh_argument Ap As1 ->
  acosh_argument Ap As1 <= acosh_argument Ap As2.
Proof.
  intros HAp Hle H1. pose proof (ripple_factor_pos Ap HAp) as He.
  pose proof (feasible_attenuation Ap As1 HAp H1) as HA1.
  assert (HA : attenuation As1 <= attenuation As2).
  { unfold attenuation. apply Rle_Rpower; lra. }
  pose proof (Rpower_10_pos (As1 / 20)) as Hp1. fold (attenuation As1) in Hp1.
  unfold acosh_argument, Rdiv.
  apply Rmult_le_compat_r; [left; apply Rinv_0_lt_compat; assumption |].
  apply sqrt_le_1_alt. nra.
Qed.

(** C7.  On feasible specifications the order returned by [getMinOrder]
    does not decrease when [As] grows ([wp], [ws], [Ap] fixed) and does not
    increase when the ratio [ws/wp] grows ([Ap], [As] fixed). *)
Theorem getMinOrder_monotone (wp ws Ap As As' wp' ws' : R) :
  feasible wp ws Ap As -> feasible wp ws Ap As' ->
  feasible wp' ws' Ap As ->
  exists n nAs nratio : Z,
    getMinOrder (Fin wp) (Fin ws) (Fin Ap) (Fin As) = Fin (IZR n) /\
    getMinOrder (Fin wp) (Fin ws) (Fin Ap) (Fin As') = Fin (IZR nAs) /\
    getMinOrder (Fin wp') (Fin ws') (Fin Ap) (Fin As) = Fin (IZR nratio) /\
    (As <= As' -> (n <= nAs)%Z) /\
    (ws / wp <= ws' / wp' -> (nratio <= n)%Z).
Proof.
  intros (Hw & HAp & _ & Harg) (_ & _ & _ & Harg') (Hw' & _ & _ & _).
  destruct (getMinOrder_feasible wp ws Ap As Hw HAp Harg) as [E _].
  destruct (getMinOrder_feasible wp ws Ap As' Hw HAp Harg') as [E' _].
  destruct (getMinOrder_feasible wp' ws' Ap As Hw' HAp Harg) as [E'' _].
  exists (real_order wp ws Ap As), (real_order wp ws Ap As'),
    (real_order wp' ws' Ap As).
  split; [assumption | split; [assumption | split; [assumption |]]].
  assert (Hr : 1 < ws / wp).
  { apply (Rmult_lt_reg_r wp); [lra |].
    unfold Rdiv. rewrite Rmult_assoc, Rinv_l by lra. lra. }
  pose proof (arccosh_pos _ Hr) as Hd.
  pose proof (arccosh_nonneg _ Harg) as Hn.
  split.
  - intros Hle. unfold real_order. apply Zceil_le.
    unfold Rdiv. apply Rmult_le_compat_r.
    + left. apply Rinv_0_lt_compat. assumption.
    + apply arccosh_le; [assumption |].
      apply acosh_argument_le; assumption.
  - intros Hle. unfold real_order. apply Zceil_le.
    unfold Rdiv. apply Rmult_le_compat_l; [assumption |].
    apply Rinv_le_contravar; [assumption |].
    apply arccosh_le; lra.
Qed.


Lemma ten_pow_three_tenths : 3 / 2 < Rpower 10 (3 / 10) < 4.
Proof.
  set (x := Rpower 10 (3 / 10)).
  assert (Hx : 0 < x) by apply Rpower_10_pos.
  assert (E : x ^ 10 = 1000).
  { rewrite <- (Rpower_pow 10 x Hx). unfold x. rewrite Rpower_mult.
    replace (3 / 10 * INR 10) with (INR 3) by (simpl; lra).
    rewrite Rpower_pow by lra. lra. }
  split.
  - destruct (Rlt_le_dec (3 / 2) x) as [H | H]; [assumption |].
    assert (x ^ 10 <= (3 / 2) ^ 10) by (apply pow_incr; lra).
    lra.
  - destruct (Rlt_le_dec x 4) as [H | H]; [assumption |].
    assert (4 ^ 10 <= x ^ 10) by (apply pow_incr; lra).
    lra.
Qed.

Lemma attenuation_30_squared : attenuation 30 * attenuation 30 = 1000.
Proof.
  unfold attenuation. rewrite <- Rpower_plus.
  replace (30 / 20 + 30 / 20) with (INR 3) by (simpl; lra).
  rewrite Rpower_pow by lra. lra.
Qed.

Lemma specification_1_3_3_30_argument :
  17 < acosh_argument 3 30 <= 99.
Proof.
  unfold acosh_argument. rewrite attenuation_30_squared.
  pose proof ten_pow_three_tenths as Hx.
  pose proof (ripple_factor_pos 3 ltac:(lra)) as Hs.
  assert (Es : ripple_factor 3 * ripple_factor 3 = Rpower 10 (3 / 10) - 1).
  { unfold ripple_factor. apply sqrt_sqrt. lra. }
  assert (Et : sqrt (1000 - 1) * sqrt (1000 - 1) = 999)
    by (rewrite sqrt_sqrt; lra).
  assert (Ht : 0 < sqrt (1000 - 1)) by (apply sqrt_lt_R0; lra).
  set (s := ripple_factor 3) in *. set (t := sqrt (1000 - 1)) in *.
  split.
  - apply (Rmult_lt_reg_r s); [assumption |].
    unfold Rdiv. rewrite Rmult_assoc, Rinv_l by lra. nra.
  - apply (Rmult_le_reg_r s); [assumption |].
    unfold Rdiv. rewrite Rmult_assoc, Rinv_l by lra. nra.
Qed.

Lemma arccosh_3_double : arccosh 17 = 2 * arccosh 3.
Proof.
  unfold arccosh.
  assert (E8 : sqrt 8 * sqrt 8 = 8) by (apply sqrt_sqrt; lra).
  pose proof (sqrt_pos 8) as H8.
  replace (3 * 3 - 1) with 8 by lra.
  replace (sqrt (17 * 17 - 1)) with (6 * sqrt 8)
    by (symmetry; apply sqrt_lem_1; nra).
  replace (2 * ln (3 + sqrt 8)) with (ln (3 + sqrt 8) + ln (3 + sqrt 8))
    by lra.
  rewrite <- ln_mult by lra. f_equal. nra.
Qed.

Lemma arccosh_3_triple : arccosh 99 = 3 * arccosh 3.
Proof.
  unfold arccosh.
  assert (E8 : sqrt 8 * sqrt 8 = 8) by (apply sqrt_sqrt; lra).
  pose proof (sqrt_pos 8) as H8.
  replace (3 * 3 - 1) with 8 by lra.
  replace (sqrt (99 * 99 - 1)) with (35 * sqrt 8)
    by (symmetry; apply sqrt_lem_1; nra).
  replace (3 * ln (3 + sqrt 8))
    with (ln (3 + sqrt 8) + (ln (3 + sqrt 8) + ln (3 + sqrt 8))) by lra.
  rewrite <- !ln_mult by nra. f_equal. nra.
Qed.

(** The order of the specification [wp = 1, ws = 3, Ap = 3, As = 30]. *)
Lemma real_order_1_3_3_30 : real_order 1 3 3 30 = 3%Z.
Proof.
  unfold real_order. replace (3 / 1) with 3 by lra.
  destruct specification_1_3_3_30_argument as [Hlo Hhi].
  pose proof (arccosh_lt 17 _ ltac:(lra) Hlo) as H17.
  pose proof (arccosh_le (acosh_argument 3 30) 99 ltac:(lra) Hhi) as H99.
  rewrite arccosh_3_double in H17. rewrite arccosh_3_triple in H99.
  pose proof (arccosh_pos 3 ltac:(lra)) as Hd.
  apply Zceil_eq. split.
  - apply (Rmult_lt_reg_r (arccosh 3)); [assumption |].
    unfold Rdiv. rewrite Rmult_assoc, Rinv_l by lra. lra.
  - apply (Rmult_le_reg_r (arccosh 3)); [assumption |].
    unfold Rdiv. rewrite Rmult_assoc, Rinv_l by lra. lra.
Qed.

Lemma getMinOrder_1_3_3_30 :
  getMinOrder (Fin 1) (Fin 3) (Fin 3) (Fin 30) = Fin 3.
Proof.
  destruct specification_1_3_3_30_argument as [Hlo Hhi].
  destruct (getMinOrder_feasible 1 3 3 30) as [E _]; try lra.
  rewrite E, real_order_1_3_3_30. reflexivity.
Qed.

Lemma div_NaN_r (x : num) : (x / NaN)%js = NaN.
Proof. destruct x; reflexivity. Qed.

Lemma div_NaN_l (x : num) : (NaN / x)%js = NaN.
Proof. reflexivity. Qed.

(** The denominator [Math.acosh(ws / wp)] for [0 < wp] and [ws <= wp]:
    NaN below the passband edge, 0 on it. *)
Lemma acosh_ratio_not_above (wp ws : R) :
  0 < wp -> ws <= wp ->
  (ws < wp -> Math_acosh (Fin ws / Fin wp)%js = NaN) /\
  (ws = wp -> Math_acosh (Fin ws / Fin wp)%js = Fin 0).
Proof.
  intros Hwp Hle. rewrite div_finite by lra. split; intros H.
  - simpl. rewrite Rltb_true; [reflexivity |].
    apply (Rmult_lt_reg_r wp); [lra |].
    unfold Rdiv. rewrite Rmult_assoc, Rinv_l by lra. lra.
  - subst ws. replace (wp / wp) with 1 by (field; lra).
    rewrite acosh_finite by lra. rewrite arccosh_1. reflexivity.
Qed.

(** Dividing by the denominator 0 gives NaN or +Infinity when the numerator
    is NaN, +Infinity or a finite number that is not negative. *)
Lemma div_by_zero (x : num) :
  (x = NaN \/ x = PInf \/ exists a, x = Fin a /\ 0 <= a) ->
  (x / Fin 0)%js = NaN \/ (x / Fin 0)%js = PInf.
Proof.
  intros [-> | [-> | (a & -> & Ha)]].
  - left. reflexivity.
  - right. simpl. rewrite Rltb_false by lra. reflexivity.
  - simpl. rewrite Reqb_true by reflexivity.
    destruct (Rlt_dec 0 a) as [H | H].
    + right. rewrite Rltb_true by assumption. reflexivity.
    + left. rewrite !Rltb_false by lra. reflexivity.
Qed.

(** The numerator [Math.acosh(sqrt(A*A - 1) / epsilon)] is NaN, +Infinity
    or a finite number that is not negative. *)
Lemma acosh_numerator_cases (x : num) :
  Math_acosh x = NaN \/ Math_acosh x = PInf \/
  exists a, Math_acosh x = Fin a /\ 0 <= a.
Proof.
  destruct x as [| | | r]; simpl; auto.
  destruct (Rlt_dec r 1) as [H | H].
  - rewrite Rltb_true by assumption. auto.
  - rewrite Rltb_false by lra. right. right.
    eexists. split; [reflexivity |]. apply arccosh_nonneg. lra.
Qed.

(** C2 fails on the code: with [ws = 1 <= wp = 3] [getMinOrder] returns NaN,
    and with [Ap = 0] it returns +Infinity; neither call raises an error. *)
Lemma getMinOrder_infeasible_returns_NaN :
  1 <= 3 /\
  getMinOrder (Fin 3) (Fin 1) (Fin 3) (Fin 30) = NaN /\
  getMinOrder (Fin 1) (Fin 3) (Fin 0) (Fin 30) = PInf.
Proof.
  split; [lra | split].
  - unfold getMinOrder.
    destruct (acosh_ratio_not_above 3 1) as [E _]; try lra.
    rewrite E by lra. rewrite div_NaN_r. reflexivity.
  - unfold getMinOrder.
    rewrite (div_finite 3 1) by lra. rewrite (acosh_finite (3 / 1)) by lra.
    pose proof (arccosh_pos (3 / 1) ltac:(lra)).
    rewrite (div_finite 0 10) by lra. cbn [Math_pow10 sub neg add].
    replace (Rpower 10 (0 / 10) + - (1)) with 0
      by (replace (0 / 10) with 0 by lra; rewrite Rpower_O; lra).
    rewrite (sqrt_finite 0) by lra. rewrite sqrt_0.
    rewrite (div_finite 30 20) by lra. cbn [Math_pow10 mul add].
    fold (attenuation 30). rewrite attenuation_30_squared.
    cbn [sub neg add]. rewrite sqrt_finite by lra.
    assert (Ht : 0 < sqrt (1000 + - (1))) by (apply sqrt_lt_R0; lra).
    cbn [div]. rewrite Reqb_true by reflexivity.
    rewrite Rltb_true by assumption. cbn [Math_acosh div].
    rewrite Rltb_false by lra. reflexivity.
Qed.

(** C2, amended.  For finite inputs with [wp > 0] and [ws <= wp], or
    [Ap <= 0], or the argument [sqrt(A^2-1)/epsilon] below 1, [getMinOrder]
    raises no error and returns no order: the value returned is NaN or
    +Infinity; it is NaN when [ws < wp], when [Ap < 0] and when the argument
    is below 1 with [Ap > 0]. *)
Theorem getMinOrder_infeasible (wp ws Ap As : R) :
  0 < wp ->
  ws <= wp \/ Ap <= 0 \/ acosh_argument Ap As < 1 ->
  (getMinOrder (Fin wp) (Fin ws) (Fin Ap) (Fin As) = NaN \/
   getMinOrder (Fin wp) (Fin ws) (Fin Ap) (Fin As) = PInf) /\
  (ws < wp \/ Ap < 0 \/ (0 < Ap /\ acosh_argument Ap As < 1) ->
   getMinOrder (Fin wp) (Fin ws) (Fin Ap) (Fin As) = NaN).
Proof.
  intros Hwp Hbad.
  (* the three ways in which the result is NaN *)
  assert (Hratio : ws < wp ->
            getMinOrder (Fin wp) (Fin ws) (Fin Ap) (Fin As) = NaN).
  { intros H. unfold getMinOrder.
    destruct (acosh_ratio_not_above wp ws Hwp) as [E _]; [lra |].
    rewrite E by assumption. rewrite div_NaN_r. reflexivity. }
  assert (Hripple : Ap < 0 ->
            getMinOrder (Fin wp) (Fin ws) (Fin Ap) (Fin As) = NaN).
  { intros H. unfold getMinOrder.
    rewrite (div_finite Ap 10) by lra. cbn [Math_pow10 sub neg add].
    assert (Rpower 10 (Ap / 10) < 1).
    { rewrite <- (Rpower_O 10) by lra. apply Rpower_lt; lra. }
    cbn [Math_sqrt]. rewrite (Rltb_true (Rpower 10 (Ap / 10) + - (1)) 0)
      by lra.
    rewrite div_NaN_r. reflexivity. }
  assert (Harg : 0 < Ap -> acosh_argument Ap As < 1 ->
            getMinOrder (Fin wp) (Fin ws) (Fin Ap) (Fin As) = NaN).
  { intros HAp H. unfold getMinOrder.
    rewrite (epsilon_finite Ap HAp).
    rewrite (div_finite As 20) by lra. cbn [Math_pow10 mul sub neg add].
    fold (attenuation As).
    change (attenuation As * attenuation As + - (1))
      with (attenuation As * attenuation As - 1).
    destruct (Rlt_dec (attenuation As * attenuation As - 1) 0) as [Hn | Hn].
    - cbn [Math_sqrt]. rewrite Rltb_true by assumption. reflexivity.
    - rewrite sqrt_finite by lra.
      pose proof (ripple_factor_pos Ap HAp).
      rewrite div_finite by lra. fold (acosh_argument Ap As).
      cbn [Math_acosh]. rewrite Rltb_true by assumption. reflexivity. }
  split.
  2:{ intros [H | [H | [H1 H2]]]; auto. }
  destruct (Rlt_dec ws wp) as [Hlt | Hge]; [left; auto |].
  destruct (Rlt_dec Ap 0) as [HAn | HAp]; [left; auto |].
  destruct (Rlt_dec 0 Ap) as [HApos | HAzero].
  - destruct (Rlt_dec (acosh_argument Ap As) 1) as [Ha | Ha];
      [left; auto |].
    (* only [ws = wp] is left: the denominator is 0 *)
    assert (ws = wp) by lra.
    unfold getMinOrder.
    destruct (acosh_ratio_not_above wp ws Hwp) as [_ E]; [lra |].
    rewrite E by assumption.
    cbn [Math_ceil].
    match goal with
    | |- Math_ceil (?x / Fin 0)%js = _ \/ _ =>
        destruct (div_by_zero x) as [E0 | E0];
        [apply acosh_numerator_cases | rewrite E0; auto ..]
    end.
  - (* [Ap = 0]: epsilon is 0 *)
    assert (Ap = 0) by lra. subst Ap.
    unfold getMinOrder.
    rewrite (div_finite 0 10) by lra. cbn [Math_pow10 sub neg add].
    replace (Rpower 10 (0 / 10) + - (1)) with 0
      by (replace (0 / 10) with 0 by lra; rewrite Rpower_O; lra).
    rewrite (sqrt_finite 0) by lra. rewrite sqrt_0.
    match goal with
    | |- Math_ceil (Math_acosh (?x / Fin 0) / ?d)%js = _ \/ _ =>
        assert (Hx : x = NaN \/ exists a, x = Fin a /\ 0 <= a);
        [| destruct (div_by_zero x) as [E0 | E0];
           [destruct Hx as [-> | Hx]; auto | rewrite E0 .. ]]
    end.
    + rewrite (div_finite As 20) by lra. cbn [Math_pow10 mul sub neg add].
      match goal with
      | |- Math_sqrt (Fin ?r) = _ \/ _ =>
          destruct (Rlt_dec r 0) as [Hr | Hr]
      end.
      * left. cbn [Math_sqrt]. rewrite Rltb_true by assumption. reflexivity.
      * right. rewrite sqrt_finite by lra. eexists. split; [reflexivity |].
        apply sqrt_pos.
    + left. reflexivity.
    + cbn [Math_acosh].
      destruct (acosh_numerator_cases (Fin ws / Fin wp)%js)
        as [E | [E | (a & E & Ha)]]; rewrite E.
      * left. reflexivity.
      * left. reflexivity.
      * right. cbn [div]. rewrite Rltb_false by lra. reflexivity.
Qed.

Lemma getMinOrder_infeasible_witness :
  (getMinOrder (Fin 3) (Fin 1) (Fin 3) (Fin 30) = NaN \/
   getMinOrder (Fin 3) (Fin 1) (Fin 3) (Fin 30) = PInf) /\
  (1 < 3 \/ 3 < 0 \/ (0 < 3 /\ acosh_argument 3 30 < 1) ->
   getMinOrder (Fin 3) (Fin 1) (Fin 3) (Fin 30) = NaN).
Proof.
  apply (getMinOrder_infeasible 3 1 3 30).
  - lra.
  - left. lra.
Defined.

Lemma getMinOrder_monotone_witness :
  exists n nAs nratio : Z,
    getMinOrder (Fin 1) (Fin 3) (Fin 3) (Fin 30) = Fin (IZR n) /\
    getMinOrder (Fin 1) (Fin 3) (Fin 3) (Fin 40) = Fin (IZR nAs) /\
    getMinOrder (Fin 1) (Fin 4) (Fin 3) (Fin 30) = Fin (IZR nratio) /\
    (30 <= 40 -> (n <= nAs)%Z) /\
    (3 / 1 <= 4 / 1 -> (nratio <= n)%Z).
Proof.
  pose proof specification_1_3_3_30_argument as H30.
  pose proof (acosh_argument_le 3 30 40 ltac:(lra) ltac:(lra) ltac:(lra))
    as H40.
  apply (getMinOrder_monotone 1 3 3 30 40 1 4);
    unfold feasible; repeat split; lra.
Defined.

End MinimumOrder.

(* ================================================================== *)
(** * ChebyshevSolver: poles and stages                                *)
(* ================================================================== *)

Section Decomposition.

Import ChebyshevSolver.

Lemma le_int_finite (k m : Z) : (int k <=? Fin (IZR m))%js = (k <=? m)%Z.
Proof.
  unfold int. cbn [le lt].
  destruct (Z.leb_spec k m) as [H | H].
  - rewrite Rltb_false; [reflexivity | apply IZR_le; assumption].
  - rewrite Rltb_true; [reflexivity | apply IZR_lt; assumption].
Qed.

Lemma pole_at_lacks_im (k : Z) (n gamma wp : num) :
  lacks_im (pole_at k n gamma wp).
Proof. reflexivity. Qed.

(** Whatever [n], the poles the loop returns have no property [im]. *)
Lemma getPoles_loop_lacks_im (fuel : nat) :
  forall (k : Z) (n gamma wp : num) (poles ps : list object),
    Forall lacks_im poles ->
    getPoles_loop fuel k n gamma wp poles = Some ps ->
    Forall lacks_im ps.
Proof.
  induction fuel as [| fuel IH]; intros k n gamma wp poles ps Hall;
    cbn [getPoles_loop].
  - discriminate.
  - destruct (int k <=? n)%js.
    + apply IH. apply Forall_app. split; [assumption |].
      constructor; [apply pole_at_lacks_im | constructor].
    + intros E. injection E as <-. assumption.
Qed.

(** For an integer order [m] the loop ends as soon as the fuel exceeds the
    number of turns, and it has pushed one pole per [k] in [k..m]. *)
Lemma getPoles_loop_terminates (m : Z) (gamma wp : num) (fuel : nat) :
  forall (k : Z) (poles : list object),
    (Z.to_nat (m + 1 - k) < fuel)%nat ->
    exists ps,
      getPoles_loop fuel k (Fin (IZR m)) gamma wp poles = Some ps /\
      List.length ps = (List.length poles + Z.to_nat (m + 1 - k))%nat.
Proof.
  induction fuel as [| fuel IH]; intros k poles Hfuel.
  - lia.
  - cbn [getPoles_loop]. rewrite le_int_finite.
    destruct (Z.leb_spec k m) as [H | H].
    + destruct (IH (k + 1)%Z (poles ++ [pole_at k (Fin (IZR m)) gamma wp]))
        as (ps & E & L); [lia |].
      exists ps. split; [assumption |].
      rewrite L, length_app. simpl.
      replace (m + 1 - k)%Z with (Z.succ (m + 1 - (k + 1)))%Z by lia.
      rewrite Z2Nat.inj_succ by lia. lia.
    + exists poles. split; [reflexivity |].
      assert (Z.to_nat (m + 1 - k) = 0%nat) by lia. lia.
Qed.

Lemma push_biquad_lacks_im (dom : option num) (b : building) (p : object) :
  lacks_im p -> push_biquad dom b p = b.
Proof. intros H. unfold push_biquad. rewrite H. reflexivity. Qed.

Lemma push_pole_lacks_im (dom : option num) (b : building) (p : object) :
  lacks_im p -> push_pole dom b p = b.
Proof. intros H. unfold push_pole. rewrite H. reflexivity. Qed.

Lemma fold_push_lacks_im (dom : option num) (ps : list object) (b : building) :
  Forall lacks_im ps ->
  fold_left (push_biquad dom) ps b = b /\
  fold_left (push_pole dom) ps b = b.
Proof.
  intros H. revert b. induction H as [| p ps Hp _ IH]; intros b; simpl.
  - split; reflexivity.
  - rewrite push_biquad_lacks_im, push_pole_lacks_im by assumption.
    apply IH.
Qed.

(** Whatever the specification, the two loops of [getBestSolutionStages]
    read [p.im] on poles [{ sigma, omega }]: no stage is created. *)
Lemma getBestSolutionStages_no_stage (fuel : nat) (dom : option num)
  (nextId : Z) (wp ws Ap As : num) (sol : solution) (nid : Z) :
  getBestSolutionStages fuel dom nextId wp ws Ap As = Some (sol, nid) ->
  stages sol = [] /\ nid = nextId.
Proof.
  unfold getBestSolutionStages, getPoles.
  match goal with
  | |- context [getPoles_loop ?f ?k ?n ?g ?w ?l] =>
      destruct (getPoles_loop f k n g w l) as [ps |] eqn:E
  end; [| discriminate].
  apply getPoles_loop_lacks_im in E; [| constructor].
  destruct (fold_push_lacks_im dom ps ([], nextId) E) as [E1 E2].
  rewrite E1, E2. intros H. injection H as <- <-. split; reflexivity.
Qed.

(** [n % 2 === 0] on an integer [n >= 0] tests that [n] is even. *)
Lemma rem_two_parity (m : Z) :
  (0 <= m)%Z ->
  strict_eq (rem (Fin (IZR m)) (Fin 2)) (Fin 0) = Z.even m.
Proof.
  intros Hm. cbn [rem]. rewrite Reqb_false by lra.
  pose proof (Z.div_mod m 2 ltac:(lia)) as Hdm.
  pose proof (Z.mod_pos_bound m 2 ltac:(lia)) as [Hlo Hhi].
  assert (ER : IZR m = 2 * IZR (m / 2) + IZR (m mod 2)).
  { rewrite Hdm at 1. rewrite plus_IZR, mult_IZR. reflexivity. }
  apply IZR_le in Hlo. apply IZR_lt in Hhi.
  assert (Hm' : 0 <= IZR m) by (apply IZR_le; assumption).
  assert (ET : Ztrunc (IZR m / 2) = (m / 2)%Z).
  { unfold Ztrunc. rewrite Rltb_false by lra. apply Zfloor_eq. lra. }
  rewrite ET. cbn [strict_eq].
  rewrite (Zmod_even m) in ER.
  destruct (Z.even m).
  - apply Reqb_true. lra.
  - apply Reqb_false. lra.
Qed.

(** On a feasible specification [getBestSolutionStages] returns as soon as
    the fuel exceeds the order [n], with the gain chosen by the parity of
    [n]. *)
Lemma getBestSolutionStages_returns (wp ws Ap As : R) (dom : option num)
  (nextId : Z) (fuel : nat) :
  0 < wp < ws -> 0 < Ap -> 1 <= acosh_argument Ap As ->
  (Z.to_nat (real_order wp ws Ap As) < fuel)%nat ->
  exists sol nid,
    getBestSolutionStages fuel dom nextId (Fin wp) (Fin ws) (Fin Ap) (Fin As)
      = Some (sol, nid) /\
    globalGainDb sol
      = if Z.even (real_order wp ws Ap As) then Fin (- Ap) else Fin 0.
Proof.
  intros Hw HAp Harg Hfuel.
  destruct (getMinOrder_feasible wp ws Ap As Hw HAp Harg) as [E Hn].
  unfold getBestSolutionStages, getPoles. rewrite E.
  match goal with
  | |- context [getPoles_loop fuel 1 _ ?g ?w []] =>
      destruct (getPoles_loop_terminates (real_order wp ws Ap As) g w fuel
                  1%Z []) as (ps & Eps & _); [lia |]
  end.
  rewrite Eps. do 2 eexists. split; [reflexivity |].
  cbn [globalGainDb]. rewrite rem_two_parity by assumption.
  destruct (Z.even (real_order wp ws Ap As)); reflexivity.
Qed.

(** C3.  On a feasible specification [getMinOrder] returns an integer
    [n >= 0], [getBestSolutionStages] returns as soon as the fuel exceeds
    [n], and the gain it returns is [-Ap] when [n] is even and 0 when [n]
    is odd. *)
Theorem getBestSolutionStages_gain (wp ws Ap As : R) (dom : option num)
  (nextId : Z) :
  feasible wp ws Ap As ->
  exists n : Z,
    (0 <= n)%Z /\
    getMinOrder (Fin wp) (Fin ws) (Fin Ap) (Fin As) = Fin (IZR n) /\
    forall fuel, (Z.to_nat n < fuel)%nat ->
      exists sol nid,
        getBestSolutionStages fuel dom nextId
                              (Fin wp) (Fin ws) (Fin Ap) (Fin As)
          = Some (sol, nid) /\
        (Z.even n = true -> globalGainDb sol = Fin (- Ap)) /\
        (Z.odd n = true -> globalGainDb sol = Fin 0).
Proof.
  intros (Hw & HAp & _ & Harg).
  destruct (getMinOrder_feasible wp ws Ap As Hw HAp Harg) as [E Hn].
  exists (real_order wp ws Ap As).
  split; [assumption | split; [assumption |]].
  intros fuel Hfuel.
  destruct (getBestSolutionStages_returns wp ws Ap As dom nextId fuel
              Hw HAp Harg Hfuel) as (sol & nid & Es & Eg).
  exists sol, nid. split; [assumption |]. rewrite Eg.
  split; intros Hpar.
  - rewrite Hpar. reflexivity.
  - rewrite <- Z.negb_even in Hpar. apply negb_true_iff in Hpar.
    rewrite Hpar. reflexivity.
Qed.

Lemma getBestSolutionStages_gain_witness :
  exists n : Z,
    (0 <= n)%Z /\
    getMinOrder (Fin 1) (Fin 3) (Fin 3) (Fin 30) = Fin (IZR n) /\
    forall fuel, (Z.to_nat n < fuel)%nat ->
      exists sol nid,
        getBestSolutionStages fuel None 1 (Fin 1) (Fin 3) (Fin 3) (Fin 30)
          = Some (sol, nid) /\
        (Z.even n = true -> globalGainDb sol = Fin (- 3)) /\
        (Z.odd n = true -> globalGainDb sol = Fin 0).
Proof.
  apply (getBestSolutionStages_gain 1 3 3 30 None 1).
  pose proof specification_1_3_3_30_argument.
  unfold feasible. repeat split; lra.
Defined.

(** C1 on the code.  For [wp = 1, ws = 3, Ap = 3, As = 30] the order is 3
    and the gain 0, but the stage list returned is empty: there is
    neither a second-order nor a first-order section, and no identity has
    been taken from the counter. *)
Theorem getBestSolutionStages_1_3_3_30 :
  getMinOrder (Fin 1) (Fin 3) (Fin 3) (Fin 30) = Fin 3 /\
  getBestSolutionStages 4 None 1 (Fin 1) (Fin 3) (Fin 3) (Fin 30)
    = Some (mkSolution [] (Fin 0), 1%Z).
Proof.
  split; [apply getMinOrder_1_3_3_30 |].
  pose proof specification_1_3_3_30_argument as Harg.
  destruct (getBestSolutionStages_returns 1 3 3 30 None 1 4)
    as (sol & nid & E & Eg); try lra.
  { rewrite real_order_1_3_3_30. simpl. lia. }
  rewrite real_order_1_3_3_30 in Eg. cbn [Z.even] in Eg.
  rewrite E.
  destruct (getBestSolutionStages_no_stage _ _ _ _ _ _ _ _ _ E) as [Hs ->].
  destruct sol as [st g]. cbn [stages globalGainDb] in *.
  rewrite Hs, Eg. reflexivity.
Qed.

End Decomposition.

(* ================================================================== *)
(** * The earlier version on the specification 1, 3, 3, 30             *)
(* ================================================================== *)

Section LegacyDecomposition.

Import ChebyshevSolver.

Lemma cosh_pos (x : R) : 0 < cosh x.
Proof.
  unfold cosh. pose proof (exp_pos x). pose proof (exp_pos (- x)). lra.
Qed.

Lemma sinh_pos (x : R) : 0 < x -> 0 < sinh x.
Proof. intros H. rewrite <- sinh_0. apply sinh_lt. assumption. Qed.

(** The three poles of order 3: real parts negative, imaginary parts
    positive, zero and negative in this order. *)
Lemma getPoles_order_3 (e : R) :
  0 < e ->
  exists s1 w1 s2 w2 s3 w3 : R,
    getPoles 4 (Fin 3) (Fin e) (Fin 1)
      = Some [pole s1 w1; pole s2 w2; pole s3 w3] /\
    s1 < 0 /\ 0 < w1 /\ s2 < 0 /\ w2 = 0 /\ s3 < 0 /\ w3 < 0.
Proof.
  intros He. unfold getPoles.
  rewrite (div_finite 1 e) by lra. cbn [Math_asinh].
  rewrite div_finite by lra.
  set (g := arcsinh (1 / e) / 3).
  assert (Hg : 0 < g).
  { unfold g. apply Rdiv_lt_0_compat; [| lra].
    rewrite <- arcsinh_0. apply arcsinh_lt.
    apply Rdiv_lt_0_compat; lra. }
  pose proof (sinh_pos g Hg) as Hsh. pose proof (cosh_pos g) as Hch.
  pose proof PI_RGT_0 as Hpi.
  assert (Hpole : forall k : Z,
            pole_at k (Fin 3) (Fin g) (Fin 1)
            = pole (- 1 * sinh g * sin (PI * (2 * IZR k - 1) / (2 * 3)))
                   (1 * cosh g * cos (PI * (2 * IZR k - 1) / (2 * 3)))).
  { intros k. unfold pole_at, pole, int, Math_PI. cbn [mul sub neg add].
    rewrite div_finite by lra. reflexivity. }
  cbn [getPoles_loop]. rewrite !le_int_finite.
  cbn [Z.leb Z.compare Pos.compare Pos.compare_cont Z.add Pos.add Pos.succ
       app].
  rewrite !Hpole.
  do 6 eexists. split; [reflexivity |].
  replace (PI * (2 * 1 - 1) / (2 * 3)) with (PI / 6) by lra.
  replace (PI * (2 * 2 - 1) / (2 * 3)) with (PI / 2) by lra.
  replace (PI * (2 * 3 - 1) / (2 * 3)) with (5 * (PI / 6)) by lra.
  rewrite cos_PI2.
  assert (0 < sin (PI / 6)) by (apply sin_gt_0; lra).
  assert (0 < sin (PI / 2)) by (apply sin_gt_0; lra).
  assert (0 < sin (5 * (PI / 6))) by (apply sin_gt_0; lra).
  assert (0 < cos (PI / 6)) by (apply cos_gt_0; lra).
  assert (cos (5 * (PI / 6)) < 0) by (apply cos_lt_0; lra).
  repeat split; nra.
Qed.

Lemma element_int (poles : list object) (i : Z) :
  (0 <= i)%Z -> Legacy.element poles (int i) = nth_error poles (Z.to_nat i).
Proof.
  intros Hi. unfold Legacy.element, int. rewrite ZfloorZ.
  rewrite Reqb_true by reflexivity.
  rewrite Rltb_false by (apply IZR_le; assumption). reflexivity.
Qed.

(** The earlier version on [wp = 1, ws = 3, Ap = 3, As = 30]: of the three
    poles one has a positive imaginary part; it gives the second-order
    stage, with [w0 = sqrt(sigma^2 + omega^2)] and [Q = w0 / (-2 sigma)];
    the real pole gives the first-order stage, with [w0 = -sigma]; the
    gain is 0. *)
Lemma Legacy_getBestSolutionStages_1_3_3_30 :
  exists s1 w1 s2 w2 s3 w3 : R,
    getPoles 4 (Fin 3) (Fin (ripple_factor 3)) (Fin 1)
      = Some [pole s1 w1; pole s2 w2; pole s3 w3] /\
    s1 < 0 /\ 0 < w1 /\ s2 < 0 /\ w2 = 0 /\ s3 < 0 /\ w3 < 0 /\
    Legacy.getBestSolutionStages 4 1 (Fin 1) (Fin 3) (Fin 3) (Fin 30)
      = Legacy.Returned
          (mkSolution
             [fst (Legacy.newSecondOrderLowPass 1
                     (Fin (sqrt (s1 * s1 + w1 * w1)))
                     (Fin (sqrt (s1 * s1 + w1 * w1) / (- 2 * s1))));
              fst (Legacy.newFirstOrderLowPass 2 (Fin (- s2)))]
             (Fin 0),
           3%Z).
Proof.
  pose proof (ripple_factor_pos 3 ltac:(lra)) as He.
  destruct (getPoles_order_3 (ripple_factor 3) He)
    as (s1 & w1 & s2 & w2 & s3 & w3 & E & H1 & H2 & H3 & H4 & H5 & H6).
  exists s1, w1, s2, w2, s3, w3.
  repeat (split; [assumption |]).
  unfold Legacy.getBestSolutionStages.
  rewrite getMinOrder_1_3_3_30, (epsilon_finite 3) by lra. rewrite E.
  rewrite (div_finite 3 2) by lra. cbn [Math_floor].
  assert (EF : Zfloor (3 / 2) = 1%Z) by (apply Zfloor_eq; lra).
  rewrite EF.
  change (Fin 3) with (Fin (IZR 3)). rewrite rem_two_parity by lia.
  unfold strict_neq. rewrite rem_two_parity by lia.
  cbn [Z.even negb].
  change (Fin 1) with (int 1). rewrite element_int by lia.
  cbn [Legacy.biquads_loop]. 
  change (int 0 <? int 1)%js with (Rltb 0 1).
  rewrite (Rltb_true 0 1) by lra.
  rewrite element_int by lia.
  cbn [Z.to_nat nth_error Pos.to_nat Pos.iter_op Nat.add pole get
       String.eqb Ascii.eqb Bool.eqb ToNumber mul add snd fst app
       Legacy.newSecondOrderLowPass].
  rewrite sqrt_finite by nra. cbn [neg mul].
  rewrite div_finite by lra.
  change (int (0 + 1) <? int 1)%js with (Rltb 1 1).
  rewrite (Rltb_false 1 1) by lra.
  cbn [snd fst app Legacy.newFirstOrderLowPass Z.add Pos.add neg].
  reflexivity.
Qed.

End LegacyDecomposition.

(* ================================================================== *)
(** * Further properties: AnimatedParameter                            *)
(* ================================================================== *)

Section ParameterRange.

Import AnimatedParameter.

(** The tolerance [autoRange] reads, for a page that gives a finite
    percentage. *)
Lemma autoRange_fields (dom : option num) (p : t) :
  value (autoRange dom p) = value p /\
  isAnimating (autoRange dom p) = isAnimating p /\
  phase (autoRange dom p) = phase p.
Proof. repeat split; reflexivity. Qed.

Lemma autoRange_finite (dom : option num) (p : t) (v tol : R) :
  value p = Fin v -> 0 <= v -> 0 <= tol <= 1 ->
  (dom = None /\ tol = 0.2) \/ dom = Some (Fin (100 * tol)) ->
  min (autoRange dom p) = Fin (v * (1 - tol)) /\
  max (autoRange dom p) = Fin (v * (1 + tol)).
Proof.
  intros Hv Hv0 Ht Hdom. unfold autoRange. cbn [min max]. rewrite Hv.
  assert (Etol : match dom with
                 | Some percent => (percent / Fin 100)%js
                 | None => Fin 0.2
                 end = Fin tol).
  { destruct Hdom as [[-> ->] | ->]; [reflexivity |].
    rewrite div_finite by lra. f_equal. field. }
  rewrite Etol. cbn [sub neg add mul]. rewrite max_zero_finite.
  split; [| reflexivity].
  f_equal. change (1 + - tol) with (1 - tol).
  apply Rmax_right. nra.
Qed.

(** X1.  [autoRange] frames the value: for a finite value [v >= 0] and a
    tolerance [tol] in [0, 1] (the default 20 %, or the percentage the page
    shows), it leaves the value alone and sets [min = v (1 - tol)] and
    [max = v (1 + tol)], so that [0 <= min <= value <= max]. *)
Theorem autoRange_frames_value (dom : option num) (p : t) (v tol : R) :
  value p = Fin v -> 0 <= v -> 0 <= tol <= 1 ->
  (dom = None /\ tol = 0.2) \/ dom = Some (Fin (100 * tol)) ->
  exists lo hi,
    min (autoRange dom p) = Fin lo /\ max (autoRange dom p) = Fin hi /\
    value (autoRange dom p) = Fin v /\
    lo = v * (1 - tol) /\ hi = v * (1 + tol) /\
    0 <= lo <= v /\ v <= hi.
Proof.
  intros Hv Hv0 Ht Hdom.
  destruct (autoRange_finite dom p v tol Hv Hv0 Ht Hdom) as [Elo Ehi].
  exists (v * (1 - tol)), (v * (1 + tol)).
  repeat split; try assumption; nra.
Qed.

Lemma autoRange_frames_value_witness :
  exists lo hi,
    min (autoRange (Some (Fin (100 * 0.5))) (sample_parameter false)) = Fin lo
    /\ max (autoRange (Some (Fin (100 * 0.5))) (sample_parameter false))
       = Fin hi
    /\ value (autoRange (Some (Fin (100 * 0.5))) (sample_parameter false))
       = Fin 5
    /\ lo = 5 * (1 - 0.5) /\ hi = 5 * (1 + 0.5) /\ 0 <= lo <= 5 /\ 5 <= hi.
Proof.
  apply (autoRange_frames_value (Some (Fin (100 * 0.5)))
           (sample_parameter false) 5 0.5).
  - reflexivity.
  - lra.
  - lra.
  - right. reflexivity.
Defined.

(** X2.  An animating parameter with finite bounds [min <= max] stays
    within its bounds when [update] moves it, whatever the finite phase,
    time step and speed; the bounds are not changed. *)
Theorem update_keeps_value_in_bounds (p : t) (ph dt sp lo hi : R) :
  isAnimating p = true -> phase p = Fin ph ->
  min p = Fin lo -> max p = Fin hi -> lo <= hi ->
  exists v',
    value (update (Fin dt) (Fin sp) p) = Fin v' /\ lo <= v' <= hi /\
    min (update (Fin dt) (Fin sp) p) = Fin lo /\
    max (update (Fin dt) (Fin sp) p) = Fin hi.
Proof.
  intros Ha Hp Hlo Hhi Hle.
  destruct (update_value_finite p ph dt sp lo hi Ha Hp Hlo Hhi)
    as (ph' & _ & Ev & Emin & Emax).
  eexists. split; [exact Ev |].
  pose proof (SIN_bound ph') as [Hs1 Hs2].
  repeat split; try assumption; nra.
Qed.

Lemma update_keeps_value_in_bounds_witness :
  exists v',
    value (update (Fin 3) (Fin 1) (sample_parameter true)) = Fin v' /\
    1 <= v' <= 10 /\
    min (update (Fin 3) (Fin 1) (sample_parameter true)) = Fin 1 /\
    max (update (Fin 3) (Fin 1) (sample_parameter true)) = Fin 10.
Proof.
  apply (update_keeps_value_in_bounds (sample_parameter true) 0 3 1 1 10);
    try reflexivity; lra.
Defined.

(** The value [setRange] stores, for finite arguments and a finite value:
    the value clamped from below by [max(0, min)], then from above by
    [max]. *)
Lemma setRange_value_finite (p : t) (v mn mx : R) :
  value p = Fin v ->
  value (setRange (Fin mn) (Fin mx) p)
    = Fin (if Rlt_dec mx (if Rlt_dec v (Rmax 0 mn) then Rmax 0 mn else v)
           then mx
           else if Rlt_dec v (Rmax 0 mn) then Rmax 0 mn else v).
Proof.
  intros Hv. unfold setRange. cbn [value min max].
  rewrite max_zero_finite, Hv. cbn [lt gt]. unfold Rltb.
  destruct (Rlt_dec v (Rmax 0 mn)); cbn [set_value value max min lt gt];
    unfold Rltb;
    match goal with
    | |- context [Rlt_dec mx ?x] => destruct (Rlt_dec mx x)
    end; cbn [set_value value max]; reflexivity.
Qed.

(** X3.  [setRange] called with an upper bound below the lower bound it
    stores ([max < max(0, min)]) moves the value to the upper bound,
    wherever it was. *)
Theorem setRange_inverted_range_collapses (p : t) (v mn mx : R) :
  value p = Fin v -> mx < Rmax 0 mn ->
  value (setRange (Fin mn) (Fin mx) p) = Fin mx /\
  min (setRange (Fin mn) (Fin mx) p) = Fin (Rmax 0 mn) /\
  max (setRange (Fin mn) (Fin mx) p) = Fin mx.
Proof.
  intros Hv Hinv.
  destruct (setRange_bounds (Fin mn) (Fin mx) p) as (Emin & Emax & _).
  rewrite Emin, Emax, max_zero_finite.
  rewrite (setRange_value_finite p v mn mx Hv).
  repeat split.
  destruct (Rlt_dec v (Rmax 0 mn));
    match goal with
    | |- context [Rlt_dec mx ?x] => destruct (Rlt_dec mx x)
    end; try reflexivity; lra.
Qed.

Lemma setRange_inverted_range_collapses_witness :
  value (setRange (Fin 8) (Fin 2) (sample_parameter false)) = Fin 2 /\
  min (setRange (Fin 8) (Fin 2) (sample_parameter false)) = Fin (Rmax 0 8) /\
  max (setRange (Fin 8) (Fin 2) (sample_parameter false)) = Fin 2.
Proof.
  apply (setRange_inverted_range_collapses (sample_parameter false) 5 8 2).
  - reflexivity.
  - unfold Rmax. destruct (Rle_dec 0 8); lra.
Defined.

(** Clamping a clamped value changes nothing. *)
Lemma clamp_twice (lo hi v : R) :
  let c := if Rlt_dec hi (if Rlt_dec v lo then lo else v) then hi
           else if Rlt_dec v lo then lo else v in
  (if Rlt_dec hi (if Rlt_dec c lo then lo else c) then hi
   else if Rlt_dec c lo then lo else c) = c.
Proof.
  intros c. subst c.
  repeat (match goal with
          | |- context [Rlt_dec ?a ?b] =>
              lazymatch b with
              | context [Rlt_dec] => fail
              | _ => lazymatch a with
                     | context [Rlt_dec] => fail
                     | _ => destruct (Rlt_dec a b)
                     end
              end
          end; try lra);
    reflexivity.
Qed.

(** X4.  [setRange] is idempotent on a parameter with a finite value:
    calling it twice with the same finite bounds gives the state of the
    first call. *)
Theorem setRange_idempotent (p : t) (v mn mx : R) :
  value p = Fin v ->
  setRange (Fin mn) (Fin mx) (setRange (Fin mn) (Fin mx) p)
    = setRange (Fin mn) (Fin mx) p.
Proof.
  intros Hv.
  pose proof (setRange_value_finite p v mn mx Hv) as E1.
  destruct (setRange_bounds (Fin mn) (Fin mx) p) as (Emin & Emax & Ea & Eph).
  pose proof (setRange_value_finite _ _ mn mx E1) as E2.
  rewrite (clamp_twice (Rmax 0 mn) mx v) in E2.
  destruct (setRange_bounds (Fin mn) (Fin mx) (setRange (Fin mn) (Fin mx) p))
    as (Emin2 & Emax2 & Ea2 & Eph2).
  destruct (setRange (Fin mn) (Fin mx) (setRange (Fin mn) (Fin mx) p))
    as [a b c d e].
  destruct (setRange (Fin mn) (Fin mx) p) as [a' b' c' d' e'].
  cbn [value min max isAnimating phase] in *.
  congruence.
Qed.

Lemma setRange_idempotent_witness :
  setRange (Fin 8) (Fin 2) (setRange (Fin 8) (Fin 2) (sample_parameter false))
    = setRange (Fin 8) (Fin 2) (sample_parameter false).
Proof.
  apply (setRange_idempotent (sample_parameter false) 5 8 2). reflexivity.
Defined.

End ParameterRange.

(* ================================================================== *)
(** * Further properties: the response of a stage                      *)
(* ================================================================== *)

Section StageResponse.

Import FilterStage.

Lemma first_order_response (s : FilterStage.t) (p : AnimatedParameter.t)
  (f w : R) :
  body s = FirstOrderLowPass p -> AnimatedParameter.value p = Fin f ->
  0 < f ->
  getResponse s (Fin w)
    = mkComplex (Fin (f * f / (f * f + w * w)))
                (Fin (- f * w / (f * f + w * w))).
Proof.
  intros Hb Hv Hf. unfold getResponse. rewrite Hb, Hv. cbn [mul add neg].
  rewrite !div_finite by nra. reflexivity.
Qed.

Lemma second_order_denominator (f q w : R) :
  0 < f -> 0 < q ->
  (f * f - w * w) * (f * f - w * w) + f / q * w * (f / q * w) <> 0.
Proof.
  intros Hf Hq.
  assert (Hfq : 0 < f / q) by (apply Rdiv_lt_0_compat; assumption).
  intros E.
  assert (E1 : f * f - w * w = 0) by nra.
  assert (E2 : f / q * w = 0) by nra.
  assert (w = 0) by nra. subst w. nra.
Qed.

Lemma second_order_response (s : FilterStage.t) (p pq : AnimatedParameter.t)
  (f q w : R) :
  body s = SecondOrderLowPass p pq ->
  AnimatedParameter.value p = Fin f -> AnimatedParameter.value pq = Fin q ->
  0 < f -> 0 < q ->
  getResponse s (Fin w)
    = mkComplex
        (Fin (f * f * (f * f - w * w)
              / ((f * f - w * w) * (f * f - w * w)
                 + f / q * w * (f / q * w))))
        (Fin (- (f * f * (f / q * w))
              / ((f * f - w * w) * (f * f - w * w)
                 + f / q * w * (f / q * w)))).
Proof.
  intros Hb Hp Hq Hf Hq0. unfold getResponse. rewrite Hb, Hp, Hq.
  rewrite div_finite by lra. cbn [mul add sub neg].
  change (f * f + - (w * w)) with (f * f - w * w).
  pose proof (second_order_denominator f q w Hf Hq0).
  rewrite !div_finite by assumption. reflexivity.
Qed.

Lemma log10_1 : log10 1 = 0.
Proof. unfold log10. rewrite ln_1. unfold Rdiv. apply Rmult_0_l. Qed.

(** The decibel value of the magnitude 1 is 0. *)
Lemma decibels_of_one :
  (if (Fin 1 >? Fin 1e-10)%js then (Fin 20 * Math_log10 (Fin 1))%js
   else Fin (-200)) = Fin 0.
Proof.
  cbn [gt lt]. rewrite Rltb_true by lra.
  cbn [Math_log10]. rewrite Rltb_false, Reqb_false by lra.
  cbn [mul]. rewrite log10_1. f_equal. lra.
Qed.

(** X5.  Unity gain at DC: a stage with [f0 > 0] (and [Q > 0]) answers
    exactly [(1, 0)] at [omega = 0]; its magnitude there is 1 and its
    decibel value 0. *)
Theorem stage_unity_gain_at_dc (s : FilterStage.t) :
  valid_stage s ->
  getResponse s (Fin 0) = mkComplex (Fin 1) (Fin 0) /\
  getMagnitude s (Fin 0) = Fin 1 /\
  getMagnitudeDb s (Fin 0) = Fin 0.
Proof.
  intros Hs.
  assert (E : getResponse s (Fin 0) = mkComplex (Fin 1) (Fin 0)).
  { unfold valid_stage in Hs.
    destruct (body s) as [p | p pq] eqn:Hb.
    - destruct Hs as (f & Hv & Hf).
      rewrite (first_order_response s p f 0 Hb Hv Hf).
      f_equal; f_equal; field; nra.
    - destruct Hs as (f & q & Hv & Hf & Hq & Hq0).
      rewrite (second_order_response s p pq f q 0 Hb Hv Hq Hf Hq0).
      pose proof (second_order_denominator f q 0 Hf Hq0).
      f_equal; f_equal; field; repeat split; nra. }
  assert (Em : getMagnitude s (Fin 0) = Fin 1).
  { unfold getMagnitude. rewrite E. cbn [re im mul add].
    rewrite sqrt_finite by lra. f_equal.
    replace (1 * 1 + 0 * 0) with 1 by lra. apply sqrt_1. }
  repeat split; try assumption.
  unfold getMagnitudeDb. rewrite Em. apply decibels_of_one.
Qed.

Lemma stage_unity_gain_at_dc_witness :
  getResponse (biquad 1 2) (Fin 0) = mkComplex (Fin 1) (Fin 0) /\
  getMagnitude (biquad 1 2) (Fin 0) = Fin 1 /\
  getMagnitudeDb (biquad 1 2) (Fin 0) = Fin 0.
Proof.
  apply (stage_unity_gain_at_dc (biquad 1 2)).
  exists 1, 2. repeat split; try reflexivity; lra.
Defined.

Lemma first_order_magnitude (s : FilterStage.t) (p : AnimatedParameter.t)
  (f w : R) :
  body s = FirstOrderLowPass p -> AnimatedParameter.value p = Fin f ->
  0 < f ->
  getMagnitude s (Fin w) = Fin (f / sqrt (f * f + w * w)).
Proof.
  intros Hb Hv Hf. unfold getMagnitude.
  rewrite (first_order_response s p f w Hb Hv Hf). cbn [re im mul add].
  assert (HD : 0 < f * f + w * w) by nra.
  assert (E : f * f / (f * f + w * w) * (f * f / (f * f + w * w))
              + - f * w / (f * f + w * w) * (- f * w / (f * f + w * w))
              = f * f / (f * f + w * w)) by (field; lra).
  rewrite E. rewrite sqrt_finite.
  - f_equal. rewrite sqrt_div_alt by assumption.
    rewrite sqrt_square by lra. reflexivity.
  - apply Rmult_le_pos; [nra | left; apply Rinv_0_lt_compat; assumption].
Qed.

(** X6.  The magnitude of a first-order stage with [f0 > 0] is
    [f0 / sqrt(f0^2 + omega^2)]: it is positive, at most 1, and strictly
    decreasing in [omega >= 0]. *)
Theorem first_order_magnitude_decreasing (s : FilterStage.t)
  (p : AnimatedParameter.t) (f w1 w2 : R) :
  body s = FirstOrderLowPass p -> AnimatedParameter.value p = Fin f ->
  0 < f -> 0 <= w1 < w2 ->
  exists m1 m2,
    getMagnitude s (Fin w1) = Fin m1 /\ getMagnitude s (Fin w2) = Fin m2 /\
    m1 = f / sqrt (f * f + w1 * w1) /\ m2 = f / sqrt (f * f + w2 * w2) /\
    0 < m2 < m1 /\ m1 <= 1.
Proof.
  intros Hb Hv Hf Hw.
  exists (f / sqrt (f * f + w1 * w1)), (f / sqrt (f * f + w2 * w2)).
  rewrite (first_order_magnitude s p f w1 Hb Hv Hf).
  rewrite (first_order_magnitude s p f w2 Hb Hv Hf).
  repeat split.
  - apply Rdiv_lt_0_compat; [assumption | apply sqrt_lt_R0; nra].
  - assert (H1 : 0 < sqrt (f * f + w1 * w1)) by (apply sqrt_lt_R0; nra).
    assert (H12 : sqrt (f * f + w1 * w1) < sqrt (f * f + w2 * w2))
      by (apply sqrt_lt_1_alt; nra).
    unfold Rdiv. apply Rmult_lt_compat_l; [assumption |].
    apply Rinv_lt_contravar; [nra | assumption].
  - assert (H1 : f <= sqrt (f * f + w1 * w1)).
    { rewrite <- (sqrt_square f) at 1 by lra. apply sqrt_le_1_alt. nra. }
    apply (Rmult_le_reg_r (sqrt (f * f + w1 * w1))); [lra |].
    unfold Rdiv. rewrite Rmult_assoc, Rinv_l by lra. lra.
Qed.

Lemma first_order_magnitude_decreasing_witness :
  exists m1 m2,
    getMagnitude (single_pole 1) (Fin 0) = Fin m1 /\
    getMagnitude (single_pole 1) (Fin 2) = Fin m2 /\
    m1 = 1 / sqrt (1 * 1 + 0 * 0) /\ m2 = 1 / sqrt (1 * 1 + 2 * 2) /\
    0 < m2 < m1 /\ m1 <= 1.
Proof.
  apply (first_order_magnitude_decreasing (single_pole 1)
           (AnimatedParameter.new None (Fin 1)) 1 0 2);
    try reflexivity; lra.
Defined.

(** X7.  At [omega = f0] a first-order stage has the magnitude
    [1 / sqrt 2] (the corner frequency, [-10 log10 2] dB) and a
    second-order stage has the magnitude [Q] (the resonance), its response
    being the imaginary number [-Q j]. *)
Theorem magnitude_at_natural_frequency (s1 s2 : FilterStage.t)
  (p1 p2 pq : AnimatedParameter.t) (f1 f2 q : R) :
  body s1 = FirstOrderLowPass p1 -> AnimatedParameter.value p1 = Fin f1 ->
  0 < f1 ->
  body s2 = SecondOrderLowPass p2 pq ->
  AnimatedParameter.value p2 = Fin f2 -> AnimatedParameter.value pq = Fin q ->
  0 < f2 -> 0 < q ->
  getMagnitude s1 (Fin f1) = Fin (/ sqrt 2) /\
  getMagnitudeDb s1 (Fin f1) = Fin (- 10 * log10 2) /\
  getResponse s2 (Fin f2) = mkComplex (Fin 0) (Fin (- q)) /\
  getMagnitude s2 (Fin f2) = Fin q.
Proof.
  intros Hb1 Hv1 Hf1 Hb2 Hv2 Hq Hf2 Hq0.
  assert (Hs2 : 0 < sqrt 2) by (apply sqrt_lt_R0; lra).
  assert (Em : getMagnitude s1 (Fin f1) = Fin (/ sqrt 2)).
  { rewrite (first_order_magnitude s1 p1 f1 f1 Hb1 Hv1 Hf1). f_equal.
    replace (f1 * f1 + f1 * f1) with (2 * (f1 * f1)) by lra.
    rewrite sqrt_mult by nra. rewrite sqrt_square by lra.
    field. lra. }
  assert (Er : getResponse s2 (Fin f2) = mkComplex (Fin 0) (Fin (- q))).
  { rewrite (second_order_response s2 p2 pq f2 q f2 Hb2 Hv2 Hq Hf2 Hq0).
    pose proof (second_order_denominator f2 q f2 Hf2 Hq0).
    assert (Hd : (f2 * f2 - f2 * f2) * (f2 * f2 - f2 * f2) * (q * q)
                 + f2 * f2 * (f2 * f2) <> 0).
    { replace (f2 * f2 - f2 * f2) with 0 by lra. nra. }
    f_equal; f_equal; field; repeat split; try lra; assumption. }
  split; [assumption |]. split; [| split; [assumption |]].
  - unfold getMagnitudeDb. rewrite Em. cbn [gt lt].
    assert (Hinv : 1 / 2 < / sqrt 2).
    { assert (sqrt 2 < 2).
      { rewrite <- (sqrt_square 2) at 2 by lra. apply sqrt_lt_1_alt. lra. }
      replace (1 / 2) with (/ 2) by lra.
      apply Rinv_lt_contravar; [nra | assumption]. }
    rewrite Rltb_true by lra.
    cbn [Math_log10]. rewrite Rltb_false, Reqb_false by lra. cbn [mul].
    f_equal. unfold log10. rewrite ln_Rinv by assumption.
    assert (E2 : ln 2 = 2 * ln (sqrt 2)).
    { rewrite <- (sqrt_sqrt 2) at 1 by lra. rewrite ln_mult by assumption.
      lra. }
    pose proof ln_10_pos. rewrite E2. field. lra.
  - unfold getMagnitude. rewrite Er. cbn [re im mul add].
    rewrite sqrt_finite by nra. f_equal.
    replace (0 * 0 + - q * - q) with (q * q) by lra.
    apply sqrt_square. lra.
Qed.

Lemma magnitude_at_natural_frequency_witness :
  getMagnitude (single_pole 1) (Fin 1) = Fin (/ sqrt 2) /\
  getMagnitudeDb (single_pole 1) (Fin 1) = Fin (- 10 * log10 2) /\
  getResponse (biquad 1 2) (Fin 1) = mkComplex (Fin 0) (Fin (- 2)) /\
  getMagnitude (biquad 1 2) (Fin 1) = Fin 2.
Proof.
  apply (magnitude_at_natural_frequency (single_pole 1) (biquad 1 2)
           (AnimatedParameter.new None (Fin 1))
           (AnimatedParameter.new None (Fin 1))
           (AnimatedParameter.new None (Fin 2)) 1 1 2);
    try reflexivity; lra.
Defined.

End StageResponse.

(* ================================================================== *)
(** * Further properties: the poles of a second-order stage            *)
(* ================================================================== *)

Section BiquadPoleValues.

Import FilterStage.

(** The two poles [getPoles] returns, in each branch. *)
Lemma getPoles_second_order_values (s : FilterStage.t)
  (p pq : AnimatedParameter.t) (f q : R) :
  body s = SecondOrderLowPass p pq ->
  AnimatedParameter.value p = Fin f -> AnimatedParameter.value pq = Fin q ->
  0 < q ->
  let alpha := f / (2 * q) in
  let d := f * f / (4 * q * q) - f * f in
  (d < 0 ->
   getPoles s = [mkComplex (Fin (- alpha)) (Fin (sqrt (- d)));
                 mkComplex (Fin (- alpha)) (Fin (- sqrt (- d)))]) /\
  (0 <= d ->
   getPoles s = [mkComplex (Fin (- alpha + sqrt d)) (Fin 0);
                 mkComplex (Fin (- alpha - sqrt d)) (Fin 0)]).
Proof.
  intros Hb Hp Hpq Hq alpha d.
  assert (Hqq : 4 * q * q <> 0) by nra.
  unfold getPoles. rewrite Hb, Hp, Hpq. cbn [mul].
  rewrite !div_finite by lra. cbn [sub neg add mul].
  change (f * f / (4 * q * q) + - (f * f)) with d.
  fold alpha. cbn [ge le lt negb].
  split; intros Hd.
  - rewrite (Rltb_true d 0 Hd). cbn [negb neg].
    rewrite sqrt_finite by lra. reflexivity.
  - rewrite (Rltb_false d 0) by lra. cbn [negb].
    rewrite sqrt_finite by lra. reflexivity.
Qed.

(** X8.  For [f0 > 0] and [Q > 0], [getPoles] returns two poles, and each
    pole [a + b j] is a root of the characteristic polynomial
    [s^2 + (f0/Q) s + f0^2]: its real part [a^2 - b^2 + (f0/Q) a + f0^2]
    and its imaginary part [2 a b + (f0/Q) b] both vanish. *)
Theorem getPoles_roots_of_characteristic (s : FilterStage.t)
  (p pq : AnimatedParameter.t) (f q : R) :
  body s = SecondOrderLowPass p pq ->
  AnimatedParameter.value p = Fin f -> AnimatedParameter.value pq = Fin q ->
  0 < f -> 0 < q ->
  List.length (getPoles s) = 2%nat /\
  forall pole, In pole (getPoles s) ->
    exists a b, pole = mkComplex (Fin a) (Fin b) /\
      a * a - b * b + f / q * a + f * f = 0 /\
      2 * a * b + f / q * b = 0.
Proof.
  intros Hb Hp Hpq Hf Hq.
  destruct (getPoles_second_order_values s p pq f q Hb Hp Hpq Hq)
    as [Hneg Hpos].
  set (alpha := f / (2 * q)) in *.
  set (d := f * f / (4 * q * q) - f * f) in *.
  assert (Ea : f / q = 2 * alpha) by (unfold alpha; field; lra).
  assert (Ed : d = alpha * alpha - f * f) by (unfold d, alpha; field; lra).
  destruct (Rlt_dec d 0) as [Hd | Hd].
  - rewrite (Hneg Hd). split; [reflexivity |].
    assert (Es : sqrt (- d) * sqrt (- d) = - d) by (apply sqrt_sqrt; lra).
    intros pole [<- | [<- | []]]; do 2 eexists;
      (split; [reflexivity |]); rewrite Ea; split; nra.
  - rewrite (Hpos ltac:(lra)). split; [reflexivity |].
    assert (Es : sqrt d * sqrt d = d) by (apply sqrt_sqrt; lra).
    intros pole [<- | [<- | []]]; do 2 eexists;
      (split; [reflexivity |]); rewrite Ea; split; nra.
Qed.

Lemma getPoles_roots_of_characteristic_witness :
  List.length (getPoles (biquad 1 2)) = 2%nat /\
  forall pole, In pole (getPoles (biquad 1 2)) ->
    exists a b, pole = mkComplex (Fin a) (Fin b) /\
      a * a - b * b + 1 / 2 * a + 1 * 1 = 0 /\
      2 * a * b + 1 / 2 * b = 0.
Proof.
  apply (getPoles_roots_of_characteristic (biquad 1 2)
           (AnimatedParameter.new None (Fin 1))
           (AnimatedParameter.new None (Fin 2)) 1 2);
    try reflexivity; lra.
Defined.

(** The poles of a stage built from the pole [sigma + omega j]. *)
Lemma decomposed_pole_values (s : FilterStage.t)
  (p pq : AnimatedParameter.t) (sigma omega : R) :
  body s = SecondOrderLowPass p pq ->
  AnimatedParameter.value p
    = Math_sqrt (Fin sigma * Fin sigma + Fin omega * Fin omega)%js ->
  AnimatedParameter.value pq
    = (AnimatedParameter.value p / (- Fin 2 * Fin sigma))%js ->
  sigma < 0 -> 0 < omega ->
  exists a b,
    getPoles s = [mkComplex (Fin a) (Fin b); mkComplex (Fin a) (Fin (- b))] /\
    a = sigma /\ b = omega.
Proof.
  intros Hb Hp Hpq Hs Hw.
  set (f := sqrt (sigma * sigma + omega * omega)).
  assert (Hff : f * f = sigma * sigma + omega * omega)
    by (apply sqrt_sqrt; nra).
  assert (Hf : 0 < f) by (apply sqrt_lt_R0; nra).
  assert (Ep : AnimatedParameter.value p = Fin f).
  { rewrite Hp. cbn [mul add]. rewrite sqrt_finite by nra. reflexivity. }
  assert (Eq : AnimatedParameter.value pq = Fin (f / (-2 * sigma))).
  { rewrite Hpq, Ep. cbn [neg mul]. rewrite div_finite by lra. reflexivity. }
  assert (Hq : 0 < f / (-2 * sigma)) by (apply Rdiv_lt_0_compat; lra).
  destruct (getPoles_second_order_values s p pq f (f / (-2 * sigma))
              Hb Ep Eq Hq) as [Hneg _].
  assert (Ea : f / (2 * (f / (-2 * sigma))) = - sigma) by (field; lra).
  assert (Ed : f * f / (4 * (f / (-2 * sigma)) * (f / (-2 * sigma))) - f * f
               = - (omega * omega)).
  { replace (f * f / (4 * (f / (-2 * sigma)) * (f / (-2 * sigma))))
      with (sigma * sigma) by (field; lra).
    lra. }
  rewrite Hneg by (rewrite Ed; nra).
  rewrite Ea, Ed.
  replace (- - (omega * omega)) with (omega * omega) by lra.
  rewrite sqrt_square by lra.
  replace (- - sigma) with sigma by lra.
  exists sigma, omega. repeat split.
Qed.

(** X9.  Round trip of the decomposition.  A second-order stage whose
    parameters are computed from a pole [sigma + omega j] with
    [sigma < 0 < omega] as [getBestSolutionStages] does,
    [f0 = Math.sqrt(sigma*sigma + omega*omega)] and
    [Q = f0 / (-2 * sigma)], has exactly that pole and its conjugate as
    poles. *)
Theorem getPoles_of_decomposed_pole (s : FilterStage.t)
  (p pq : AnimatedParameter.t) (sigma omega : R) :
  body s = SecondOrderLowPass p pq ->
  AnimatedParameter.value p
    = Math_sqrt (Fin sigma * Fin sigma + Fin omega * Fin omega)%js ->
  AnimatedParameter.value pq
    = (AnimatedParameter.value p / (- Fin 2 * Fin sigma))%js ->
  sigma < 0 -> 0 < omega ->
  exists a b,
    getPoles s = [mkComplex (Fin a) (Fin b); mkComplex (Fin a) (Fin (- b))] /\
    a = sigma /\ b = omega.
Proof. exact (decomposed_pole_values s p pq sigma omega). Qed.

Lemma getPoles_of_decomposed_pole_witness :
  exists a b,
    getPoles
      (fst (Legacy.newSecondOrderLowPass 1
              (Math_sqrt (Fin (-3) * Fin (-3) + Fin 4 * Fin 4)%js)
              (Math_sqrt (Fin (-3) * Fin (-3) + Fin 4 * Fin 4)
               / (- Fin 2 * Fin (-3)))%js))
      = [mkComplex (Fin a) (Fin b); mkComplex (Fin a) (Fin (- b))] /\
    a = -3 /\ b = 4.
Proof.
  apply (getPoles_of_decomposed_pole _
           (Legacy.newAnimatedParameter
              (Math_sqrt (Fin (-3) * Fin (-3) + Fin 4 * Fin 4)%js)
              (Fin 0.01) (Fin 100))
           (Legacy.newAnimatedParameter
              (Math_sqrt (Fin (-3) * Fin (-3) + Fin 4 * Fin 4)
               / (- Fin 2 * Fin (-3)))%js
              (Fin 0.1) (Fin 20)));
    try reflexivity; lra.
Defined.

End BiquadPoleValues.

(* ================================================================== *)
(** * Further properties: the response of a cascade                    *)
(* ================================================================== *)

Section CascadeProduct.

Import FilterCascade.

(** One turn of the loop on a finite accumulator and a valid active
    stage. *)
Lemma multiply_stage_finite (w : R) (s : FilterStage.t) (a b : R) :
  FilterStage.active s = true -> valid_stage s ->
  exists x y,
    FilterStage.getResponse s (Fin w) = mkComplex (Fin x) (Fin y) /\
    multiply_stage (Fin w) (mkComplex (Fin a) (Fin b)) s
      = mkComplex (Fin (a * x - b * y)) (Fin (a * y + b * x)).
Proof.
  intros Hact Hs.
  destruct (stage_response_finite s w Hs) as (x & y & E).
  exists x, y. split; [assumption |].
  unfold multiply_stage. rewrite Hact, E. reflexivity.
Qed.

Lemma multiply_stage_inactive (omega : num) (s : FilterStage.t)
  (acc : Complex) :
  FilterStage.active s = false -> multiply_stage omega acc s = acc.
Proof. intros H. unfold multiply_stage. rewrite H. reflexivity. Qed.

(** Two turns of the loop commute. *)
Lemma multiply_stage_swap (w : R) (s1 s2 : FilterStage.t) (a b : R) :
  (FilterStage.active s1 = true -> valid_stage s1) ->
  (FilterStage.active s2 = true -> valid_stage s2) ->
  multiply_stage (Fin w) (multiply_stage (Fin w) (mkComplex (Fin a) (Fin b)) s1)
                 s2
  = multiply_stage (Fin w)
      (multiply_stage (Fin w) (mkComplex (Fin a) (Fin b)) s2) s1.
Proof.
  intros H1 H2.
  destruct (FilterStage.active s1) eqn:A1;
    destruct (FilterStage.active s2) eqn:A2;
    rewrite ?(multiply_stage_inactive _ s1) by assumption;
    rewrite ?(multiply_stage_inactive _ s2) by assumption;
    try reflexivity.
  destruct (multiply_stage_finite w s1 a b A1 (H1 eq_refl))
    as (x1 & y1 & R1 & E1).
  destruct (multiply_stage_finite w s2 a b A2 (H2 eq_refl))
    as (x2 & y2 & R2 & E2).
  rewrite E1, E2.
  destruct (multiply_stage_finite w s2 (a * x1 - b * y1) (a * y1 + b * x1)
              A2 (H2 eq_refl)) as (x2' & y2' & R2' & E12).
  destruct (multiply_stage_finite w s1 (a * x2 - b * y2) (a * y2 + b * x2)
              A1 (H1 eq_refl)) as (x1' & y1' & R1' & E21).
  rewrite R1 in R1'. rewrite R2 in R2'.
  injection R1' as <- <-. injection R2' as <- <-.
  rewrite E12, E21. f_equal; f_equal; ring.
Qed.

Lemma fold_permutation (w : R) (l l' : list FilterStage.t) :
  Permutation l l' ->
  (forall s, In s l -> FilterStage.active s = true -> valid_stage s) ->
  forall a b,
    fold_left (multiply_stage (Fin w)) l (mkComplex (Fin a) (Fin b))
    = fold_left (multiply_stage (Fin w)) l' (mkComplex (Fin a) (Fin b)).
Proof.
  intros HP. induction HP as [| s l l' HP IH | s1 s2 l | l l' l'' HP1 IH1 HP2 IH2];
    intros Hv a b.
  - reflexivity.
  - cbn [fold_left].
    destruct (FilterStage.active s) eqn:A.
    + destruct (multiply_stage_finite w s a b A (Hv s (or_introl eq_refl) A))
        as (x & y & _ & E).
      rewrite E. apply IH. intros s' Hs'. apply Hv. right. assumption.
    + rewrite multiply_stage_inactive by assumption.
      apply IH. intros s' Hs'. apply Hv. right. assumption.
  - cbn [fold_left]. f_equal. apply multiply_stage_swap.
    + apply Hv. left. reflexivity.
    + apply Hv. right. left. reflexivity.
  - rewrite IH1 by assumption. apply IH2.
    intros s Hs. apply Hv. apply Permutation_in with (l := l');
      [apply Permutation_sym; assumption | assumption].
Qed.

(** X10.  The order of the stages does not matter: two cascades with the
    same gain whose stage lists are permutations of each other, the active
    stages satisfying the invariant, have the same response at every finite
    frequency. *)
Theorem getResponse_order_independent (c c' : t) (w : R) :
  Permutation (stages c) (stages c') ->
  globalGainDb c = globalGainDb c' ->
  (forall s, In s (stages c) -> FilterStage.active s = true -> valid_stage s) ->
  getResponse c (Fin w) = getResponse c' (Fin w).
Proof.
  intros HP Hg Hv. unfold getResponse.
  rewrite (fold_permutation w _ _ HP Hv 1 0), Hg. reflexivity.
Qed.

Lemma getResponse_order_independent_witness :
  getResponse (mk [biquad 1 2; single_pole 1] (Fin 1) (Fin (-3))) (Fin 2)
  = getResponse (mk [single_pole 1; biquad 1 2] (Fin 1) (Fin (-3))) (Fin 2).
Proof.
  apply (getResponse_order_independent
           (mk [biquad 1 2; single_pole 1] (Fin 1) (Fin (-3)))
           (mk [single_pole 1; biquad 1 2] (Fin 1) (Fin (-3))) 2).
  - apply perm_swap.
  - reflexivity.
  - intros s [<- | [<- | []]] _.
    + exists 1, 2. repeat split; try reflexivity; lra.
    + exists 1. split; [reflexivity | lra].
Defined.

Lemma fold_active_only (omega : num) (l : list FilterStage.t) (acc : Complex) :
  fold_left (multiply_stage omega) l acc
  = fold_left (multiply_stage omega) (filter FilterStage.active l) acc.
Proof.
  revert acc. induction l as [| s l IH]; intros acc; [reflexivity |].
  cbn [fold_left filter].
  destruct (FilterStage.active s) eqn:A.
  - cbn [fold_left]. apply IH.
  - rewrite multiply_stage_inactive by assumption. apply IH.
Qed.

(** X11.  An inactive stage is transparent: at every [omega], whatever the
    parameters of the stages, the response of a cascade is the response of
    the cascade without its inactive stages; in particular, switching one
    stage off gives the response of the cascade without that stage. *)
Theorem getResponse_ignores_inactive (c : t) (omega : num) :
  getResponse c omega
  = getResponse (mk (filter FilterStage.active (stages c))
                    (animationSpeed c) (globalGainDb c)) omega
  /\
  forall l1 l2 s,
    getResponse
      (mk (l1 ++ FilterStage.mk (FilterStage.id s) false (FilterStage.body s)
              :: l2)
          (animationSpeed c) (globalGainDb c)) omega
    = getResponse (mk (l1 ++ l2) (animationSpeed c) (globalGainDb c)) omega.
Proof.
  split.
  - unfold getResponse. cbn [stages globalGainDb].
    rewrite fold_active_only. reflexivity.
  - intros l1 l2 s. unfold getResponse. cbn [stages globalGainDb].
    rewrite !fold_left_app. cbn [fold_left].
    rewrite multiply_stage_inactive by reflexivity. reflexivity.
Qed.

(** The modulus of a product of complex numbers. *)
Lemma modulus_product (a b x y : R) :
  sqrt ((a * x - b * y) * (a * x - b * y) + (a * y + b * x) * (a * y + b * x))
  = sqrt (a * a + b * b) * sqrt (x * x + y * y).
Proof.
  rewrite <- sqrt_mult by nra. f_equal. ring.
Qed.

Lemma fold_modulus (w : R) (l : list FilterStage.t) :
  (forall s, In s l -> valid_stage s) ->
  forall a b, exists a' b' ms,
    fold_left (multiply_stage (Fin w)) l (mkComplex (Fin a) (Fin b))
      = mkComplex (Fin a') (Fin b') /\
    Forall2 (fun s m => FilterStage.getMagnitude s (Fin w) = Fin m)
            (filter FilterStage.active l) ms /\
    sqrt (a' * a' + b' * b')
      = sqrt (a * a + b * b) * fold_right Rmult 1 ms.
Proof.
  induction l as [| s l IH]; intros Hv a b.
  - exists a, b, []. cbn. repeat split; [constructor | lra].
  - cbn [fold_left filter].
    destruct (FilterStage.active s) eqn:A.
    + destruct (multiply_stage_finite w s a b A (Hv s (or_introl eq_refl)))
        as (x & y & R & E).
      rewrite E.
      destruct (IH (fun s' H => Hv s' (or_intror H))
                   (a * x - b * y) (a * y + b * x))
        as (a' & b' & ms & Ef & HF & Hm).
      exists a', b', (sqrt (x * x + y * y) :: ms).
      split; [assumption |]. split.
      * constructor; [| assumption].
        unfold FilterStage.getMagnitude. rewrite R. cbn [re im].
        apply (magnitude_finite x y).
      * rewrite Hm, modulus_product. cbn [fold_right]. ring.
    + rewrite multiply_stage_inactive by assumption.
      apply IH. intros s' H. apply Hv. right. assumption.
Qed.

(** X12.  The magnitude of a cascade is the product of the magnitudes of
    its active stages, times the linear gain [10^(globalGainDb/20)]
    (stages satisfying the invariant, finite frequency and gain). *)
Theorem getMagnitude_is_product (c : t) (g w : R) :
  (forall s, In s (stages c) -> valid_stage s) ->
  globalGainDb c = Fin g ->
  exists ms,
    Forall2 (fun s m => FilterStage.getMagnitude s (Fin w) = Fin m)
            (filter FilterStage.active (stages c)) ms /\
    getMagnitude c (Fin w) = Fin (Rpower 10 (g / 20) * fold_right Rmult 1 ms).
Proof.
  intros Hv Hg.
  destruct (fold_modulus w (stages c) Hv 1 0) as (a' & b' & ms & Ef & HF & Hm).
  exists ms. split; [assumption |].
  unfold getMagnitude, getResponse. rewrite Ef, Hg.
  rewrite div_finite by lra. cbn [Math_pow10 re im mul add].
  pose proof (Rpower_10_pos (g / 20)) as HG.
  rewrite sqrt_finite by nra. f_equal.
  replace (a' * Rpower 10 (g / 20) * (a' * Rpower 10 (g / 20))
           + b' * Rpower 10 (g / 20) * (b' * Rpower 10 (g / 20)))
    with ((a' * a' + b' * b') * (Rpower 10 (g / 20) * Rpower 10 (g / 20)))
    by ring.
  rewrite sqrt_mult by nra. rewrite sqrt_square by lra.
  rewrite Hm. replace (1 * 1 + 0 * 0) with 1 by lra. rewrite sqrt_1. ring.
Qed.

Lemma getMagnitude_is_product_witness :
  exists ms,
    Forall2 (fun s m => FilterStage.getMagnitude s (Fin 2) = Fin m)
            (filter FilterStage.active
                    (stages (mk [biquad 1 2; single_pole 1]
                                (Fin 1) (Fin (-3))))) ms /\
    getMagnitude (mk [biquad 1 2; single_pole 1] (Fin 1) (Fin (-3))) (Fin 2)
      = Fin (Rpower 10 (-3 / 20) * fold_right Rmult 1 ms).
Proof.
  apply (getMagnitude_is_product
           (mk [biquad 1 2; single_pole 1] (Fin 1) (Fin (-3))) (-3) 2).
  - intros s [<- | [<- | []]].
    + exists 1, 2. repeat split; try reflexivity; lra.
    + exists 1. split; [reflexivity | lra].
  - reflexivity.
Defined.

End CascadeProduct.

(* ================================================================== *)
(** * Further properties: editing and animating a cascade              *)
(* ================================================================== *)

Section CascadeEditing.

Import FilterCascade.

Lemma filter_absent_id (i : Z) (l : list FilterStage.t) :
  (forall s, In s l -> FilterStage.id s <> i) ->
  filter (fun s => negb (FilterStage.id s =? i)%Z) l = l.
Proof.
  induction l as [| s l IH]; intros H; [reflexivity |].
  cbn [filter].
  assert (E : (FilterStage.id s =? i)%Z = false)
    by (apply Z.eqb_neq, H; left; reflexivity).
  rewrite E. cbn [negb]. f_equal. apply IH.
  intros s' Hs'. apply H. right. assumption.
Qed.

(** X13.  [addStage] appends the stage and returns it; when no stage of the
    cascade carries the identity of the new stage, [removeStage] with that
    identity undoes [addStage].  More generally [removeStage] with an
    identity no stage carries changes nothing. *)
Theorem addStage_removeStage_round_trip (s : FilterStage.t) (c : t) :
  (forall s', In s' (stages c) -> FilterStage.id s' <> FilterStage.id s) ->
  snd (addStage s c) = s /\
  stages (fst (addStage s c)) = stages c ++ [s] /\
  removeStage (FilterStage.id s) (fst (addStage s c)) = c /\
  removeStage (FilterStage.id s) c = c.
Proof.
  intros Hfresh. split; [reflexivity | split; [reflexivity |]].
  destruct c as [l sp g]. unfold removeStage, addStage.
  cbn [fst stages animationSpeed globalGainDb] in *.
  split; f_equal.
  - rewrite filter_app, filter_absent_id by assumption.
    cbn [filter]. rewrite Z.eqb_refl. cbn [negb]. apply app_nil_r.
  - apply filter_absent_id. assumption.
Qed.

Lemma addStage_removeStage_round_trip_witness :
  snd (addStage (FilterStage.mk 7 true (FilterStage.body (biquad 1 2)))
                (mk [single_pole 1] (Fin 1) (Fin 0)))
    = FilterStage.mk 7 true (FilterStage.body (biquad 1 2)) /\
  stages (fst (addStage (FilterStage.mk 7 true (FilterStage.body (biquad 1 2)))
                        (mk [single_pole 1] (Fin 1) (Fin 0))))
    = stages (mk [single_pole 1] (Fin 1) (Fin 0))
      ++ [FilterStage.mk 7 true (FilterStage.body (biquad 1 2))] /\
  removeStage (FilterStage.id
                 (FilterStage.mk 7 true (FilterStage.body (biquad 1 2))))
              (fst (addStage
                      (FilterStage.mk 7 true (FilterStage.body (biquad 1 2)))
                      (mk [single_pole 1] (Fin 1) (Fin 0))))
    = mk [single_pole 1] (Fin 1) (Fin 0) /\
  removeStage (FilterStage.id
                 (FilterStage.mk 7 true (FilterStage.body (biquad 1 2))))
              (mk [single_pole 1] (Fin 1) (Fin 0))
    = mk [single_pole 1] (Fin 1) (Fin 0).
Proof.
  apply (addStage_removeStage_round_trip
           (FilterStage.mk 7 true (FilterStage.body (biquad 1 2)))
           (mk [single_pole 1] (Fin 1) (Fin 0))).
  intros s' [<- | []]. cbn. lia.
Defined.

(** X14.  [removeStage] is idempotent, and two removals commute. *)
Theorem removeStage_idempotent_commutes (i j : Z) (c : t) :
  removeStage i (removeStage i c) = removeStage i c /\
  removeStage i (removeStage j c) = removeStage j (removeStage i c).
Proof.
  destruct c as [l sp g]. unfold removeStage.
  cbn [stages animationSpeed globalGainDb]. split; f_equal.
  - induction l as [| s l IH]; [reflexivity |].
    cbn [filter]. destruct (FilterStage.id s =? i)%Z eqn:E; cbn [negb].
    + assumption.
    + cbn [filter]. rewrite E. cbn [negb]. f_equal. assumption.
  - induction l as [| s l IH]; [reflexivity |].
    cbn [filter].
    destruct (FilterStage.id s =? i)%Z eqn:Ei;
      destruct (FilterStage.id s =? j)%Z eqn:Ej;
      cbn [negb filter]; rewrite ?Ei, ?Ej; cbn [negb];
      try assumption; f_equal; assumption.
Qed.

Lemma map_parameters_response (f : AnimatedParameter.t -> AnimatedParameter.t)
  (s : FilterStage.t) (omega : num) :
  (forall p, AnimatedParameter.value (f p) = AnimatedParameter.value p) ->
  FilterStage.getResponse (FilterStage.map_parameters f s) omega
  = FilterStage.getResponse s omega.
Proof.
  intros Hf. unfold FilterStage.getResponse, FilterStage.map_parameters.
  cbn [FilterStage.body].
  destruct (FilterStage.body s) as [p | p q]; rewrite ?Hf; reflexivity.
Qed.

Lemma map_stages_response (f : AnimatedParameter.t -> AnimatedParameter.t)
  (c : t) (omega : num) :
  (forall p, AnimatedParameter.value (f p) = AnimatedParameter.value p) ->
  getResponse (map_stages f c) omega = getResponse c omega.
Proof.
  intros Hf. unfold getResponse, map_stages. cbn [stages globalGainDb].
  f_equal; f_equal.
  all: generalize (mkComplex (Fin 1) (Fin 0)); induction (stages c) as [| s l IH];
    intros acc; [reflexivity |]; cbn [map fold_left];
    rewrite IH; f_equal; unfold multiply_stage;
    rewrite map_parameters_response by assumption; reflexivity.
Qed.

(** X15.  [playAll] and [pauseAll] leave the filter as it is: the response
    at every [omega], the gain, the animation speed and the identities of
    the stages are unchanged; after [playAll] every parameter of every
    stage is animating, after [pauseAll] none is. *)
Theorem playAll_pauseAll_keep_response (c : t) (omega : num) :
  getResponse (playAll c) omega = getResponse c omega /\
  getResponse (pauseAll c) omega = getResponse c omega /\
  map FilterStage.id (stages (playAll c)) = map FilterStage.id (stages c) /\
  map FilterStage.id (stages (pauseAll c)) = map FilterStage.id (stages c) /\
  (forall s p, In s (stages (playAll c)) ->
               In p (FilterStage.getParameters s) ->
               AnimatedParameter.isAnimating p = true) /\
  (forall s p, In s (stages (pauseAll c)) ->
               In p (FilterStage.getParameters s) ->
               AnimatedParameter.isAnimating p = false).
Proof.
  split; [apply map_stages_response; reflexivity |].
  split; [apply map_stages_response; reflexivity |].
  unfold playAll, pauseAll, map_stages. cbn [stages].
  split; [rewrite map_map; reflexivity |].
  split; [rewrite map_map; reflexivity |].
  split; intros s p Hs Hp; apply in_map_iff in Hs;
    destruct Hs as (s0 & <- & _);
    unfold FilterStage.getParameters, FilterStage.map_parameters in Hp;
    cbn [FilterStage.body] in Hp;
    destruct (FilterStage.body s0) as [p0 | p0 q0];
    cbn [In] in Hp; intuition (subst; reflexivity).
Qed.

Lemma update_not_animating (dt sp : num) (p : AnimatedParameter.t) :
  AnimatedParameter.isAnimating p = false ->
  AnimatedParameter.update dt sp p = p.
Proof. intros H. unfold AnimatedParameter.update. rewrite H. reflexivity. Qed.

(** X16.  Pausing freezes the cascade: after [pauseAll],
    [updateAnimations] changes nothing, whatever the time step. *)
Theorem pauseAll_freezes (c : t) (deltaTime : num) :
  updateAnimations deltaTime (pauseAll c) = pauseAll c.
Proof.
  destruct c as [l sp g].
  unfold updateAnimations, pauseAll, map_stages.
  cbn [stages animationSpeed globalGainDb]. f_equal.
  rewrite map_map. apply map_ext. intros s.
  unfold FilterStage.map_parameters. cbn [FilterStage.id FilterStage.active
                                          FilterStage.body].
  destruct (FilterStage.body s) as [p | p q];
    rewrite !update_not_animating by reflexivity; reflexivity.
Qed.

Lemma update_bounded (dt sp : R) (p : AnimatedParameter.t) :
  bounded_parameter p ->
  bounded_parameter (AnimatedParameter.update (Fin dt) (Fin sp) p).
Proof.
  intros (v & lo & hi & ph & Hv & Hlo & Hhi & Hph & Hb).
  destruct (AnimatedParameter.isAnimating p) eqn:Ha.
  - destruct (update_value_finite p ph dt sp lo hi Ha Hph Hlo Hhi)
      as (ph' & Eph & Ev & Emin & Emax).
    pose proof (SIN_bound ph') as [Hs1 Hs2].
    exists (lo + (sin ph' + 1) / 2 * (hi - lo)), lo, hi, ph'.
    repeat split; try assumption; nra.
  - rewrite update_not_animating by assumption.
    exists v, lo, hi, ph. repeat split; try assumption; lra.
Qed.

(** X17.  [updateAnimations] keeps the parameters consistent: when every
    parameter of every stage has finite value, bounds and phase with
    [min <= value <= max], the same holds after the update, for every
    finite time step and speed; the stages keep their identities and
    activity, and the gain and speed are unchanged. *)
Theorem updateAnimations_keeps_parameters_bounded (c : t) (dt sp : R) :
  animationSpeed c = Fin sp ->
  (forall s p, In s (stages c) -> In p (FilterStage.getParameters s) ->
               bounded_parameter p) ->
  (forall s p, In s (stages (updateAnimations (Fin dt) c)) ->
               In p (FilterStage.getParameters s) -> bounded_parameter p) /\
  map FilterStage.id (stages (updateAnimations (Fin dt) c))
    = map FilterStage.id (stages c) /\
  map FilterStage.active (stages (updateAnimations (Fin dt) c))
    = map FilterStage.active (stages c) /\
  globalGainDb (updateAnimations (Fin dt) c) = globalGainDb c /\
  animationSpeed (updateAnimations (Fin dt) c) = animationSpeed c.
Proof.
  intros Hsp Hb. unfold updateAnimations, map_stages.
  cbn [stages globalGainDb animationSpeed]. rewrite Hsp.
  split; [| rewrite !map_map; repeat split; reflexivity].
  intros s p Hs Hp. apply in_map_iff in Hs. destruct Hs as (s0 & <- & Hs0).
  unfold FilterStage.getParameters, FilterStage.map_parameters in Hp.
  cbn [FilterStage.body] in Hp.
  pose proof (Hb s0) as Hb0. unfold FilterStage.getParameters in Hb0.
  destruct (FilterStage.body s0) as [p0 | p0 q0]; cbn [In] in Hp, Hb0.
  - destruct Hp as [<- | []]. apply update_bounded. apply Hb0; auto.
  - destruct Hp as [<- | [<- | []]]; apply update_bounded; apply Hb0; auto.
Qed.

Lemma updateAnimations_keeps_parameters_bounded_witness :
  (forall s p,
     In s (stages (updateAnimations (Fin 3)
                     (playAll (mk [single_pole 1] (Fin 1) (Fin 0))))) ->
     In p (FilterStage.getParameters s) -> bounded_parameter p) /\
  map FilterStage.id
      (stages (updateAnimations (Fin 3)
                 (playAll (mk [single_pole 1] (Fin 1) (Fin 0)))))
    = map FilterStage.id (stages (playAll (mk [single_pole 1] (Fin 1) (Fin 0))))
  /\
  map FilterStage.active
      (stages (updateAnimations (Fin 3)
                 (playAll (mk [single_pole 1] (Fin 1) (Fin 0)))))
    = map FilterStage.active
          (stages (playAll (mk [single_pole 1] (Fin 1) (Fin 0)))) /\
  globalGainDb (updateAnimations (Fin 3)
                  (playAll (mk [single_pole 1] (Fin 1) (Fin 0))))
    = globalGainDb (playAll (mk [single_pole 1] (Fin 1) (Fin 0))) /\
  animationSpeed (updateAnimations (Fin 3)
                    (playAll (mk [single_pole 1] (Fin 1) (Fin 0))))
    = animationSpeed (playAll (mk [single_pole 1] (Fin 1) (Fin 0))).
Proof.
  apply (updateAnimations_keeps_parameters_bounded
           (playAll (mk [single_pole 1] (Fin 1) (Fin 0))) 3 1).
  - reflexivity.
  - intros s p [<- | []] [<- | []].
    destruct (autoRange_finite None
                (AnimatedParameter.mk (Fin 1) NaN NaN false (Fin 0)) 1 0.2)
      as [Elo Ehi]; try reflexivity; try lra; [left; split; reflexivity |].
    exists 1, (1 * (1 - 0.2)), (1 * (1 + 0.2)), 0.
    repeat split; try assumption; lra.
Defined.

End CascadeEditing.

(* ================================================================== *)
(** * Further properties: the ideal Chebyshev response                 *)
(* ================================================================== *)

Section IdealResponse.

Import ChebyshevSolver.

(** [A^2 = 10^(As/10)] and [epsilon^2 = 10^(Ap/10) - 1]. *)
Lemma attenuation_squared (As : R) :
  attenuation As * attenuation As = Rpower 10 (As / 10).
Proof.
  unfold attenuation. rewrite <- Rpower_plus. f_equal. lra.
Qed.

Lemma ripple_factor_squared (Ap : R) :
  0 < Ap -> ripple_factor Ap * ripple_factor Ap = Rpower 10 (Ap / 10) - 1.
Proof.
  intros H. unfold ripple_factor. apply sqrt_sqrt.
  pose proof (Rpower_10_gt_1 (Ap / 10)). lra.
Qed.

(** [As > Ap > 0] is enough for the argument of [Math.acosh] to exceed
    1. *)
Lemma acosh_argument_gt_1 (Ap As : R) :
  0 < Ap < As -> 1 < acosh_argument Ap As.
Proof.
  intros [HAp HAs]. pose proof (ripple_factor_pos Ap HAp) as He.
  pose proof (ripple_factor_squared Ap HAp) as Ee.
  assert (Hlt : Rpower 10 (Ap / 10) < Rpower 10 (As / 10))
    by (apply Rpower_lt; lra).
  unfold acosh_argument. rewrite attenuation_squared.
  apply (Rmult_lt_reg_r (ripple_factor Ap)); [assumption |].
  unfold Rdiv. rewrite Rmult_assoc, Rinv_l by lra.
  rewrite Rmult_1_l, Rmult_1_r.
  rewrite <- (sqrt_square (ripple_factor Ap)) at 1 by lra.
  apply sqrt_lt_1_alt. rewrite Ee.
  pose proof (Rpower_10_gt_1 (Ap / 10)). lra.
Qed.

(** [epsilon * argument = sqrt(A^2 - 1)], squared. *)
Lemma argument_times_ripple (Ap As : R) :
  0 < Ap -> 1 <= acosh_argument Ap As ->
  ripple_factor Ap * ripple_factor Ap
  * (acosh_argument Ap As * acosh_argument Ap As)
  = attenuation As * attenuation As - 1.
Proof.
  intros HAp Harg. pose proof (ripple_factor_pos Ap HAp) as He.
  pose proof (feasible_attenuation Ap As HAp Harg) as HA.
  unfold acosh_argument.
  set (t := sqrt (attenuation As * attenuation As - 1)).
  assert (Et : t * t = attenuation As * attenuation As - 1)
    by (apply sqrt_sqrt; lra).
  rewrite <- Et. field. lra.
Qed.

(** The order of a specification with [0 < wp < ws] and [0 < Ap < As]. *)
Lemma getMinOrder_positive_order (wp ws Ap As : R) :
  0 < wp < ws -> 0 < Ap < As ->
  exists n : Z,
    getMinOrder (Fin wp) (Fin ws) (Fin Ap) (Fin As) = Fin (IZR n) /\
    (1 <= n)%Z.
Proof.
  intros Hw HA.
  pose proof (acosh_argument_gt_1 Ap As HA) as Harg.
  destruct (getMinOrder_feasible wp ws Ap As Hw) as [E _]; try lra.
  exists (real_order wp ws Ap As). split; [assumption |].
  assert (Hr : 1 < ws / wp).
  { apply (Rmult_lt_reg_r wp); [lra |].
    unfold Rdiv. rewrite Rmult_assoc, Rinv_l by lra. lra. }
  pose proof (arccosh_pos _ Hr) as Hd.
  pose proof (arccosh_pos _ Harg) as Hn.
  assert (0 < arccosh (acosh_argument Ap As) / arccosh (ws / wp))
    by (apply Rdiv_lt_0_compat; assumption).
  unfold real_order.
  pose proof (Zceil_bound
                (arccosh (acosh_argument Ap As) / arccosh (ws / wp))) as [_ Hb].
  assert (0 < IZR (Zceil (arccosh (acosh_argument Ap As) / arccosh (ws / wp))))
    by lra.
  apply lt_IZR in H0. lia.
Qed.

(** X18.  For [0 < wp < ws] and [0 < Ap < As], [getMinOrder] returns a
    finite integer, at least 1. *)
Theorem getMinOrder_at_least_1 (wp ws Ap As : R) :
  0 < wp < ws -> 0 < Ap < As ->
  exists n : Z,
    getMinOrder (Fin wp) (Fin ws) (Fin Ap) (Fin As) = Fin (IZR n) /\
    (1 <= n)%Z.
Proof. exact (getMinOrder_positive_order wp ws Ap As). Qed.

Lemma getMinOrder_at_least_1_witness :
  exists n : Z,
    getMinOrder (Fin 1) (Fin 3) (Fin 3) (Fin 30) = Fin (IZR n) /\ (1 <= n)%Z.
Proof.
  apply (getMinOrder_at_least_1 1 3 3 30); lra.
Defined.

Lemma cosh_arccosh (x : R) : 1 <= x -> cosh (arccosh x) = x.
Proof.
  intros Hx. unfold cosh, arccosh.
  set (s := sqrt (x * x - 1)).
  assert (Es : s * s = x * x - 1) by (apply sqrt_sqrt; nra).
  assert (Hs : 0 <= s) by apply sqrt_pos.
  assert (Hu : 0 < x + s) by lra.
  rewrite exp_Ropp, exp_ln by assumption.
  assert (Ei : / (x + s) = x - s).
  { apply (Rmult_eq_reg_l (x + s)); [| lra].
    rewrite Rinv_r by lra. nra. }
  rewrite Ei. lra.
Qed.

Lemma cosh_le (a b : R) : 0 <= a <= b -> cosh a <= cosh b.
Proof.
  intros [Ha Hab]. unfold cosh. rewrite !exp_Ropp.
  assert (Hp : 1 <= exp a).
  { rewrite <- exp_0. destruct Ha as [Ha | <-]; [| lra].
    left. apply exp_increasing. assumption. }
  assert (Hq : exp a <= exp b).
  { destruct Hab as [Hab | <-]; [| lra]. left. apply exp_increasing.
    assumption. }
  set (p := exp a) in *. set (q := exp b) in *.
  assert (Ep : p * / p = 1) by (apply Rinv_r; lra).
  assert (Eq : q * / q = 1) by (apply Rinv_r; lra).
  assert (Hip : 0 < / p) by (apply Rinv_0_lt_compat; lra).
  assert (Hiq : 0 < / q) by (apply Rinv_0_lt_compat; lra).
  assert (Hd : / p - / q = (q - p) * (/ p * / q)).
  { replace ((q - p) * (/ p * / q)) with (q * / q * / p - p * / p * / q)
      by ring.
    rewrite Ep, Eq. ring. }
  assert (Hpq : / p * / q <= 1).
  { assert (/ p <= 1) by (rewrite <- Rinv_1; apply Rinv_le_contravar; lra).
    assert (/ q <= 1) by (rewrite <- Rinv_1; apply Rinv_le_contravar; lra).
    nra. }
  assert (/ p - / q <= q - p) by (rewrite Hd; nra).
  lra.
Qed.

Lemma cosh_lt (a b : R) : 0 <= a < b -> cosh a < cosh b.
Proof.
  intros [Ha Hab]. unfold cosh. rewrite !exp_Ropp.
  assert (Hp : 1 <= exp a).
  { rewrite <- exp_0. destruct Ha as [Ha | <-]; [| lra].
    left. apply exp_increasing. assumption. }
  assert (Hq : exp a < exp b) by (apply exp_increasing; assumption).
  set (p := exp a) in *. set (q := exp b) in *.
  assert (Ep : p * / p = 1) by (apply Rinv_r; lra).
  assert (Eq : q * / q = 1) by (apply Rinv_r; lra).
  assert (Hip : 0 < / p) by (apply Rinv_0_lt_compat; lra).
  assert (Hiq : 0 < / q) by (apply Rinv_0_lt_compat; lra).
  assert (Hd : / p - / q = (q - p) * (/ p * / q)).
  { replace ((q - p) * (/ p * / q)) with (q * / q * / p - p * / p * / q)
      by ring.
    rewrite Ep, Eq. ring. }
  assert (Hpq : / p * / q < 1).
  { assert (/ p <= 1) by (rewrite <- Rinv_1; apply Rinv_le_contravar; lra).
    assert (/ q < 1) by (rewrite <- Rinv_1; apply Rinv_lt_contravar; lra).
    nra. }
  assert (/ p - / q < q - p) by (rewrite Hd; nra).
  lra.
Qed.

(** The ideal magnitude above the passband edge. *)
Lemma getResponse_above_edge (w wp e : R) (n : Z) :
  0 < wp -> wp < w ->
  getResponse (Fin w) (Fin (IZR n)) (Fin e) (Fin wp)
    = Fin (sqrt (1 / (1 + e * e * cosh (IZR n * arccosh (w / wp))
                               * cosh (IZR n * arccosh (w / wp))))).
Proof.
  intros Hwp Hw. unfold getResponse. rewrite div_finite by lra.
  assert (Hx : 1 < w / wp).
  { apply (Rmult_lt_reg_r wp); [lra |].
    unfold Rdiv. rewrite Rmult_assoc, Rinv_l by lra. lra. }
  cbn [le lt]. rewrite (Rltb_true 1 (w / wp)) by assumption. cbn [negb].
  rewrite acosh_finite by lra. cbn [mul Math_cosh add].
  set (T := cosh (IZR n * arccosh (w / wp))).
  assert (0 < 1 + e * e * T * T) by nra.
  rewrite div_finite by lra.
  rewrite sqrt_finite; [reflexivity |].
  left. apply Rdiv_lt_0_compat; lra.
Qed.

(** The ideal magnitude up to the passband edge. *)
Lemma getResponse_up_to_edge (w wp e : R) (n : Z) :
  0 < wp -> 0 <= w <= wp ->
  getResponse (Fin w) (Fin (IZR n)) (Fin e) (Fin wp)
    = Fin (sqrt (1 / (1 + e * e * cos (IZR n * acos (w / wp))
                               * cos (IZR n * acos (w / wp))))).
Proof.
  intros Hwp Hw. unfold getResponse. rewrite div_finite by lra.
  assert (Hx : 0 <= w / wp <= 1).
  { split.
    - apply Rmult_le_pos; [lra | left; apply Rinv_0_lt_compat; lra].
    - apply (Rmult_le_reg_r wp); [lra |].
      unfold Rdiv. rewrite Rmult_assoc, Rinv_l by lra. lra. }
  cbn [le lt]. rewrite (Rltb_false 1 (w / wp)) by lra. cbn [negb].
  cbn [Math_acos]. rewrite !Rltb_false by lra. cbn [mul Math_cos add].
  set (T := cos (IZR n * acos (w / wp))).
  assert (0 < 1 + e * e * T * T) by nra.
  rewrite div_finite by lra.
  rewrite sqrt_finite; [reflexivity |].
  left. apply Rdiv_lt_0_compat; lra.
Qed.

Lemma inv_sqrt_ripple (Ap : R) :
  0 < Ap ->
  sqrt (1 / (1 + ripple_factor Ap * ripple_factor Ap))
  = Rpower 10 (- Ap / 20).
Proof.
  intros HAp. rewrite (ripple_factor_squared Ap HAp).
  replace (1 + (Rpower 10 (Ap / 10) - 1)) with (Rpower 10 (Ap / 10)) by lra.
  pose proof (Rpower_10_pos (- Ap / 20)) as Hp.
  apply sqrt_lem_1; [| lra |].
  - left. apply Rdiv_lt_0_compat; [lra | apply Rpower_10_pos].
  - rewrite <- Rpower_plus.
    replace (- Ap / 20 + - Ap / 20) with (- (Ap / 10)) by lra.
    rewrite Rpower_Ropp. lra.
Qed.

(** X19.  In the passband the ideal response stays within the ripple:
    for a finite order and [0 <= omega <= wp], with [epsilon] computed from
    [Ap > 0] as the solver does, the magnitude lies between [10^(-Ap/20)]
    and 1, and at [omega = wp] it is exactly [10^(-Ap/20)], that is -Ap
    decibels. *)
Theorem ideal_response_within_ripple (w wp Ap : R) (n : Z) :
  0 < wp -> 0 <= w <= wp -> 0 < Ap ->
  exists m medge,
    getResponse (Fin w) (Fin (IZR n))
                (Math_sqrt (Math_pow10 (Fin Ap / Fin 10) - Fin 1)%js) (Fin wp)
      = Fin m /\
    Rpower 10 (- Ap / 20) <= m <= 1 /\
    getResponse (Fin wp) (Fin (IZR n))
                (Math_sqrt (Math_pow10 (Fin Ap / Fin 10) - Fin 1)%js) (Fin wp)
      = Fin medge /\
    medge = Rpower 10 (- Ap / 20).
Proof.
  intros Hwp Hw HAp. rewrite (epsilon_finite Ap HAp).
  rewrite (getResponse_up_to_edge w wp _ n Hwp Hw).
  rewrite (getResponse_up_to_edge wp wp _ n Hwp) by lra.
  pose proof (ripple_factor_pos Ap HAp) as He.
  set (e := ripple_factor Ap) in *.
  do 2 eexists. split; [reflexivity |]. split; [| split; [reflexivity |]].
  - set (T := cos (IZR n * acos (w / wp))).
    pose proof (COS_bound (IZR n * acos (w / wp))) as [HT1 HT2]. fold T in HT1, HT2.
    assert (HTT : 0 <= T * T <= 1) by nra.
    assert (0 < 1 + e * e * T * T) by nra.
    split.
    + rewrite <- (inv_sqrt_ripple Ap HAp). fold e.
      apply sqrt_le_1_alt. unfold Rdiv. rewrite !Rmult_1_l.
      apply Rinv_le_contravar; nra.
    + rewrite <- sqrt_1 at 3. apply sqrt_le_1_alt.
      apply (Rmult_le_reg_r (1 + e * e * T * T)); [lra |].
      unfold Rdiv. rewrite Rmult_assoc, Rinv_l by lra. nra.
  - replace (wp / wp) with 1 by (field; lra).
    rewrite acos_1, Rmult_0_r, cos_0.
    replace (1 + e * e * 1 * 1) with (1 + e * e) by ring.
    apply (inv_sqrt_ripple Ap HAp).
Qed.

Lemma ideal_response_within_ripple_witness :
  exists m medge,
    getResponse (Fin 0.5) (Fin (IZR 3))
                (Math_sqrt (Math_pow10 (Fin 3 / Fin 10) - Fin 1)%js) (Fin 1)
      = Fin m /\
    Rpower 10 (- 3 / 20) <= m <= 1 /\
    getResponse (Fin 1) (Fin (IZR 3))
                (Math_sqrt (Math_pow10 (Fin 3 / Fin 10) - Fin 1)%js) (Fin 1)
      = Fin medge /\
    medge = Rpower 10 (- 3 / 20).
Proof.
  apply (ideal_response_within_ripple 0.5 1 3 3); lra.
Defined.

Lemma inv_attenuation (As : R) :
  sqrt (1 / (attenuation As * attenuation As)) = Rpower 10 (- As / 20).
Proof.
  pose proof (Rpower_10_pos (As / 20)) as HA. fold (attenuation As) in HA.
  pose proof (Rpower_10_pos (- As / 20)) as Hp.
  assert (E : Rpower 10 (- As / 20) = / attenuation As).
  { unfold attenuation. rewrite <- Rpower_Ropp. f_equal. lra. }
  apply sqrt_lem_1; [| lra |].
  - left. apply Rdiv_lt_0_compat; nra.
  - rewrite E. field. lra.
Qed.

(** Facts shared by the two theorems on the stopband edge: the order [n],
    the quotient it rounds up, and the identity
    [epsilon^2 arg^2 = A^2 - 1]. *)
Lemma order_quotient_bounds (wp ws Ap As : R) :
  0 < wp < ws -> 0 < Ap < As ->
  let N := arccosh (acosh_argument Ap As) in
  let D := arccosh (ws / wp) in
  0 < D /\ 0 < N /\
  (IZR (real_order wp ws Ap As) - 1) * D < N <= IZR (real_order wp ws Ap As) * D.
Proof.
  intros Hw HA N D.
  pose proof (acosh_argument_gt_1 Ap As HA) as Harg.
  assert (Hr : 1 < ws / wp).
  { apply (Rmult_lt_reg_r wp); [lra |].
    unfold Rdiv. rewrite Rmult_assoc, Rinv_l by lra. lra. }
  pose proof (arccosh_pos _ Hr) as Hd. fold D in Hd.
  pose proof (arccosh_pos _ Harg) as Hn. fold N in Hn.
  split; [assumption | split; [assumption |]].
  unfold real_order. fold N D.
  pose proof (Zceil_bound (N / D)) as [Hlo Hhi].
  assert (E : N = N / D * D) by (field; lra).
  split.
  - rewrite E at 2. apply Rmult_lt_compat_r; assumption.
  - rewrite E at 1. apply Rmult_le_compat_r; lra.
Qed.

(** X20.  The order suffices.  For [0 < wp < ws] and [0 < Ap < As], the
    ideal response of the order [getMinOrder] returns, with the solver's
    [epsilon], is at most [10^(-As/20)] (attenuated by at least As
    decibels) at every [omega >= ws]. *)
Theorem ideal_response_meets_stopband (wp ws Ap As w : R) :
  0 < wp < ws -> 0 < Ap < As -> ws <= w ->
  exists m,
    getResponse (Fin w)
                (getMinOrder (Fin wp) (Fin ws) (Fin Ap) (Fin As))
                (Math_sqrt (Math_pow10 (Fin Ap / Fin 10) - Fin 1)%js) (Fin wp)
      = Fin m /\
    m <= Rpower 10 (- As / 20).
Proof.
  intros Hw HA Hws.
  pose proof (acosh_argument_gt_1 Ap As HA) as Harg.
  destruct (getMinOrder_feasible wp ws Ap As Hw) as [E Hn0]; try lra.
  destruct (order_quotient_bounds wp ws Ap As Hw HA) as (HD & HN & _ & Hhi).
  rewrite E, (epsilon_finite Ap) by lra.
  rewrite getResponse_above_edge by lra.
  eexists. split; [reflexivity |].
  pose proof (ripple_factor_pos Ap ltac:(lra)) as He.
  pose proof (argument_times_ripple Ap As ltac:(lra) ltac:(lra)) as Ee.
  pose proof (feasible_attenuation Ap As ltac:(lra) ltac:(lra)) as HAtt.
  set (n := IZR (real_order wp ws Ap As)) in *.
  assert (Hn : 0 <= n) by (apply IZR_le in Hn0; exact Hn0).
  assert (Hmono : arccosh (ws / wp) <= arccosh (w / wp)).
  { assert (1 < ws / wp).
    { apply (Rmult_lt_reg_r wp); [lra |].
      unfold Rdiv. rewrite Rmult_assoc, Rinv_l by lra. lra. }
    apply arccosh_le; [lra |].
    unfold Rdiv. apply Rmult_le_compat_r;
      [left; apply Rinv_0_lt_compat; lra | assumption]. }
  assert (HT : acosh_argument Ap As <= cosh (n * arccosh (w / wp))).
  { rewrite <- (cosh_arccosh (acosh_argument Ap As)) at 1 by lra.
    apply cosh_le. split; [lra |]. nra. }
  set (T := cosh (n * arccosh (w / wp))) in *.
  set (e := ripple_factor Ap) in *.
  set (a := acosh_argument Ap As) in *.
  assert (Hsq : attenuation As * attenuation As <= 1 + e * e * T * T).
  { assert (a * a <= T * T) by nra.
    assert (e * e * (a * a) <= e * e * (T * T))
      by (apply Rmult_le_compat_l; nra).
    nra. }
  rewrite <- inv_attenuation. apply sqrt_le_1_alt.
  unfold Rdiv. rewrite !Rmult_1_l. apply Rinv_le_contravar; lra.
Qed.

Lemma ideal_response_meets_stopband_witness :
  exists m,
    getResponse (Fin 5)
                (getMinOrder (Fin 1) (Fin 3) (Fin 3) (Fin 30))
                (Math_sqrt (Math_pow10 (Fin 3 / Fin 10) - Fin 1)%js) (Fin 1)
      = Fin m /\
    m <= Rpower 10 (- 30 / 20).
Proof.
  apply (ideal_response_meets_stopband 1 3 3 30 5); lra.
Defined.

(** X21.  The order is minimal.  Under the same hypotheses the order
    [n] that [getMinOrder] returns is at least 1, and the ideal response of
    the order [n - 1] misses the attenuation at the stopband edge: at
    [omega = ws] it exceeds [10^(-As/20)]. *)
Theorem ideal_response_one_order_less_fails (wp ws Ap As : R) :
  0 < wp < ws -> 0 < Ap < As ->
  exists (n : Z) (m : R),
    getMinOrder (Fin wp) (Fin ws) (Fin Ap) (Fin As) = Fin (IZR n) /\
    (1 <= n)%Z /\
    getResponse (Fin ws) (Fin (IZR (n - 1)))
                (Math_sqrt (Math_pow10 (Fin Ap / Fin 10) - Fin 1)%js) (Fin wp)
      = Fin m /\
    Rpower 10 (- As / 20) < m.
Proof.
  intros Hw HA.
  pose proof (acosh_argument_gt_1 Ap As HA) as Harg.
  destruct (getMinOrder_feasible wp ws Ap As Hw) as [E Hn0]; try lra.
  destruct (order_quotient_bounds wp ws Ap As Hw HA) as (HD & HN & Hlo & Hhi).
  exists (real_order wp ws Ap As).
  assert (Hn1 : (1 <= real_order wp ws Ap As)%Z).
  { assert (0 < IZR (real_order wp ws Ap As)) by nra.
    apply lt_IZR in H. lia. }
  rewrite (epsilon_finite Ap) by lra.
  rewrite getResponse_above_edge by lra.
  eexists. split; [assumption |]. split; [assumption |].
  split; [reflexivity |].
  pose proof (ripple_factor_pos Ap ltac:(lra)) as He.
  pose proof (argument_times_ripple Ap As ltac:(lra) ltac:(lra)) as Ee.
  pose proof (feasible_attenuation Ap As ltac:(lra) ltac:(lra)) as HAtt.
  rewrite minus_IZR.
  set (n := IZR (real_order wp ws Ap As)) in *.
  assert (Hn : 1 <= n) by (apply IZR_le in Hn1; exact Hn1).
  assert (HT : cosh ((n - 1) * arccosh (ws / wp)) < acosh_argument Ap As).
  { rewrite <- (cosh_arccosh (acosh_argument Ap As)) by lra.
    apply cosh_lt. split; [nra | lra]. }
  pose proof (cosh_pos ((n - 1) * arccosh (ws / wp))) as HT0.
  set (T := cosh ((n - 1) * arccosh (ws / wp))) in *.
  set (e := ripple_factor Ap) in *.
  set (a := acosh_argument Ap As) in *.
  assert (Hsq : 1 + e * e * T * T < attenuation As * attenuation As).
  { assert (T * T < a * a) by nra.
    assert (e * e * (T * T) < e * e * (a * a))
      by (apply Rmult_lt_compat_l; nra).
    nra. }
  rewrite <- inv_attenuation. apply sqrt_lt_1_alt.
  split.
  - left. apply Rdiv_lt_0_compat; lra.
  - unfold Rdiv. rewrite !Rmult_1_l. apply Rinv_lt_contravar; nra.
Qed.

Lemma ideal_response_one_order_less_fails_witness :
  exists (n : Z) (m : R),
    getMinOrder (Fin 1) (Fin 3) (Fin 3) (Fin 30) = Fin (IZR n) /\
    (1 <= n)%Z /\
    getResponse (Fin 3) (Fin (IZR (n - 1)))
                (Math_sqrt (Math_pow10 (Fin 3 / Fin 10) - Fin 1)%js) (Fin 1)
      = Fin m /\
    Rpower 10 (- 30 / 20) < m.
Proof.
  apply (ideal_response_one_order_less_fails 1 3 3 30); lra.
Defined.

End IdealResponse.

(* ================================================================== *)
(** * Further properties: the Chebyshev poles                          *)
(* ================================================================== *)

Section ChebyshevPoles.

Import ChebyshevSolver.

Lemma Zrange_length (k : Z) (c : nat) : List.length (Zrange k c) = c.
Proof. revert k. induction c; intros k; simpl; [| rewrite IHc]; reflexivity. Qed.

Lemma In_Zrange (j k : Z) (c : nat) :
  In j (Zrange k c) <-> (k <= j < k + Z.of_nat c)%Z.
Proof.
  revert k. induction c as [| c IH]; intros k; cbn [Zrange In].
  - lia.
  - rewrite IH. lia.
Qed.

Lemma Zrange_snoc (k : Z) (c : nat) :
  Zrange k (S c) = Zrange k c ++ [(k + Z.of_nat c)%Z].
Proof.
  revert k. induction c as [| c IH]; intros k.
  - cbn. f_equal. lia.
  - change (Zrange k (S (S c))) with (k :: Zrange (k + 1) (S c)).
    rewrite IH. cbn [Zrange app]. do 3 f_equal. lia.
Qed.

Lemma nth_error_Zrange (k : Z) (c n : nat) :
  (n < c)%nat -> nth_error (Zrange k c) n = Some (k + Z.of_nat n)%Z.
Proof.
  revert k n. induction c as [| c IH]; intros k n H; [lia |].
  destruct n as [| n]; cbn [Zrange nth_error].
  - f_equal. lia.
  - rewrite IH by lia. f_equal. lia.
Qed.

(** The loop of [getPoles] for an integer order: the poles pushed are
    those of [k], [k + 1], ..., [m], in this order. *)
Lemma getPoles_loop_closed (m : Z) (gamma wp : num) (fuel : nat) :
  forall (k : Z) (poles : list object),
    (Z.to_nat (m + 1 - k) < fuel)%nat ->
    getPoles_loop fuel k (Fin (IZR m)) gamma wp poles
      = Some (poles ++ map (fun j => pole_at j (Fin (IZR m)) gamma wp)
                           (Zrange k (Z.to_nat (m + 1 - k)))).
Proof.
  induction fuel as [| fuel IH]; intros k poles Hfuel; [lia |].
  cbn [getPoles_loop]. rewrite le_int_finite.
  destruct (Z.leb_spec k m) as [H | H].
  - rewrite IH by lia.
    replace (Z.to_nat (m + 1 - k)) with (S (Z.to_nat (m + 1 - (k + 1))))
      by lia.
    cbn [Zrange map]. rewrite <- app_assoc. reflexivity.
  - replace (Z.to_nat (m + 1 - k)) with 0%nat by lia.
    cbn. rewrite app_nil_r. reflexivity.
Qed.

Lemma pole_at_finite (m k : Z) (g wp : R) :
  (m <> 0)%Z ->
  pole_at k (Fin (IZR m)) (Fin g) (Fin wp)
    = pole (pole_sigma wp g m k) (pole_omega wp g m k).
Proof.
  intros Hm. unfold pole_at, pole, pole_sigma, pole_omega, pole_angle.
  unfold int, Math_PI. cbn [mul sub neg add].
  assert (2 * IZR m <> 0).
  { intros E. apply Hm. apply eq_IZR. lra. }
  rewrite div_finite by assumption. reflexivity.
Qed.

(** [getPoles] for an integer order [m >= 1] and [epsilon > 0]. *)
Lemma getPoles_closed (m : Z) (e wp : R) (fuel : nat) :
  (1 <= m)%Z -> 0 < e -> (Z.to_nat m < fuel)%nat ->
  getPoles fuel (Fin (IZR m)) (Fin e) (Fin wp)
    = Some (map (fun k => pole (pole_sigma wp (pole_gamma e m) m k)
                               (pole_omega wp (pole_gamma e m) m k))
                (Zrange 1 (Z.to_nat m))).
Proof.
  intros Hm He Hfuel. unfold getPoles.
  rewrite (div_finite 1 e) by lra. cbn [Math_asinh].
  assert (IZR m <> 0) by (apply not_0_IZR; lia).
  rewrite div_finite by assumption. fold (pole_gamma e m).
  rewrite getPoles_loop_closed by (replace (m + 1 - 1)%Z with m by lia; lia).
  replace (m + 1 - 1)%Z with m by lia. cbn [app].
  apply f_equal. apply map_ext. intros k. apply pole_at_finite. lia.
Qed.

Lemma pole_gamma_pos (e : R) (m : Z) :
  0 < e -> (1 <= m)%Z -> 0 < pole_gamma e m.
Proof.
  intros He Hm. unfold pole_gamma.
  apply Rdiv_lt_0_compat.
  - rewrite <- arcsinh_0. apply arcsinh_lt. apply Rdiv_lt_0_compat; lra.
  - apply IZR_lt. lia.
Qed.

Lemma pole_angle_bounds (m k : Z) :
  (1 <= k <= m)%Z -> 0 < pole_angle m k < PI.
Proof.
  intros [Hk Hkm]. pose proof PI_RGT_0 as Hpi.
  assert (Hm : 0 < IZR m) by (apply IZR_lt; lia).
  apply IZR_le in Hk. apply IZR_le in Hkm.
  unfold pole_angle. split.
  - apply Rdiv_lt_0_compat; nra.
  - apply (Rmult_lt_reg_r (2 * IZR m)); [lra |].
    unfold Rdiv. rewrite Rmult_assoc, Rinv_l by lra. nra.
Qed.

Lemma pole_angle_mirror (m k : Z) :
  (1 <= m)%Z -> pole_angle m (m + 1 - k) = PI - pole_angle m k.
Proof.
  intros Hm. assert (0 < IZR m) by (apply IZR_lt; lia).
  unfold pole_angle. rewrite minus_IZR, plus_IZR. field. lra.
Qed.

(** X22.  For an integer order [m >= 1], [epsilon > 0] and [wp > 0],
    [getPoles] returns the [m] poles of [k = 1..m] in this order.  Every
    pole is stable ([sigma_k < 0]) and lies on the ellipse of half-axes
    [wp sinh(gamma)] and [wp cosh(gamma)]; the poles come in conjugate
    pairs, the pole of [m + 1 - k] being the conjugate of the pole of
    [k]. *)
Theorem getPoles_stable_on_ellipse (m : Z) (e wp : R) (fuel : nat) :
  (1 <= m)%Z -> 0 < e -> 0 < wp -> (Z.to_nat m < fuel)%nat ->
  let g := pole_gamma e m in
  exists ps,
    getPoles fuel (Fin (IZR m)) (Fin e) (Fin wp) = Some ps /\
    ps = map (fun k => pole (pole_sigma wp g m k) (pole_omega wp g m k))
             (Zrange 1 (Z.to_nat m)) /\
    List.length ps = Z.to_nat m /\
    forall k, (1 <= k <= m)%Z ->
      pole_sigma wp g m k < 0 /\
      (pole_sigma wp g m k / (wp * sinh g))²
      + (pole_omega wp g m k / (wp * cosh g))² = 1 /\
      pole_sigma wp g m (m + 1 - k) = pole_sigma wp g m k /\
      pole_omega wp g m (m + 1 - k) = - pole_omega wp g m k.
Proof.
  intros Hm He Hwp Hfuel g.
  eexists. split; [apply getPoles_closed; assumption |].
  split; [reflexivity |].
  split; [rewrite length_map; apply Zrange_length |].
  intros k Hk.
  pose proof (pole_gamma_pos e m He Hm) as Hg. fold g in Hg.
  pose proof (sinh_pos g Hg) as Hsh. pose proof (cosh_pos g) as Hch.
  destruct (pole_angle_bounds m k Hk) as [Ht0 Ht1].
  pose proof (sin_gt_0 _ Ht0 Ht1) as Hsin.
  unfold pole_sigma, pole_omega. rewrite pole_angle_mirror by assumption.
  repeat split.
  - assert (0 < wp * sinh g * sin (pole_angle m k))
      by (apply Rmult_lt_0_compat; [apply Rmult_lt_0_compat |]; assumption).
    lra.
  - replace (- wp * sinh g * sin (pole_angle m k) / (wp * sinh g))
      with (- sin (pole_angle m k)) by (field; lra).
    replace (wp * cosh g * cos (pole_angle m k) / (wp * cosh g))
      with (cos (pole_angle m k)) by (field; lra).
    rewrite <- Rsqr_neg. apply sin2_cos2.
  - rewrite sin_PI_x. reflexivity.
  - rewrite Rtrigo_facts.cos_pi_minus. ring.
Qed.

Lemma getPoles_stable_on_ellipse_witness :
  let g := pole_gamma 1 3 in
  exists ps,
    getPoles 4 (Fin (IZR 3)) (Fin 1) (Fin 1) = Some ps /\
    ps = map (fun k => pole (pole_sigma 1 g 3 k) (pole_omega 1 g 3 k))
             (Zrange 1 (Z.to_nat 3)) /\
    List.length ps = Z.to_nat 3 /\
    forall k, (1 <= k <= 3)%Z ->
      pole_sigma 1 g 3 k < 0 /\
      (pole_sigma 1 g 3 k / (1 * sinh g))²
      + (pole_omega 1 g 3 k / (1 * cosh g))² = 1 /\
      pole_sigma 1 g 3 (3 + 1 - k) = pole_sigma 1 g 3 k /\
      pole_omega 1 g 3 (3 + 1 - k) = - pole_omega 1 g 3 k.
Proof.
  apply (getPoles_stable_on_ellipse 3 1 1 4); try lra; lia.
Defined.

End ChebyshevPoles.

(* ================================================================== *)
(** * Further properties: the decomposition of the earlier version     *)
(* ================================================================== *)

Section LegacyStages.

Import ChebyshevSolver.

Lemma pole_sigma_neg (wp g : R) (m k : Z) :
  0 < wp -> 0 < g -> (1 <= k <= m)%Z -> pole_sigma wp g m k < 0.
Proof.
  intros Hwp Hg Hk. pose proof (sinh_pos g Hg) as Hsh.
  destruct (pole_angle_bounds m k Hk) as [Ht0 Ht1].
  pose proof (sin_gt_0 _ Ht0 Ht1) as Hsin.
  unfold pole_sigma.
  assert (0 < wp * sinh g * sin (pole_angle m k))
    by (apply Rmult_lt_0_compat; [apply Rmult_lt_0_compat |]; assumption).
  lra.
Qed.

Lemma pole_omega_pos (wp g : R) (m k : Z) :
  0 < wp -> (1 <= k)%Z -> (2 * k <= m)%Z -> 0 < pole_omega wp g m k.
Proof.
  intros Hwp Hk Hkm. pose proof (cosh_pos g) as Hch.
  pose proof PI_RGT_0 as Hpi.
  assert (Hm : 0 < IZR m) by (apply IZR_lt; lia).
  destruct (pole_angle_bounds m k ltac:(lia)) as [Ht0 _].
  assert (Ht : pole_angle m k < PI / 2).
  { unfold pole_angle.
    assert (2 * IZR k <= IZR m).
    { rewrite <- mult_IZR. apply IZR_le. assumption. }
    apply (Rmult_lt_reg_r (2 * IZR m)); [lra |].
    unfold Rdiv at 1. rewrite Rmult_assoc, Rinv_l by lra. nra. }
  assert (0 < cos (pole_angle m k)) by (apply cos_gt_0; lra).
  unfold pole_omega. apply Rmult_lt_0_compat; [nra | assumption].
Qed.

Lemma pole_omega_middle (wp g : R) (m : Z) :
  (1 <= m)%Z -> Z.odd m = true -> pole_omega wp g m (m / 2 + 1) = 0.
Proof.
  intros Hm Hodd. unfold pole_omega, pole_angle.
  assert (E : (m = 2 * (m / 2) + 1)%Z).
  { pose proof (Z.div_mod m 2 ltac:(lia)) as H.
    rewrite Zmod_odd, Hodd in H. exact H. }
  assert (Hm0 : 0 < IZR m) by (apply IZR_lt; lia).
  replace (PI * (2 * IZR (m / 2 + 1) - 1) / (2 * IZR m)) with (PI / 2).
  - rewrite cos_PI2. ring.
  - rewrite E at 2. rewrite !plus_IZR, mult_IZR. field.
    rewrite E in Hm0. rewrite plus_IZR, mult_IZR in Hm0. lra.
Qed.

Lemma Zfloor_half (m : Z) : Zfloor (IZR m / 2) = (m / 2)%Z.
Proof.
  pose proof (Z.div_mod m 2 ltac:(lia)) as Hdm.
  pose proof (Z.mod_pos_bound m 2 ltac:(lia)) as [Hlo Hhi].
  assert (ER : IZR m = 2 * IZR (m / 2) + IZR (m mod 2)).
  { rewrite Hdm at 1. rewrite plus_IZR, mult_IZR. reflexivity. }
  apply IZR_le in Hlo. apply IZR_lt in Hhi.
  apply Zfloor_eq. lra.
Qed.

(** The poles as [getPoles] returns them, read by index. *)
Lemma nth_error_poles (wp g : R) (m i : Z) :
  (0 <= i < m)%Z ->
  nth_error (map (fun k => pole (pole_sigma wp g m k) (pole_omega wp g m k))
                 (Zrange 1 (Z.to_nat m)))
            (Z.to_nat i)
  = Some (pole (pole_sigma wp g m (i + 1)) (pole_omega wp g m (i + 1))).
Proof.
  intros Hi. rewrite nth_error_map, nth_error_Zrange by lia.
  cbn [option_map]. replace (1 + Z.of_nat (Z.to_nat i))%Z with (i + 1)%Z by lia.
  reflexivity.
Qed.

(** The first loop of the earlier [getBestSolutionStages]: entered at [i]
    with the identity counter at [base + i], it pushes the second-order
    stages of the poles [i + 1 .. h]. *)
Lemma biquads_loop_closed (wp g : R) (m h base : Z) (fuel : nat) :
  0 < wp -> 0 < g -> (2 * h <= m)%Z ->
  forall (i : Z) (b : building),
    (0 <= i <= h)%Z -> snd b = (base + i)%Z ->
    (Z.to_nat (h - i) < fuel)%nat ->
    Legacy.biquads_loop fuel i (Fin (IZR h))
      (map (fun k => pole (pole_sigma wp g m k) (pole_omega wp g m k))
           (Zrange 1 (Z.to_nat m))) b
    = Legacy.Returned
        (fst b ++ map (fun j => legacy_biquad (base + j)
                                  (pole_sigma wp g m (j + 1))
                                  (pole_omega wp g m (j + 1)))
                      (Zrange i (Z.to_nat (h - i))),
         (base + h)%Z).
Proof.
  intros Hwp Hg Hh.
  induction fuel as [| fuel IH]; intros i b Hi Hb Hfuel; [lia |].
  cbn [Legacy.biquads_loop].
  change (int i <? Fin (IZR h))%js with (Rltb (IZR i) (IZR h)).
  destruct (Z.ltb_spec i h) as [Hlt | Hge].
  - rewrite Rltb_true by (apply IZR_lt; assumption).
    rewrite element_int, nth_error_poles by lia.
    pose proof (pole_sigma_neg wp g m (i + 1) Hwp Hg ltac:(lia)) as Hs.
    cbn [pole get String.eqb Ascii.eqb Bool.eqb ToNumber mul add neg].
    rewrite sqrt_finite by nra. rewrite div_finite by lra.
    cbn [Legacy.newSecondOrderLowPass fst snd].
    rewrite IH by (cbn [snd]; lia).
    cbn [fst snd]. rewrite <- app_assoc. rewrite Hb.
    replace (Z.to_nat (h - i)) with (S (Z.to_nat (h - (i + 1)))) by lia.
    reflexivity.
  - rewrite Rltb_false by (apply IZR_le; lia).
    replace (Z.to_nat (h - i)) with 0%nat by lia.
    cbn [Zrange map]. rewrite app_nil_r.
    destruct b as [st nid]. cbn [fst snd] in *. subst nid.
    do 2 f_equal. lia.
Qed.

(** The earlier [getBestSolutionStages] on a feasible specification. *)
Lemma Legacy_returns (wp ws Ap As : R) (nextId : Z) (fuel : nat) :
  0 < wp < ws -> 0 < Ap < As ->
  (Z.to_nat (real_order wp ws Ap As) < fuel)%nat ->
  let m := real_order wp ws Ap As in
  (1 <= m)%Z /\
  Legacy.getBestSolutionStages fuel nextId (Fin wp) (Fin ws) (Fin Ap) (Fin As)
    = Legacy.Returned
        (mkSolution
           (legacy_stages nextId wp (pole_gamma (ripple_factor Ap) m) m)
           (if Z.even m then Fin (- Ap) else Fin 0),
         (nextId + (m + 1) / 2)%Z).
Proof.
  intros Hw HA Hfuel m.
  pose proof (acosh_argument_gt_1 Ap As HA) as Harg.
  destruct (getMinOrder_feasible wp ws Ap As Hw) as [E Hn0]; try lra.
  destruct (order_quotient_bounds wp ws Ap As Hw HA) as (HD & HN & Hlo & Hhi).
  fold m in E, Hn0, Hlo, Hhi, Hfuel.
  assert (Hm : (1 <= m)%Z).
  { assert (0 < IZR m) by nra. apply lt_IZR in H. lia. }
  split; [assumption |].
  pose proof (ripple_factor_pos Ap ltac:(lra)) as He.
  pose proof (pole_gamma_pos _ m He Hm) as Hg.
  set (g := pole_gamma (ripple_factor Ap) m) in *.
  unfold Legacy.getBestSolutionStages.
  rewrite E, (epsilon_finite Ap) by lra.
  rewrite (getPoles_closed m _ wp fuel Hm He Hfuel). fold g.
  rewrite (div_finite (IZR m) 2) by lra. cbn [Math_floor].
  rewrite Zfloor_half.
  assert (Hhalf : (0 <= m / 2)%Z) by (apply Z.div_pos; lia).
  assert (Hhm : (2 * (m / 2) <= m)%Z).
  { pose proof (Z.div_mod m 2 ltac:(lia)).
    pose proof (Z.mod_pos_bound m 2 ltac:(lia)). lia. }
  rewrite (biquads_loop_closed wp g m (m / 2) nextId fuel)
    by (try assumption; try lra; cbn [snd]; lia).
  cbn [fst snd app]. replace (m / 2 - 0)%Z with (m / 2)%Z by lia.
  unfold strict_neq. rewrite rem_two_parity by lia.
  unfold legacy_stages. rewrite <- Z.negb_even.
  destruct (Z.even m) eqn:Hev; cbn [negb].
  - rewrite app_nil_r.
    assert (Eh : ((m + 1) / 2 = m / 2)%Z).
    { pose proof (Z.div_mod m 2 ltac:(lia)) as Hdm.
      rewrite Zmod_even, Hev in Hdm.
      rewrite Hdm at 1.
      replace (2 * (m / 2) + 0 + 1)%Z with (1 + (m / 2) * 2)%Z by lia.
      rewrite Z.div_add by lia. reflexivity. }
    rewrite Eh. reflexivity.
  - change (Fin (IZR (m / 2))) with (int (m / 2)).
    rewrite element_int, nth_error_poles by lia.
    cbn [pole get String.eqb Ascii.eqb Bool.eqb ToNumber neg
         Legacy.newFirstOrderLowPass].
    assert (Eh : ((m + 1) / 2 = m / 2 + 1)%Z).
    { pose proof (Z.div_mod m 2 ltac:(lia)) as Hdm.
      rewrite Zmod_even, Hev in Hdm.
      rewrite Hdm at 1.
      replace (2 * (m / 2) + 1 + 1)%Z with ((m / 2 + 1) * 2)%Z by lia.
      apply Z.div_mul. lia. }
    rewrite Eh, Z.add_assoc. reflexivity.
Qed.

Lemma legacy_biquad_valid (id : Z) (sigma omega : R) :
  sigma < 0 -> valid_stage (legacy_biquad id sigma omega).
Proof.
  intros Hs. unfold valid_stage, legacy_biquad.
  cbn [fst Legacy.newSecondOrderLowPass FilterStage.body
       Legacy.newAnimatedParameter AnimatedParameter.value].
  assert (Hf : 0 < sqrt (sigma * sigma + omega * omega))
    by (apply sqrt_lt_R0; nra).
  do 2 eexists. split; [reflexivity |]. split; [assumption |].
  split; [reflexivity |]. apply Rdiv_lt_0_compat; lra.
Qed.

Lemma legacy_stages_valid (nextId : Z) (wp g : R) (m : Z) :
  0 < wp -> 0 < g -> (1 <= m)%Z ->
  forall s, In s (legacy_stages nextId wp g m) -> valid_stage s.
Proof.
  intros Hwp Hg Hm s Hs.
  assert (Hhm : (0 <= m / 2 /\ 2 * (m / 2) <= m)%Z).
  { pose proof (Z.div_mod m 2 ltac:(lia)).
    pose proof (Z.mod_pos_bound m 2 ltac:(lia)). lia. }
  unfold legacy_stages in Hs. apply in_app_or in Hs.
  destruct Hs as [Hs | Hs].
  - apply in_map_iff in Hs. destruct Hs as (i & <- & Hi).
    apply In_Zrange in Hi.
    apply legacy_biquad_valid. apply pole_sigma_neg; try assumption. lia.
  - destruct (Z.odd m) eqn:Hodd; [| destruct Hs].
    destruct Hs as [<- | []].
    assert (E : (m = 2 * (m / 2) + 1)%Z).
    { pose proof (Z.div_mod m 2 ltac:(lia)) as H.
      rewrite Zmod_odd, Hodd in H. exact H. }
    pose proof (pole_sigma_neg wp g m (m / 2 + 1) Hwp Hg ltac:(lia)).
    unfold valid_stage, legacy_single_pole.
    cbn [fst Legacy.newFirstOrderLowPass FilterStage.body
         Legacy.newAnimatedParameter AnimatedParameter.value].
    eexists. split; [reflexivity | lra].
Qed.

Lemma legacy_stages_length (nextId : Z) (wp g : R) (m : Z) :
  (1 <= m)%Z ->
  Z.of_nat (List.length (legacy_stages nextId wp g m)) = ((m + 1) / 2)%Z.
Proof.
  intros Hm. unfold legacy_stages.
  rewrite length_app, length_map, Zrange_length.
  pose proof (Z.div_mod m 2 ltac:(lia)) as Hdm.
  assert (Hhalf : (0 <= m / 2)%Z) by (apply Z.div_pos; lia).
  rewrite Zmod_odd in Hdm.
  destruct (Z.odd m); cbn [List.length].
  - rewrite Hdm at 2.
    replace (2 * (m / 2) + 1 + 1)%Z with ((m / 2 + 1) * 2)%Z by lia.
    rewrite Z.div_mul by lia. lia.
  - rewrite Hdm at 2.
    replace (2 * (m / 2) + 0 + 1)%Z with (1 + (m / 2) * 2)%Z by lia.
    rewrite Z.div_add by lia. change (1 / 2)%Z with 0%Z. lia.
Qed.

(** X23.  The earlier version of [getBestSolutionStages], on a
    specification with [0 < wp < ws] and [0 < Ap < As] whose order is [n]:
    it returns as soon as the fuel exceeds [n], with one second-order stage
    for each of the poles [1 .. n/2], in this order, followed by a
    first-order stage for the middle pole when [n] is odd; that is
    [(n + 1) / 2] stages, with consecutive identities from the counter,
    all satisfying the stage invariant; the gain is [-Ap] for an even [n]
    and 0 for an odd [n]. *)
Theorem Legacy_getBestSolutionStages_structure (wp ws Ap As : R)
  (nextId : Z) :
  0 < wp < ws -> 0 < Ap < As ->
  exists n : Z,
    (1 <= n)%Z /\
    getMinOrder (Fin wp) (Fin ws) (Fin Ap) (Fin As) = Fin (IZR n) /\
    forall fuel, (Z.to_nat n < fuel)%nat ->
      exists sol,
        Legacy.getBestSolutionStages fuel nextId
          (Fin wp) (Fin ws) (Fin Ap) (Fin As)
          = Legacy.Returned (sol, (nextId + (n + 1) / 2)%Z) /\
        stages sol
          = legacy_stages nextId wp (pole_gamma (ripple_factor Ap) n) n /\
        Z.of_nat (List.length (stages sol)) = ((n + 1) / 2)%Z /\
        (forall s, In s (stages sol) -> valid_stage s) /\
        globalGainDb sol = (if Z.even n then Fin (- Ap) else Fin 0).
Proof.
  intros Hw HA.
  pose proof (acosh_argument_gt_1 Ap As HA) as Harg.
  destruct (getMinOrder_feasible wp ws Ap As Hw) as [E _]; try lra.
  exists (real_order wp ws Ap As).
  assert (Hm : (1 <= real_order wp ws Ap As)%Z).
  { destruct (order_quotient_bounds wp ws Ap As Hw HA) as (HD & HN & _ & Hhi).
    assert (0 < IZR (real_order wp ws Ap As)) by nra.
    apply lt_IZR in H. lia. }
  split; [assumption | split; [assumption |]].
  intros fuel Hfuel.
  destruct (Legacy_returns wp ws Ap As nextId fuel Hw HA Hfuel) as [_ Er].
  eexists. split; [exact Er |]. cbn [stages globalGainDb].
  split; [reflexivity |].
  split; [apply legacy_stages_length; assumption |].
  split; [| reflexivity].
  apply legacy_stages_valid; try lra; try assumption.
  apply pole_gamma_pos; [apply ripple_factor_pos; lra | assumption].
Qed.

Lemma Legacy_getBestSolutionStages_structure_witness :
  exists n : Z,
    (1 <= n)%Z /\
    getMinOrder (Fin 1) (Fin 3) (Fin 3) (Fin 30) = Fin (IZR n) /\
    forall fuel, (Z.to_nat n < fuel)%nat ->
      exists sol,
        Legacy.getBestSolutionStages fuel 1
          (Fin 1) (Fin 3) (Fin 3) (Fin 30)
          = Legacy.Returned (sol, (1 + (n + 1) / 2)%Z) /\
        stages sol
          = legacy_stages 1 1 (pole_gamma (ripple_factor 3) n) n /\
        Z.of_nat (List.length (stages sol)) = ((n + 1) / 2)%Z /\
        (forall s, In s (stages sol) -> valid_stage s) /\
        globalGainDb sol = (if Z.even n then Fin (- 3) else Fin 0).
Proof.
  apply (Legacy_getBestSolutionStages_structure 1 3 3 30 1); lra.
Defined.

Lemma legacy_biquad_poles (id : Z) (sigma omega : R) :
  sigma < 0 -> 0 < omega ->
  FilterStage.getPoles (legacy_biquad id sigma omega)
    = [mkComplex (Fin sigma) (Fin omega);
       mkComplex (Fin sigma) (Fin (- omega))].
Proof.
  intros Hs Hw.
  destruct (decomposed_pole_values (legacy_biquad id sigma omega)
              (Legacy.newAnimatedParameter
                 (Fin (sqrt (sigma * sigma + omega * omega)))
                 (Fin 0.01) (Fin 100))
              (Legacy.newAnimatedParameter
                 (Fin (sqrt (sigma * sigma + omega * omega) / (-2 * sigma)))
                 (Fin 0.1) (Fin 20))
              sigma omega) as (a & b & E & -> & ->); try assumption.
  - reflexivity.
  - cbn [Legacy.newAnimatedParameter AnimatedParameter.value mul add].
    rewrite sqrt_finite by nra. reflexivity.
  - cbn [Legacy.newAnimatedParameter AnimatedParameter.value neg mul].
    rewrite div_finite by lra. reflexivity.
Qed.

Lemma legacy_single_pole_poles (id : Z) (sigma : R) :
  FilterStage.getPoles (legacy_single_pole id sigma)
    = [mkComplex (Fin sigma) (Fin 0)].
Proof.
  unfold FilterStage.getPoles, legacy_single_pole.
  cbn [fst Legacy.newFirstOrderLowPass FilterStage.body
       Legacy.newAnimatedParameter AnimatedParameter.value neg].
  rewrite Ropp_involutive. reflexivity.
Qed.

Lemma pole_mirror (wp g : R) (m k : Z) :
  (1 <= m)%Z ->
  pole_sigma wp g m (m + 1 - k) = pole_sigma wp g m k /\
  pole_omega wp g m (m + 1 - k) = - pole_omega wp g m k.
Proof.
  intros Hm. unfold pole_sigma, pole_omega.
  rewrite pole_angle_mirror by assumption.
  rewrite sin_PI_x, Rtrigo_facts.cos_pi_minus. split; ring.
Qed.

(** The poles of the stages of [legacy_stages] are the Chebyshev poles. *)
Lemma legacy_stages_poles (nextId : Z) (wp g : R) (m : Z) :
  0 < wp -> 0 < g -> (1 <= m)%Z ->
  (forall k, (1 <= k <= m)%Z ->
     exists s, In s (legacy_stages nextId wp g m) /\
       In (mkComplex (Fin (pole_sigma wp g m k)) (Fin (pole_omega wp g m k)))
          (FilterStage.getPoles s)) /\
  (forall s p, In s (legacy_stages nextId wp g m) ->
     In p (FilterStage.getPoles s) ->
     exists k, (1 <= k <= m)%Z /\
       p = mkComplex (Fin (pole_sigma wp g m k)) (Fin (pole_omega wp g m k))) /\
  List.length (List.concat (map FilterStage.getPoles (legacy_stages nextId wp g m)))
    = Z.to_nat m.
Proof.
  intros Hwp Hg Hm.
  pose proof (Z.div_mod m 2 ltac:(lia)) as Hdm.
  assert (Hhalf : (0 <= m / 2)%Z) by (apply Z.div_pos; lia).
  rewrite Zmod_odd in Hdm.
  assert (Hbq : forall i, (0 <= i < m / 2)%Z ->
            FilterStage.getPoles
              (legacy_biquad (nextId + i) (pole_sigma wp g m (i + 1))
                             (pole_omega wp g m (i + 1)))
            = [mkComplex (Fin (pole_sigma wp g m (i + 1)))
                         (Fin (pole_omega wp g m (i + 1)));
               mkComplex (Fin (pole_sigma wp g m (i + 1)))
                         (Fin (- pole_omega wp g m (i + 1)))]).
  { intros i Hi. apply legacy_biquad_poles.
    - apply pole_sigma_neg; try assumption. destruct (Z.odd m); lia.
    - apply pole_omega_pos; try assumption; destruct (Z.odd m); lia. }
  split; [| split].
  - (* every Chebyshev pole belongs to a stage *)
    intros k Hk.
    destruct (Z_le_gt_dec k (m / 2)) as [Hlow | Hhigh].
    + exists (legacy_biquad (nextId + (k - 1)) (pole_sigma wp g m (k - 1 + 1))
                            (pole_omega wp g m (k - 1 + 1))).
      split.
      * unfold legacy_stages. apply in_or_app. left.
        apply in_map_iff. exists (k - 1)%Z. split; [reflexivity |].
        apply In_Zrange. lia.
      * rewrite Hbq by lia. replace (k - 1 + 1)%Z with k by lia.
        left. reflexivity.
    + destruct (Z_le_gt_dec (m + 1 - k) (m / 2)) as [Hmir | Hmid].
      * (* the conjugate of the pole [m + 1 - k] *)
        exists (legacy_biquad (nextId + (m - k))
                  (pole_sigma wp g m (m - k + 1))
                  (pole_omega wp g m (m - k + 1))).
        split.
        -- unfold legacy_stages. apply in_or_app. left.
           apply in_map_iff. exists (m - k)%Z. split; [reflexivity |].
           apply In_Zrange. lia.
        -- rewrite Hbq by lia. right. left.
           destruct (pole_mirror wp g m k Hm) as [Es Eo].
           replace (m - k + 1)%Z with (m + 1 - k)%Z by lia.
           rewrite Es, Eo, Ropp_involutive. reflexivity.
      * (* the middle pole of an odd order *)
        destruct (Z.odd m) eqn:Hodd; [| lia].
        assert (k = m / 2 + 1)%Z by lia. subst k.
        exists (legacy_single_pole (nextId + m / 2)
                  (pole_sigma wp g m (m / 2 + 1))).
        split.
        -- unfold legacy_stages. rewrite Hodd. apply in_or_app. right.
           left. reflexivity.
        -- rewrite legacy_single_pole_poles.
           rewrite (pole_omega_middle wp g m Hm Hodd). left. reflexivity.
  - (* every pole of a stage is a Chebyshev pole *)
    intros s p Hs Hp. unfold legacy_stages in Hs. apply in_app_or in Hs.
    destruct Hs as [Hs | Hs].
    + apply in_map_iff in Hs. destruct Hs as (i & <- & Hi).
      apply In_Zrange in Hi. rewrite Hbq in Hp by lia.
      destruct Hp as [<- | [<- | []]].
      * exists (i + 1)%Z. split; [destruct (Z.odd m); lia | reflexivity].
      * exists (m + 1 - (i + 1))%Z.
        split; [destruct (Z.odd m); lia |].
        destruct (pole_mirror wp g m (i + 1) Hm) as [Es Eo].
        rewrite Es, Eo. reflexivity.
    + destruct (Z.odd m) eqn:Hodd; [| destruct Hs].
      destruct Hs as [<- | []].
      rewrite legacy_single_pole_poles in Hp. destruct Hp as [<- | []].
      exists (m / 2 + 1)%Z. split; [lia |].
      rewrite (pole_omega_middle wp g m Hm Hodd). reflexivity.
  - (* there are [m] poles in all *)
    unfold legacy_stages. rewrite map_app, concat_app, length_app.
    assert (Hcount : forall (c : nat) (k : Z),
              (0 <= k)%Z -> (k + Z.of_nat c <= m / 2)%Z ->
              List.length
                (List.concat (map FilterStage.getPoles
                           (map (fun i => legacy_biquad (nextId + i)
                                            (pole_sigma wp g m (i + 1))
                                            (pole_omega wp g m (i + 1)))
                                (Zrange k c))))
              = (2 * c)%nat).
    { induction c as [| c IH]; intros k Hk Hkc; [reflexivity |].
      cbn [Zrange map List.concat]. rewrite length_app, Hbq by lia.
      rewrite IH by lia. cbn [List.length]. lia. }
    rewrite Hcount by lia.
    destruct (Z.odd m); cbn [map List.concat List.length app].
    + rewrite legacy_single_pole_poles. cbn [app List.length]. lia.
    + lia.
Qed.

(** X24.  The earlier decomposition realises the Chebyshev design: on a
    specification with [0 < wp < ws] and [0 < Ap < As], the poles of the
    stages returned ([getPoles] of each stage) are exactly the poles
    [sigma_k + omega_k j], [k = 1..n], of the order [n]: every Chebyshev
    pole is a pole of some stage, every pole of a stage is a Chebyshev
    pole, and the stages have [n] poles in all. *)
Theorem Legacy_stages_realise_poles (wp ws Ap As : R) (nextId : Z) :
  0 < wp < ws -> 0 < Ap < As ->
  exists (n : Z) (g : R),
    getMinOrder (Fin wp) (Fin ws) (Fin Ap) (Fin As) = Fin (IZR n) /\
    g = pole_gamma (ripple_factor Ap) n /\
    forall fuel, (Z.to_nat n < fuel)%nat ->
      exists sol nid,
        Legacy.getBestSolutionStages fuel nextId
          (Fin wp) (Fin ws) (Fin Ap) (Fin As) = Legacy.Returned (sol, nid) /\
        (forall k, (1 <= k <= n)%Z ->
           exists s, In s (stages sol) /\
             In (mkComplex (Fin (pole_sigma wp g n k))
                           (Fin (pole_omega wp g n k)))
                (FilterStage.getPoles s)) /\
        (forall s p, In s (stages sol) -> In p (FilterStage.getPoles s) ->
           exists k, (1 <= k <= n)%Z /\
             p = mkComplex (Fin (pole_sigma wp g n k))
                           (Fin (pole_omega wp g n k))) /\
        List.length (List.concat (map FilterStage.getPoles (stages sol)))
          = Z.to_nat n.
Proof.
  intros Hw HA.
  pose proof (acosh_argument_gt_1 Ap As HA) as Harg.
  destruct (getMinOrder_feasible wp ws Ap As Hw) as [E _]; try lra.
  exists (real_order wp ws Ap As),
    (pole_gamma (ripple_factor Ap) (real_order wp ws Ap As)).
  split; [assumption | split; [reflexivity |]].
  intros fuel Hfuel.
  destruct (Legacy_returns wp ws Ap As nextId fuel Hw HA Hfuel) as [Hm Er].
  do 2 eexists. split; [exact Er |]. cbn [stages].
  apply legacy_stages_poles; try lra; try assumption.
  apply pole_gamma_pos; [apply ripple_factor_pos; lra | assumption].
Qed.

Lemma Legacy_stages_realise_poles_witness :
  exists (n : Z) (g : R),
    getMinOrder (Fin 1) (Fin 3) (Fin 3) (Fin 30) = Fin (IZR n) /\
    g = pole_gamma (ripple_factor 3) n /\
    forall fuel, (Z.to_nat n < fuel)%nat ->
      exists sol nid,
        Legacy.getBestSolutionStages fuel 1
          (Fin 1) (Fin 3) (Fin 3) (Fin 30) = Legacy.Returned (sol, nid) /\
        (forall k, (1 <= k <= n)%Z ->
           exists s, In s (stages sol) /\
             In (mkComplex (Fin (pole_sigma 1 g n k))
                           (Fin (pole_omega 1 g n k)))
                (FilterStage.getPoles s)) /\
        (forall s p, In s (stages sol) -> In p (FilterStage.getPoles s) ->
           exists k, (1 <= k <= n)%Z /\
             p = mkComplex (Fin (pole_sigma 1 g n k))
                           (Fin (pole_omega 1 g n k))) /\
        List.length (List.concat (map FilterStage.getPoles (stages sol)))
          = Z.to_nat n.
Proof.
  apply (Legacy_stages_realise_poles 1 3 3 30 1); lra.
Defined.

End LegacyStages.

(* ================================================================== *)
(** * Further properties: the gain of the decomposition                *)
(* ================================================================== *)

Section CompensationGain.

Import ChebyshevSolver.

(** [cos(n pi/2)] squared: 1 for an even [n], 0 for an odd [n]. *)
Lemma cos_half_turns (n : Z) :
  cos (IZR n * (PI / 2)) * cos (IZR n * (PI / 2))
  = if Z.even n then 1 else 0.
Proof.
  pose proof (Z.div_mod n 2 ltac:(lia)) as Hdm.
  rewrite Zmod_even in Hdm.
  destruct (Z.even n).
  - assert (E : IZR n * (PI / 2) = IZR (n / 2) * PI).
    { rewrite Hdm at 1. rewrite plus_IZR, mult_IZR. lra. }
    rewrite E.
    assert (Hs : sin (IZR (n / 2) * PI) = 0)
      by (apply sin_eq_0_1; exists (n / 2)%Z; reflexivity).
    pose proof (sin2_cos2 (IZR (n / 2) * PI)) as H.
    unfold Rsqr in H. rewrite Hs in H. lra.
  - assert (E : IZR n * (PI / 2) = IZR (n / 2) * PI + PI / 2).
    { rewrite Hdm at 1. rewrite plus_IZR, mult_IZR. lra. }
    rewrite E.
    assert (Hc : cos (IZR (n / 2) * PI + PI / 2) = 0)
      by (apply cos_eq_0_1; exists (n / 2)%Z; reflexivity).
    rewrite Hc. ring.
Qed.

(** X25.  The compensation gain matches the ideal curve at DC.  On a
    specification with [0 < wp < ws] and [0 < Ap < As], the ideal response
    at [omega = 0] for the order [getMinOrder] returns is [10^(-Ap/20)]
    when the order is even and 1 when it is odd, and it is the linear gain
    [Math.pow(10, globalGainDb / 20)] of the gain
    [getBestSolutionStages] returns. *)
Theorem compensation_gain_matches_ideal_dc (wp ws Ap As : R)
  (dom : option num) (nextId : Z) :
  0 < wp < ws -> 0 < Ap < As ->
  exists (n : Z) (m : R),
    getMinOrder (Fin wp) (Fin ws) (Fin Ap) (Fin As) = Fin (IZR n) /\
    getResponse (Fin 0) (Fin (IZR n))
                (Math_sqrt (Math_pow10 (Fin Ap / Fin 10) - Fin 1)%js) (Fin wp)
      = Fin m /\
    m = (if Z.even n then Rpower 10 (- Ap / 20) else 1) /\
    forall fuel, (Z.to_nat n < fuel)%nat ->
      exists sol nid,
        getBestSolutionStages fuel dom nextId
                              (Fin wp) (Fin ws) (Fin Ap) (Fin As)
          = Some (sol, nid) /\
        Math_pow10 (globalGainDb sol / Fin 20)%js = Fin m.
Proof.
  intros Hw HA.
  pose proof (acosh_argument_gt_1 Ap As HA) as Harg.
  destruct (getMinOrder_feasible wp ws Ap As Hw) as [E _]; try lra.
  set (n := real_order wp ws Ap As) in *.
  assert (Em : getResponse (Fin 0) (Fin (IZR n))
                 (Math_sqrt (Math_pow10 (Fin Ap / Fin 10) - Fin 1)%js) (Fin wp)
               = Fin (if Z.even n then Rpower 10 (- Ap / 20) else 1)).
  { rewrite (epsilon_finite Ap) by lra.
    rewrite getResponse_up_to_edge by lra.
    replace (0 / wp) with 0 by (field; lra). rewrite acos_0.
    rewrite Rmult_assoc, cos_half_turns. f_equal.
    destruct (Z.even n).
    - rewrite Rmult_1_r. apply inv_sqrt_ripple. lra.
    - rewrite Rmult_0_r, Rplus_0_r. replace (1 / 1) with 1 by lra.
      apply sqrt_1. }
  exists n. eexists. split; [assumption |]. split; [exact Em |].
  split; [reflexivity |].
  intros fuel Hfuel.
  destruct (getBestSolutionStages_returns wp ws Ap As dom nextId fuel)
    as (sol & nid & Es & Eg); try lra; try assumption.
  exists sol, nid. split; [assumption |]. rewrite Eg. fold n.
  destruct (Z.even n).
  - rewrite div_finite by lra. reflexivity.
  - apply pow10_zero_gain.
Qed.

Lemma compensation_gain_matches_ideal_dc_witness :
  exists (n : Z) (m : R),
    getMinOrder (Fin 1) (Fin 3) (Fin 3) (Fin 30) = Fin (IZR n) /\
    getResponse (Fin 0) (Fin (IZR n))
                (Math_sqrt (Math_pow10 (Fin 3 / Fin 10) - Fin 1)%js) (Fin 1)
      = Fin m /\
    m = (if Z.even n then Rpower 10 (- 3 / 20) else 1) /\
    forall fuel, (Z.to_nat n < fuel)%nat ->
      exists sol nid,
        getBestSolutionStages fuel None 1 (Fin 1) (Fin 3) (Fin 3) (Fin 30)
          = Some (sol, nid) /\
        Math_pow10 (globalGainDb sol / Fin 20)%js = Fin m.
Proof.
  apply (compensation_gain_matches_ideal_dc 1 3 3 30 None 1); lra.
Defined.

(** X26.  [getBestSolutionStages] never builds a stage.  Whatever the
    specification, when the call returns its stage list is empty and the
    identity counter has not moved: both loops test the property [im],
    which the poles [{ sigma, omega }] of [getPoles] do not have.  The
    same holds through [GameManager.getBestSolutionStages]. *)
Theorem getBestSolutionStages_never_builds_a_stage (fuel : nat)
  (dom : option num) (nextId : Z) (wp ws Ap As : num) (sol : solution)
  (nid : Z) :
  getBestSolutionStages fuel dom nextId wp ws Ap As = Some (sol, nid) ->
  stages sol = [] /\ nid = nextId /\
  forall cs,
    GameManager.wp cs = wp -> GameManager.ws cs = ws ->
    GameManager.Ap cs = Ap -> GameManager.As cs = As ->
    GameManager.getBestSolutionStages fuel dom nextId (Some cs)
      = Some (Some (mkSolution [] (globalGainDb sol), nextId)).
Proof.
  intros E.
  destruct (getBestSolutionStages_no_stage _ _ _ _ _ _ _ _ _ E) as [Hs Hn].
  split; [assumption | split; [assumption |]].
  intros cs <- <- <- <-. unfold GameManager.getBestSolutionStages.
  rewrite E. destruct sol as [st g]. cbn [stages globalGainDb] in *.
  subst. reflexivity.
Qed.

Lemma getBestSolutionStages_never_builds_a_stage_witness :
  exists sol nid,
    getBestSolutionStages 4 None 1 (Fin 1) (Fin 3) (Fin 3) (Fin 30)
      = Some (sol, nid) /\
    stages sol = [] /\ nid = 1%Z.
Proof.
  pose proof specification_1_3_3_30_argument as Harg.
  destruct (getBestSolutionStages_returns 1 3 3 30 None 1 4)
    as (sol & nid & E & _); try lra.
  { rewrite real_order_1_3_3_30. simpl. lia. }
  exists sol, nid. split; [exact E |].
  destruct (getBestSolutionStages_never_builds_a_stage
              4 None 1 (Fin 1) (Fin 3) (Fin 3) (Fin 30) sol nid E)
    as (Hs & Hn & _).
  split; assumption.
Defined.

End CompensationGain.

(* ================================================================== *)
(** * Further properties: the sampling grid                            *)
(* ================================================================== *)

Section SamplingGrid.

Import FrequencyResponse.

(** The loop for an integer number of points: one sample per index
    [i..N]. *)
Lemma loop_closed (N : Z) (logMin logMax : num) (gm gdb : num -> num)
  (fuel : nat) :
  forall (i : Z) (resp : list point),
    (Z.to_nat (N + 1 - i) < fuel)%nat ->
    loop fuel i (Fin (IZR N)) logMin logMax gm gdb resp
    = Some (resp ++
            map (fun j =>
                   let f := Math_pow10
                              (logMin + (int j / Fin (IZR N))
                                        * (logMax - logMin))%js in
                   mkPoint f f (gm f) (gdb f))
                (Zrange i (Z.to_nat (N + 1 - i)))).
Proof.
  induction fuel as [| fuel IH]; intros i resp Hfuel; [lia |].
  cbn [loop]. rewrite le_int_finite.
  destruct (Z.leb_spec i N) as [H | H].
  - rewrite IH by lia.
    replace (Z.to_nat (N + 1 - i)) with (S (Z.to_nat (N + 1 - (i + 1))))
      by lia.
    cbn [Zrange map]. rewrite <- app_assoc. reflexivity.
  - replace (Z.to_nat (N + 1 - i)) with 0%nat by lia.
    cbn. rewrite app_nil_r. reflexivity.
Qed.

Lemma Rpower_log10 (x : R) : 0 < x -> Rpower 10 (log10 x) = x.
Proof.
  intros H. unfold Rpower, log10. pose proof ln_10_pos.
  replace (ln x / ln 10 * ln 10) with (ln x) by (field; lra).
  apply exp_ln. assumption.
Qed.

Lemma log10_finite (x : R) : 0 < x -> Math_log10 (Fin x) = Fin (log10 x).
Proof.
  intros H. cbn [Math_log10]. rewrite Rltb_false, Reqb_false by lra.
  reflexivity.
Qed.

Lemma max_floor_finite (a : R) :
  Math_max (Fin 0.001) (Fin a) = Fin (Rmax 0.001 a).
Proof.
  cbn [Math_max lt]. unfold Rmax, Rltb.
  destruct (Rle_dec 0.001 a); destruct (Rlt_dec 0.001 a);
    try reflexivity; f_equal; lra.
Qed.

Lemma log10_lt (x y : R) : 0 < x -> x < y -> log10 x < log10 y.
Proof.
  intros Hx Hxy. unfold log10, Rdiv. pose proof ln_10_pos.
  apply Rmult_lt_compat_r; [apply Rinv_0_lt_compat; assumption |].
  apply ln_increasing; assumption.
Qed.

(** X27.  The sampling grid.  For finite [freqMin] and [freqMax > 0] and
    an integer [numPoints >= 1], the sampling loop shared by the three
    [getFrequencyResponse] methods returns, as soon as the fuel exceeds
    [numPoints + 1], exactly [numPoints + 1] samples; sample [j] carries
    the frequency [10^(lo + (j/numPoints)(hi - lo))] in both [freq] and
    [omega], with the magnitude and the decibel value computed at that
    frequency; the first frequency is [max(0.001, freqMin)], the last is
    [freqMax], and when [max(0.001, freqMin) < freqMax] the frequencies
    increase strictly. *)
Theorem sample_grid (gm gdb : num -> num) (fmin fmax : R) (N : Z)
  (fuel : nat) :
  0 < fmax -> (1 <= N)%Z -> (Z.to_nat (N + 1) < fuel)%nat ->
  let f := grid_frequency (Rmax 0.001 fmin) fmax N in
  exists pts,
    sample fuel gm gdb (Fin fmin) (Fin fmax) (Fin (IZR N)) = Some pts /\
    pts = map (fun j => mkPoint (Fin (f j)) (Fin (f j))
                                (gm (Fin (f j))) (gdb (Fin (f j))))
              (Zrange 0 (Z.to_nat (N + 1))) /\
    List.length pts = Z.to_nat (N + 1) /\
    f 0%Z = Rmax 0.001 fmin /\ f N = fmax /\
    (Rmax 0.001 fmin < fmax ->
     forall j k, (0 <= j < k)%Z -> (k <= N)%Z -> f j < f k).
Proof.
  intros Hmax HN Hfuel f.
  assert (Hlo : 0 < Rmax 0.001 fmin).
  { unfold Rmax. destruct (Rle_dec 0.001 fmin); lra. }
  assert (HNR : 0 < IZR N) by (apply IZR_lt; lia).
  eexists. split; [| split; [reflexivity |]].
  - unfold sample. rewrite max_floor_finite, !log10_finite by assumption.
    rewrite loop_closed by (replace (N + 1 - 0)%Z with (N + 1)%Z by lia; lia).
    replace (N + 1 - 0)%Z with (N + 1)%Z by lia. cbn [app].
    f_equal. apply map_ext. intros j. unfold int.
    rewrite div_finite by lra. cbn [sub neg add mul Math_pow10].
    reflexivity.
  - split; [rewrite length_map; apply Zrange_length |].
    split; [| split].
    + unfold f, grid_frequency.
      replace (log10 (Rmax 0.001 fmin)
               + 0 / IZR N * (log10 fmax - log10 (Rmax 0.001 fmin)))
        with (log10 (Rmax 0.001 fmin)) by (field; lra).
      apply Rpower_log10. assumption.
    + unfold f, grid_frequency.
      replace (log10 (Rmax 0.001 fmin)
               + IZR N / IZR N * (log10 fmax - log10 (Rmax 0.001 fmin)))
        with (log10 fmax) by (field; lra).
      apply Rpower_log10. assumption.
    + intros Hlt j k Hjk HkN. unfold f, grid_frequency.
      apply Rpower_lt; [lra |].
      pose proof (log10_lt _ _ Hlo Hlt) as Hlog.
      assert (Hjk' : IZR j < IZR k) by (apply IZR_lt; lia).
      assert (IZR j / IZR N < IZR k / IZR N).
      { unfold Rdiv. apply Rmult_lt_compat_r;
          [apply Rinv_0_lt_compat; assumption | assumption]. }
      nra.
Qed.

Lemma sample_grid_witness :
  let f := grid_frequency (Rmax 0.001 0.1) 100 50 in
  exists pts,
    sample 52 (fun _ => Fin 1) (fun _ => Fin 0) (Fin 0.1) (Fin 100)
           (Fin (IZR 50)) = Some pts /\
    pts = map (fun j => mkPoint (Fin (f j)) (Fin (f j)) (Fin 1) (Fin 0))
              (Zrange 0 (Z.to_nat (50 + 1))) /\
    List.length pts = Z.to_nat (50 + 1) /\
    f 0%Z = Rmax 0.001 0.1 /\ f 50%Z = 100 /\
    (Rmax 0.001 0.1 < 100 ->
     forall j k, (0 <= j < k)%Z -> (k <= 50)%Z -> f j < f k).
Proof.
  apply (sample_grid (fun _ => Fin 1) (fun _ => Fin 0) 0.1 100 50 52).
  - lra.
  - lia.
  - simpl. lia.
Defined.

Lemma loop_frequencies (fuel : nat) :
  forall (i : Z) (numPoints logMin logMax : num)
         (gm gdb gm' gdb' : num -> num) (resp resp' : list point),
    map freq resp = map freq resp' ->
    map omega resp = map omega resp' ->
    option_map (map freq) (loop fuel i numPoints logMin logMax gm gdb resp)
    = option_map (map freq)
                 (loop fuel i numPoints logMin logMax gm' gdb' resp') /\
    option_map (map omega) (loop fuel i numPoints logMin logMax gm gdb resp)
    = option_map (map omega)
                 (loop fuel i numPoints logMin logMax gm' gdb' resp').
Proof.
  induction fuel as [| fuel IH];
    intros i numPoints logMin logMax gm gdb gm' gdb' resp resp' Hf Ho.
  - split; reflexivity.
  - cbn [loop]. destruct (int i <=? numPoints)%js.
    + apply IH; rewrite !map_app; cbn [map freq omega]; f_equal; assumption.
    + cbn [option_map]. split; f_equal; assumption.
Qed.

Lemma loop_omega_is_freq (fuel : nat) :
  forall (i : Z) (numPoints logMin logMax : num) (gm gdb : num -> num)
         (resp : list point),
    map omega resp = map freq resp ->
    option_map (map omega) (loop fuel i numPoints logMin logMax gm gdb resp)
    = option_map (map freq) (loop fuel i numPoints logMin logMax gm gdb resp).
Proof.
  induction fuel as [| fuel IH];
    intros i numPoints logMin logMax gm gdb resp H; [reflexivity |].
  cbn [loop]. destruct (int i <=? numPoints)%js.
  - apply IH. rewrite !map_app. cbn [map freq omega]. f_equal. assumption.
  - cbn [option_map]. f_equal. assumption.
Qed.

(** X28.  One grid for the three curves.  For the same [freqMin],
    [freqMax] and [numPoints] (any numbers) and the same fuel, the samples
    of a stage, of a cascade and of the ideal Chebyshev response carry the
    same frequencies, in the same order, so that the three curves can be
    compared point by point; in every sample [omega] is [freq]. *)
Theorem frequency_grids_agree (fuel : nat) (s : FilterStage.t)
  (c : FilterCascade.t) (wp ws Ap As freqMin freqMax numPoints : num) :
  option_map (map freq) (ofStage fuel s freqMin freqMax numPoints)
  = option_map (map freq) (ofCascade fuel c freqMin freqMax numPoints) /\
  option_map (fun r => map freq (response r))
             (ofChebyshev fuel wp ws Ap As freqMin freqMax numPoints)
  = option_map (map freq) (ofCascade fuel c freqMin freqMax numPoints) /\
  option_map (map omega) (ofStage fuel s freqMin freqMax numPoints)
  = option_map (map freq) (ofStage fuel s freqMin freqMax numPoints) /\
  option_map (map omega) (ofCascade fuel c freqMin freqMax numPoints)
  = option_map (map freq) (ofCascade fuel c freqMin freqMax numPoints) /\
  option_map (fun r => map omega (response r))
             (ofChebyshev fuel wp ws Ap As freqMin freqMax numPoints)
  = option_map (map freq) (ofCascade fuel c freqMin freqMax numPoints).
Proof.
  assert (Hcheb : forall (proj : point -> num),
            option_map (fun r => map proj (response r))
              (ofChebyshev fuel wp ws Ap As freqMin freqMax numPoints)
            = option_map (map proj)
                (sample fuel
                   (fun omega =>
                      ChebyshevSolver.getResponse omega
                        (ChebyshevSolver.getMinOrder wp ws Ap As)
                        (Math_sqrt (Math_pow10 (Ap / Fin 10) - Fin 1)%js) wp)
                   (fun omega =>
                      if (ChebyshevSolver.getResponse omega
                            (ChebyshevSolver.getMinOrder wp ws Ap As)
                            (Math_sqrt (Math_pow10 (Ap / Fin 10) - Fin 1)%js)
                            wp >? Fin 1e-10)%js
                      then (Fin 20 * Math_log10
                              (ChebyshevSolver.getResponse omega
                                 (ChebyshevSolver.getMinOrder wp ws Ap As)
                                 (Math_sqrt
                                    (Math_pow10 (Ap / Fin 10) - Fin 1)%js)
                                 wp))%js
                      else Fin (-200))
                   freqMin freqMax numPoints)).
  { intros proj. unfold ofChebyshev.
    match goal with
    | |- option_map _ (match ?l with _ => _ end) = _ => destruct l
    end; reflexivity. }
  rewrite !Hcheb. unfold ofStage, ofCascade, sample.
  repeat split.
  - apply loop_frequencies; reflexivity.
  - apply loop_frequencies; reflexivity.
  - apply loop_omega_is_freq; reflexivity.
  - apply loop_omega_is_freq; reflexivity.
  - rewrite loop_omega_is_freq by reflexivity.
    apply loop_frequencies; reflexivity.
Qed.

End SamplingGrid.

(* ================================================================== *)
(** * Further properties: the challenge                                *)
(* ================================================================== *)

Section Challenge.

Import GameManager.

(** X29.  Every challenge is feasible.  Whatever the round and the
    difficulty settings, for three random values in [0, 1)
    [generateConstraints] gives a passband edge [wp] that is an integer of
    [1..10], a stopband edge [ws] with [1.5 wp <= ws < 3 wp], the ripple
    [Ap = 3] and an attenuation [As] with [25 <= As < 35]; the passband
    mask is [(0.1, wp, -3)] and the stopband mask [(ws, 100, -As)], so
    that [dbMax < dbMin]; and [getMinOrder] on these values returns a
    finite order, at least 1. *)
Theorem generateConstraints_feasible (base incr round : num) (r1 r2 r3 : R) :
  0 <= r1 < 1 -> 0 <= r2 < 1 -> 0 <= r3 < 1 ->
  let cs := generateConstraints base incr round (Fin r1) (Fin r2) (Fin r3) in
  exists (k : Z) (ws' ap as' : R) (n : Z),
    wp cs = Fin (IZR k) /\ (1 <= k <= 10)%Z /\
    ws cs = Fin ws' /\ 1.5 * IZR k <= ws' < 3 * IZR k /\
    Ap cs = Fin ap /\ ap = 3 /\
    As cs = Fin as' /\ 25 <= as' < 35 /\
    pass cs = mkPassband (Fin 0.1) (Fin (IZR k)) (Fin (- ap)) /\
    stop cs = mkStopband (Fin ws') (Fin 100) (Fin (- as')) /\
    - as' < - ap /\
    ChebyshevSolver.getMinOrder (wp cs) (ws cs) (Ap cs) (As cs)
      = Fin (IZR n) /\
    (1 <= n)%Z.
Proof.
  intros H1 H2 H3 cs.
  pose proof (Zfloor_bound (r1 * 10)) as [Hf1 Hf2].
  assert (Hk : (0 <= Zfloor (r1 * 10) <= 9)%Z).
  { split.
    - apply Zfloor_lub. simpl. lra.
    - assert (IZR (Zfloor (r1 * 10)) < 10) by lra.
      apply lt_IZR in H. lia. }
  set (z := Zfloor (r1 * 10)) in *.
  assert (Ewp : IZR z + 1 = IZR (z + 1)) by (rewrite plus_IZR; reflexivity).
  assert (Hkr : 1 <= IZR (z + 1) <= 10)
    by (split; apply IZR_le; lia).
  destruct (getMinOrder_positive_order (IZR (z + 1))
              (IZR (z + 1) * (1.5 + r2 * 1.5)) 3.0 (25 + r3 * 10))
    as (n & En & Hn); [nra | lra |].
  exists (z + 1)%Z, (IZR (z + 1) * (1.5 + r2 * 1.5)), 3.0, (25 + r3 * 10), n.
  unfold cs, generateConstraints.
  cbn [wp ws Ap As pass stop mul add Math_floor neg]. fold z.
  rewrite Ewp. cbn [mul].
  repeat split; try lia; try lra; try nra.
  exact En.
Qed.

Lemma generateConstraints_feasible_witness :
  let cs := generateConstraints (Fin 2) (Fin 0.5) (Fin 1)
                                (Fin 0.25) (Fin 0.5) (Fin 0.75) in
  exists (k : Z) (ws' ap as' : R) (n : Z),
    wp cs = Fin (IZR k) /\ (1 <= k <= 10)%Z /\
    ws cs = Fin ws' /\ 1.5 * IZR k <= ws' < 3 * IZR k /\
    Ap cs = Fin ap /\ ap = 3 /\
    As cs = Fin as' /\ 25 <= as' < 35 /\
    pass cs = mkPassband (Fin 0.1) (Fin (IZR k)) (Fin (- ap)) /\
    stop cs = mkStopband (Fin ws') (Fin 100) (Fin (- as')) /\
    - as' < - ap /\
    ChebyshevSolver.getMinOrder (wp cs) (ws cs) (Ap cs) (As cs)
      = Fin (IZR n) /\
    (1 <= n)%Z.
Proof.
  apply (generateConstraints_feasible (Fin 2) (Fin 0.5) (Fin 1)
           0.25 0.5 0.75); lra.
Defined.

Lemma log10_Rpower (x : R) : log10 (Rpower 10 x) = x.
Proof.
  unfold log10, Rpower. rewrite ln_exp. pose proof ln_10_pos. field. lra.
Qed.

(** The decibel value of a cascade without an active stage is the same at
    every [omega]. *)
Lemma getMagnitudeDb_without_active_stage (c : FilterCascade.t) (g : R)
  (omega : num) :
  (forall s, In s (FilterCascade.stages c) -> FilterStage.active s = false) ->
  FilterCascade.globalGainDb c = Fin g ->
  FilterCascade.getMagnitudeDb c omega
    = Fin (if Rlt_dec 1e-10 (Rpower 10 (g / 20)) then g else -200).
Proof.
  intros Hin Hg.
  unfold FilterCascade.getMagnitudeDb, FilterCascade.getMagnitude,
    FilterCascade.getResponse.
  rewrite fold_inactive_stages by assumption.
  rewrite Hg, div_finite by lra. cbn [Math_pow10 re im mul add].
  pose proof (Rpower_10_pos (g / 20)) as HG.
  set (G := Rpower 10 (g / 20)) in *.
  replace (1 * G * (1 * G) + 0 * G * (0 * G)) with (G * G) by ring.
  rewrite sqrt_finite by nra. rewrite sqrt_square by lra.
  cbn [gt lt]. unfold Rltb.
  destruct (Rlt_dec 1e-10 G); [| reflexivity].
  rewrite log10_finite by assumption. cbn [mul]. f_equal.
  unfold G. rewrite log10_Rpower. field.
Qed.

Lemma existsb_constant {A : Type} (b : bool) (l : list A) :
  l <> [] -> existsb (fun _ => b) l = b.
Proof.
  induction l as [| a l IH]; intros H; [contradiction |].
  cbn [existsb]. destruct b; [reflexivity |].
  destruct l; [reflexivity | apply IH; discriminate].
Qed.

Lemma existsb_of_map {A B : Type} (f : B -> bool) (h : A -> B) (l : list A) :
  existsb f (map h l) = existsb (fun x => f (h x)) l.
Proof.
  induction l as [| a l IH]; [reflexivity |].
  cbn [map existsb]. rewrite IH. reflexivity.
Qed.

Lemma existsb_pointwise {A : Type} (f h : A -> bool) (l : list A) :
  (forall x, f x = h x) -> existsb f l = existsb h l.
Proof.
  intros H. induction l as [| a l IH]; [reflexivity |].
  cbn [existsb]. rewrite H, IH. reflexivity.
Qed.

(** The samples of a cascade without an active stage. *)
Lemma ofCascade_without_active_stage (c : FilterCascade.t) (g : R)
  (fuel : nat) (fa fb : num) (test : num -> bool) :
  (forall s, In s (FilterCascade.stages c) -> FilterStage.active s = false) ->
  FilterCascade.globalGainDb c = Fin g ->
  (Z.to_nat 51 < fuel)%nat ->
  exists pts,
    FrequencyResponse.ofCascade fuel c fa fb (Fin 50) = Some pts /\
    existsb (fun p => test (FrequencyResponse.magnitudeDb p)) pts
    = test (Fin (if Rlt_dec 1e-10 (Rpower 10 (g / 20)) then g else -200)).
Proof.
  intros Hin Hg Hfuel.
  unfold FrequencyResponse.ofCascade, FrequencyResponse.sample.
  change (Fin 50) with (Fin (IZR 50)).
  rewrite loop_closed by exact Hfuel.
  eexists. split; [reflexivity |].
  cbn [app]. rewrite existsb_of_map.
  rewrite (existsb_pointwise _ (fun _ : Z =>
             test (Fin (if Rlt_dec 1e-10 (Rpower 10 (g / 20))
                        then g else -200)))).
  - apply existsb_constant. discriminate.
  - intros j. cbn [FrequencyResponse.magnitudeDb].
    rewrite (getMagnitudeDb_without_active_stage c g _ Hin Hg). reflexivity.
Qed.

(** X30.  A cascade without an active stage never passes.  For
    constraints whose masks are finite with [dbMax < dbMin] (those of
    every generated challenge), a cascade none of whose stages is active
    (in particular an empty one) fails [checkConstraints], whatever its
    finite gain: the check returns [false] as soon as the fuel covers the
    51 samples. *)
Theorem checkConstraints_rejects_without_active_stage
  (cs : constraints) (c : FilterCascade.t) (g lo hi : R) (fuel : nat) :
  dbMin (pass cs) = Fin lo -> dbMax (stop cs) = Fin hi -> hi < lo ->
  (forall s, In s (FilterCascade.stages c) -> FilterStage.active s = false) ->
  FilterCascade.globalGainDb c = Fin g ->
  (Z.to_nat 51 < fuel)%nat ->
  checkConstraints fuel (Some cs) c = Some false.
Proof.
  intros Hlo Hhi Hlt Hin Hg Hfuel. unfold checkConstraints.
  set (D := if Rlt_dec 1e-10 (Rpower 10 (g / 20)) then g else -200).
  destruct (ofCascade_without_active_stage c g fuel
              (pb_freqMin (pass cs)) (pb_freqMax (pass cs))
              (fun d => (d <? dbMin (pass cs))%js) Hin Hg Hfuel)
    as (pb & Epb & Elow).
  rewrite Epb.
  destruct (ofCascade_without_active_stage c g fuel
              (sb_freqMin (stop cs)) (sb_freqMax (stop cs))
              (fun d => (d >? dbMax (stop cs))%js) Hin Hg Hfuel)
    as (sb & Esb & Efail).
  rewrite Esb. fold D in Elow, Efail.
  rewrite Elow, Efail, Hlo, Hhi. cbn [lt gt]. f_equal.
  destruct (Rlt_dec D lo) as [Hd | Hd].
  - rewrite (Rltb_true D lo Hd). reflexivity.
  - rewrite (Rltb_true hi D) by lra.
    cbn [negb]. apply andb_false_r.
Qed.

Lemma checkConstraints_rejects_without_active_stage_witness :
  checkConstraints 52
    (Some (generateConstraints (Fin 2) (Fin 0.5) (Fin 1)
                               (Fin 0.25) (Fin 0.5) (Fin 0.75)))
    FilterCascade.new
  = Some false.
Proof.
  apply (checkConstraints_rejects_without_active_stage
           (generateConstraints (Fin 2) (Fin 0.5) (Fin 1)
                                (Fin 0.25) (Fin 0.5) (Fin 0.75))
           FilterCascade.new 0 (Ropp 3.0) (- (25 + 0.75 * 10)) 52).
  - reflexivity.
  - reflexivity.
  - lra.
  - intros s [].
  - reflexivity.
  - simpl. lia.
Defined.

End Challenge.
